(** * Email indicator extraction script (main.py): model and properties

    The script reads an e-mail file, extracts IPv4/IPv6 addresses and
    domain names with three regular expressions, stores them in two MySQL
    tables, optionally searches the header region, and prints grouped
    counts.  This development embeds the script function by function:

    - [Py]: the Python string operations the script uses ([str.find],
      [str.rfind], slicing, [str.replace], [str] of a number);
    - [Re]: the fragment of Python's [re] module the script's patterns
      live in: a parser for pattern strings, a backtracking matcher with
      Python's priority order, and [re.findall];
    - [Proc]: the effects of the script: files, the MySQL server, standard
      output, [sys.exit] and uncaught exceptions;
    - the script's own definitions, under the names they have in main.py.

    Text is modelled as [list ascii]; a character stands for the code
    point U+0000..U+00FF of the same number.  The calls to [logging]
    write to main.log only and are left out. *)

From Stdlib Require Import List Ascii ZArith Lia Bool Arith PeanoNat.
From Stdlib Require Import Sorted Permutation.
From Stdlib Require String DecimalString.
Import ListNotations.
Import String.StringSyntax.
Delimit Scope string_scope with string.

(** Python [str] values. *)
Definition str := list ascii.

(** A string literal of the source. *)
Definition lit (s : String.string) : str := String.list_ascii_of_string s.
Arguments lit s%_string.

Fixpoint str_eqb (a b : str) : bool :=
  match a, b with
  | [], [] => true
  | x :: a', y :: b' => Ascii.eqb x y && str_eqb a' b'
  | _, _ => false
  end.

Definition str_eq_dec (a b : str) : {a = b} + {a <> b} :=
  list_eq_dec ascii_dec a b.

(* ================================================================= *)
(** ** Python string operations *)

Module Py.

(** [s.startswith(p)]. *)
Fixpoint startswith (p s : str) : bool :=
  match p, s with
  | [], _ => true
  | x :: p', y :: s' => Ascii.eqb x y && startswith p' s'
  | _ :: _, [] => false
  end.

(** [s.find(sub)] counted from offset [i]: the lowest index at which
    [sub] starts, [-1] when there is none. *)
Fixpoint find_from (sub s : str) (i : Z) : Z :=
  if startswith sub s then i
  else match s with
       | [] => (-1)%Z
       | _ :: s' => find_from sub s' (i + 1)
       end.

Definition find (s sub : str) : Z := find_from sub s 0.

(** [s.rfind(sub)]: the highest index at which [sub] starts, [-1] when
    there is none. *)
Fixpoint rfind_from (sub s : str) (i : Z) : Z :=
  match s with
  | [] => if startswith sub [] then i else (-1)%Z
  | _ :: s' =>
      let r := rfind_from sub s' (i + 1) in
      if (0 <=? r)%Z then r
      else if startswith sub s then i else (-1)%Z
  end.

Definition rfind (s sub : str) : Z := rfind_from sub s 0.

(** The slice [s[:k]] for an integer [k]: a negative bound counts from
    the end, and bounds outside the string are clamped. *)
Definition slice_to (s : str) (k : Z) : str :=
  let n := Z.of_nat (length s) in
  let k' := if (k <? 0)%Z then Z.max 0 (k + n) else Z.min k n in
  firstn (Z.to_nat k') s.

(** [s.replace(old, new)] for a one-character [old]. *)
Definition replace_char (old : ascii) (new : str) (s : str) : str :=
  flat_map (fun c => if Ascii.eqb c old then new else [c]) s.

(** [str(n)] for a non-negative integer. *)
Definition str_of_nat (n : nat) : str :=
  lit (DecimalString.NilEmpty.string_of_uint (Nat.to_uint n)).

End Py.

(* ================================================================= *)
(** ** The fragment of Python's [re] module used by the script *)

Module Re.

Definition code (c : ascii) : nat := nat_of_ascii c.

Definition in_range (lo hi : nat) (c : ascii) : bool :=
  (lo <=? code c) && (code c <=? hi).

(** [\d] on a [str] pattern: the decimal digits (below U+0100 these are
    [0-9] only). *)
Definition is_digit (c : ascii) : bool := in_range 48 57 c.

(** [\w] on a [str] pattern: alphanumeric code points and the
    underscore.  Below U+0100 the alphanumerics are [0-9A-Za-z], U+00AA,
    U+00B2, U+00B3, U+00B5, U+00B9, U+00BA, U+00BC..U+00BE,
    U+00C0..U+00D6, U+00D8..U+00F6 and U+00F8..U+00FF. *)
Definition is_word (c : ascii) : bool :=
  in_range 48 57 c || in_range 65 90 c || in_range 97 122 c
  || (code c =? 95) || (code c =? 170) || in_range 178 179 c
  || (code c =? 181) || in_range 185 186 c || in_range 188 190 c
  || in_range 192 214 c || in_range 216 246 c || in_range 248 255 c.

(** [\s] on a [str] pattern, below U+0100. *)
Definition is_space (c : ascii) : bool :=
  in_range 9 13 c || in_range 28 32 c || (code c =? 133) || (code c =? 160).

(** One member of a bracketed set, or one category escape. *)
Inductive citem : Type :=
| CChar (c : ascii)
| CRange (lo hi : ascii)
| CDigit (neg : bool)
| CWord (neg : bool)
| CSpace (neg : bool).

(** What one pattern position accepts. *)
Inductive cset : Type :=
| CAny
| CSet (neg : bool) (items : list citem).

Definition citem_mem (i : citem) (c : ascii) : bool :=
  match i with
  | CChar a => Ascii.eqb c a
  | CRange lo hi => in_range (code lo) (code hi) c
  | CDigit neg => xorb neg (is_digit c)
  | CWord neg => xorb neg (is_word c)
  | CSpace neg => xorb neg (is_space c)
  end.

(** [.] accepts everything but a newline (no DOTALL flag in the script). *)
Definition cset_mem (cs : cset) (c : ascii) : bool :=
  match cs with
  | CAny => negb (Ascii.eqb c "010"%char)
  | CSet neg items => xorb neg (existsb (fun i => citem_mem i c) items)
  end.

Inductive regex : Type :=
| Empty
| Chars (cs : cset)
| Cat (r1 r2 : regex)
| Alt (r1 r2 : regex)
| Repeat (r : regex) (lo : nat) (hi : option nat) (greedy : bool)
| Group (n : nat) (r : regex)
| Look (ahead neg : bool) (r : regex)
| Bol
| Eol.

(** Width of a pattern when every match of it has the same length
    (what a look-behind requires). *)
Fixpoint width (r : regex) : option nat :=
  match r with
  | Empty | Look _ _ _ | Bol | Eol => Some 0
  | Chars _ => Some 1
  | Cat r1 r2 =>
      match width r1, width r2 with
      | Some a, Some b => Some (a + b)
      | _, _ => None
      end
  | Alt r1 r2 =>
      match width r1, width r2 with
      | Some a, Some b => if a =? b then Some a else None
      | _, _ => None
      end
  | Repeat r lo hi _ =>
      match width r, hi with
      | Some 0, _ => Some 0
      | Some a, Some h => if lo =? h then Some (lo * a) else None
      | _, _ => None
      end
  | Group _ r => width r
  end.

(** *** Matching *)

(** A position in the subject: the text before it (nearest character
    first), the text after it, and the groups captured so far (latest
    binding first). *)
Record mstate : Type := MState {
  before : str;
  after : str;
  caps : list (nat * str)
}.

Definition kont : Type := mstate -> option mstate.

Definition orelse (a : option mstate) (b : option mstate) : option mstate :=
  match a with Some x => Some x | None => b end.

(** The text between the positions [st] and [st'] ([st'] further on). *)
Definition matched_text (st st' : mstate) : str :=
  rev (firstn (length (before st') - length (before st)) (before st')).

Fixpoint lookup_cap (n : nat) (cs : list (nat * str)) : option str :=
  match cs with
  | [] => None
  | (m, t) :: cs' => if n =? m then Some t else lookup_cap n cs'
  end.

(** [m.group(n)] as [findall] reports it: a group that took no part in
    the match gives the empty string. *)
Definition group_text (n : nat) (st : mstate) : str :=
  match lookup_cap n (caps st) with Some t => t | None => [] end.

Definition step (st : mstate) (c : ascii) (aft : str) : mstate :=
  MState (c :: before st) aft (caps st).

(** The position [w] characters back, when there are that many. *)
Fixpoint back (w : nat) (bef aft : str) : option (str * str) :=
  match w with
  | 0 => Some (bef, aft)
  | S w' => match bef with
            | [] => None
            | c :: bef' => back w' bef' (c :: aft)
            end
  end.

(** Where [$] matches: at the end, and before a newline that ends the
    text. *)
Definition at_end (aft : str) : bool :=
  match aft with
  | [] => true
  | [c] => Ascii.eqb c "010"%char
  | _ => false
  end.

Definition progressed (st st' : mstate) : bool :=
  length (after st') <? length (after st).

Section Repeat.

Variable body : mstate -> kont -> option mstate.

(** The [lo] mandatory iterations. *)
Fixpoint rep_min (lo : nat) (st : mstate) (k : kont) : option mstate :=
  match lo with
  | 0 => k st
  | S lo' => body st (fun st' => rep_min lo' st' k)
  end.

(** Up to [n] further iterations.  A greedy repeat tries one more
    iteration before it tries what follows, a lazy one the other way
    round; after an iteration that consumed nothing no further one is
    tried. *)
Fixpoint rep_opt (greedy : bool) (n : nat) (st : mstate) (k : kont)
  : option mstate :=
  match n with
  | 0 => k st
  | S n' =>
      let again :=
        body st (fun st' =>
          if progressed st st' then rep_opt greedy n' st' k else k st') in
      if greedy then orelse again (k st) else orelse (k st) again
  end.

End Repeat.

(** The backtracking matcher: [rmatch r st k] matches [r] at [st] and
    hands every way of doing so, in Python's order of preference, to
    the continuation [k], until [k] accepts one. *)
Fixpoint rmatch (r : regex) (st : mstate) (k : kont) {struct r}
  : option mstate :=
  match r with
  | Empty => k st
  | Chars cs =>
      match after st with
      | c :: aft => if cset_mem cs c then k (step st c aft) else None
      | [] => None
      end
  | Cat r1 r2 => rmatch r1 st (fun st1 => rmatch r2 st1 k)
  | Alt r1 r2 => orelse (rmatch r1 st k) (rmatch r2 st k)
  | Repeat r1 lo hi greedy =>
      rep_min (rmatch r1) lo st (fun st1 =>
        let n := match hi with
                 | Some h => h - lo
                 | None => S (length (after st1))
                 end in
        rep_opt (rmatch r1) greedy n st1 k)
  | Group n r1 =>
      rmatch r1 st (fun st' =>
        k (MState (before st') (after st')
                  ((n, matched_text st st') :: caps st')))
  | Look true neg r1 =>
      match rmatch r1 st (fun x => Some x), neg with
      | Some st', false => k (MState (before st) (after st) (caps st'))
      | None, true => k st
      | _, _ => None
      end
  | Look false neg r1 =>
      let found :=
        match width r1 with
        | Some w =>
            match back w (before st) (after st) with
            | Some (bef, aft) =>
                rmatch r1 (MState bef aft (caps st)) (fun x => Some x)
            | None => None
            end
        | None => None
        end in
      match found, neg with
      | Some st', false => k (MState (before st) (after st) (caps st'))
      | None, true => k st
      | _, _ => None
      end
  | Bol => match before st with [] => k st | _ :: _ => None end
  | Eol => if at_end (after st) then k st else None
  end.

(** *** [re.findall] *)

(** One element of the list [findall] returns: the whole match when the
    pattern has no group, the group's text when it has one, and a tuple
    of the groups' texts when it has several. *)
Inductive fitem : Type :=
| FStr (s : str)
| FTuple (l : list str).

Definition item_of (ngroups : nat) (st0 st' : mstate) : fitem :=
  match ngroups with
  | 0 => FStr (matched_text st0 st')
  | 1 => FStr (group_text 1 st')
  | _ => FTuple (map (fun n => group_text n st') (seq 1 ngroups))
  end.

(** One match attempt at the position [(bef, aft)].  With
    [must_advance] an empty match is refused (the attempt right after an
    empty match at the same position). *)
Definition try_at (r : regex) (must_advance : bool) (bef aft : str)
  : option mstate :=
  rmatch r (MState bef aft [])
    (fun st' =>
       if must_advance && (length (after st') =? length aft) then None
       else Some st').

Definition consumed (aft : str) (st' : mstate) : nat :=
  length aft - length (after st').

(** The scan of [findall] from position [pos] on: [skip] characters are
    still covered by the previous match; each match is reported with the
    position it starts at. *)
Fixpoint scan (r : regex) (ng : nat) (bef aft : str) (skip pos : nat)
  {struct aft} : list (nat * fitem) :=
  match skip with
  | S n =>
      match aft with
      | [] => []
      | c :: aft' => scan r ng (c :: bef) aft' n (S pos)
      end
  | 0 =>
      let st0 := MState bef aft [] in
      let next := fun skip' =>
        match aft with
        | [] => []
        | c :: aft' => scan r ng (c :: bef) aft' skip' (S pos)
        end in
      match try_at r false bef aft with
      | None => next 0
      | Some st1 =>
          (pos, item_of ng st0 st1) ::
          match consumed aft st1 with
          | S l => next l
          | 0 =>
              match try_at r true bef aft with
              | None => next 0
              | Some st2 =>
                  (pos, item_of ng st0 st2) :: next (consumed aft st2 - 1)
              end
          end
      end
  end.

(** *** Parsing pattern strings

    The parser covers literals, [.], [^], [$], the escapes
    [\d \D \w \W \s \S \n \t \r \f \v \a] and escaped punctuation,
    bracketed sets with ranges and negation, capturing and [(?:...)]
    groups, the four look-around groups, alternation and the
    quantifiers [* + ? {m} {m,} {,n} {m,n}] with their lazy forms.
    [None] stands for a pattern that [re] rejects, or for one that
    holds a construct outside this fragment; [beyond], below, tells
    the two apart. *)

Local Notation "a '=c' b" := (Ascii.eqb a b%char) (at level 70).

Definition is_ascii_letter (c : ascii) : bool :=
  in_range 65 90 c || in_range 97 122 c.

Fixpoint take_digits (s : str) : str * str :=
  match s with
  | c :: s' =>
      if is_digit c then let (d, r) := take_digits s' in (c :: d, r)
      else ([], s)
  | [] => ([], [])
  end.

Definition nat_of_digits (d : str) : nat :=
  fold_left (fun n c => 10 * n + (code c - 48)) d 0.

Inductive quant : Type :=
| QNone
| QRep (lo : nat) (hi : option nat) (rest : str)
| QBad.

(** What follows an opening brace: a quantifier, or nothing, in which
    case the brace is an ordinary character.  A count of ten digits or
    more is not read: [re] ends in [OverflowError] from 4294967295
    on. *)
Definition parse_braces (s : str) : quant :=
  match s with
  | c :: _ =>
      if c =c "}" then QNone
      else
        let (lo, s1) := take_digits s in
        let (hi, s2) :=
          match s1 with
          | c1 :: s1' => if c1 =c "," then take_digits s1' else (lo, s1)
          | [] => (lo, s1)
          end in
        match s2 with
        | c2 :: s3 =>
            if c2 =c "}" then
              if (9 <? length lo) || (9 <? length hi) then QBad
              else
                let mn := nat_of_digits lo in
                match hi with
                | [] => QRep mn None s3
                | _ :: _ =>
                    if nat_of_digits hi <? mn then QBad
                    else QRep mn (Some (nat_of_digits hi)) s3
                end
            else QNone
        | [] => QNone
        end
  | [] => QNone
  end.

Definition parse_quant (s : str) : quant :=
  match s with
  | c :: s' =>
      if c =c "*" then QRep 0 None s'
      else if c =c "+" then QRep 1 None s'
      else if c =c "?" then QRep 0 (Some 1) s'
      else if c =c "{" then parse_braces s'
      else QNone
  | [] => QNone
  end.

(** The quantifier after the item [a], if any. *)
Definition quantify (a : regex) (repeatable : bool) (s : str)
  : option (regex * str) :=
  match parse_quant s with
  | QNone => Some (a, s)
  | QBad => None
  | QRep lo hi s1 =>
      if repeatable then
        let (greedy, s2) :=
          match s1 with
          | c :: s1' => if c =c "?" then (false, s1') else (true, s1)
          | [] => (true, s1)
          end in
        match parse_quant s2 with
        | QNone => Some (Repeat a lo hi greedy, s2)
        | _ => None
        end
      else None
  end.

Definition escape_category (c : ascii) : option citem :=
  if c =c "d" then Some (CDigit false)
  else if c =c "D" then Some (CDigit true)
  else if c =c "w" then Some (CWord false)
  else if c =c "W" then Some (CWord true)
  else if c =c "s" then Some (CSpace false)
  else if c =c "S" then Some (CSpace true)
  else None.

Definition escape_char (in_set : bool) (c : ascii) : option ascii :=
  if c =c "n" then Some "010"%char
  else if c =c "t" then Some "009"%char
  else if c =c "r" then Some "013"%char
  else if c =c "f" then Some "012"%char
  else if c =c "v" then Some "011"%char
  else if c =c "a" then Some "007"%char
  else if (c =c "b") && in_set then Some "008"%char
  else if is_ascii_letter c || is_digit c then None
  else Some c.

(** The character after a backslash. *)
Definition parse_escape (in_set : bool) (c : ascii) : option citem :=
  match escape_category c with
  | Some i => Some i
  | None =>
      match escape_char in_set c with
      | Some a => Some (CChar a)
      | None => None
      end
  end.

(** One member of a bracketed set starting with the character [c]. *)
Definition set_atom (c : ascii) (s : str) : option (citem * str) :=
  if c =c "\" then
    match s with
    | e :: s' =>
        match parse_escape true e with
        | Some i => Some (i, s')
        | None => None
        end
    | [] => None
    end
  else Some (CChar c, s).

(** The members of a bracketed set, up to the closing bracket; a
    closing bracket in first place is a member. *)
Fixpoint parse_set (fuel : nat) (first : bool) (acc : list citem) (s : str)
  : option (list citem * str) :=
  match fuel with
  | 0 => None
  | S f =>
      match s with
      | [] => None
      | c :: s1 =>
          if (c =c "]") && negb first then Some (rev acc, s1)
          else
            match set_atom c s1 with
            | None => None
            | Some (i1, s2) =>
                match s2 with
                | d :: s3 =>
                    if d =c "-" then
                      match s3 with
                      | [] => None
                      | e :: s4 =>
                          if e =c "]" then
                            Some (rev (CChar "-"%char :: i1 :: acc), s4)
                          else
                            match set_atom e s4 with
                            | Some (i2, s5) =>
                                match i1, i2 with
                                | CChar lo, CChar hi =>
                                    if code hi <? code lo then None
                                    else parse_set f false
                                           (CRange lo hi :: acc) s5
                                | _, _ => None
                                end
                            | None => None
                            end
                      end
                    else parse_set f false (i1 :: acc) s2
                | [] => parse_set f false (i1 :: acc) s2
                end
            end
      end
  end.

Definition cat (a b : regex) : regex :=
  match b with
  | Empty => a
  | _ => Cat a b
  end.

(** What an opening parenthesis starts. *)
Inductive group_kind : Type :=
| GCapture
| GPlain
| GLook (ahead neg : bool).

Definition group_head (s : str) : option (group_kind * str) :=
  match s with
  | c1 :: s1 =>
      if c1 =c "?" then
        match s1 with
        | c2 :: s2 =>
            if c2 =c ":" then Some (GPlain, s2)
            else if c2 =c "=" then Some (GLook true false, s2)
            else if c2 =c "!" then Some (GLook true true, s2)
            else if c2 =c "<" then
              match s2 with
              | c3 :: s3 =>
                  if c3 =c "=" then Some (GLook false false, s3)
                  else if c3 =c "!" then Some (GLook false true, s3)
                  else None
              | [] => None
              end
            else None
        | [] => None
        end
      else Some (GCapture, s)
  | [] => Some (GCapture, s)
  end.

(** [parse_alt] reads alternatives up to a closing parenthesis or the
    end, [parse_seq] one alternative, [parse_atom] one item that starts
    with the character [c].  [gc] is the number of capturing groups
    opened so far: groups are numbered by their opening parenthesis. *)
Fixpoint parse_alt (fuel gc : nat) (s : str) {struct fuel}
  : option (regex * nat * str) :=
  match fuel with
  | 0 => None
  | S f =>
      match parse_seq f gc s with
      | Some (r1, gc1, s1) =>
          match s1 with
          | c :: s2 =>
              if c =c "|" then
                match parse_alt f gc1 s2 with
                | Some (r2, gc2, s3) => Some (Alt r1 r2, gc2, s3)
                | None => None
                end
              else Some (r1, gc1, s1)
          | [] => Some (r1, gc1, s1)
          end
      | None => None
      end
  end
with parse_seq (fuel gc : nat) (s : str) {struct fuel}
  : option (regex * nat * str) :=
  match fuel with
  | 0 => None
  | S f =>
      match s with
      | [] => Some (Empty, gc, s)
      | c :: s1 =>
          if (c =c "|") || (c =c ")") then Some (Empty, gc, s)
          else
            match parse_atom f gc c s1 with
            | Some (a, repeatable, gc1, s2) =>
                match quantify a repeatable s2 with
                | Some (a', s3) =>
                    match parse_seq f gc1 s3 with
                    | Some (r, gc2, s4) => Some (cat a' r, gc2, s4)
                    | None => None
                    end
                | None => None
                end
            | None => None
            end
      end
  end
with parse_atom (fuel gc : nat) (c : ascii) (s : str) {struct fuel}
  : option (regex * bool * nat * str) :=
  match fuel with
  | 0 => None
  | S f =>
      if c =c "." then Some (Chars CAny, true, gc, s)
      else if c =c "^" then Some (Bol, false, gc, s)
      else if c =c "$" then Some (Eol, false, gc, s)
      else if (c =c "*") || (c =c "+") || (c =c "?") then None
      else if c =c "{" then
        match parse_braces s with
        | QNone => Some (Chars (CSet false [CChar c]), true, gc, s)
        | _ => None
        end
      else if c =c "\" then
        match s with
        | e :: s1 =>
            match parse_escape false e with
            | Some i => Some (Chars (CSet false [i]), true, gc, s1)
            | None => None
            end
        | [] => None
        end
      else if c =c "[" then
        let (neg, s1) :=
          match s with
          | n :: s' => if n =c "^" then (true, s') else (false, s)
          | [] => (false, s)
          end in
        match parse_set (S (length s1)) true [] s1 with
        | Some (items, s2) => Some (Chars (CSet neg items), true, gc, s2)
        | None => None
        end
      else if c =c "(" then
        match group_head s with
        | Some (kind, s1) =>
            let gc0 := match kind with GCapture => S gc | _ => gc end in
            match parse_alt f gc0 s1 with
            | Some (r, gc1, s2) =>
                match s2 with
                | d :: s3 =>
                    if d =c ")" then
                      match kind with
                      | GCapture => Some (Group (S gc) r, true, gc1, s3)
                      | GPlain => Some (r, true, gc1, s3)
                      | GLook true neg =>
                          Some (Look true neg r, true, gc1, s3)
                      | GLook false neg =>
                          match width r with
                          | Some _ => Some (Look false neg r, true, gc1, s3)
                          | None => None
                          end
                      end
                    else None
                | [] => None
                end
            | None => None
            end
        | None => None
        end
      else Some (Chars (CSet false [CChar c]), true, gc, s)
  end.

(** [re.compile]: the pattern and its number of capturing groups. *)
Definition compile (pattern : str) : option (regex * nat) :=
  match parse_alt (3 * length pattern + 3) 0 pattern with
  | Some (r, ng, []) => Some (r, ng)
  | _ => None
  end.

(** The matches of [findall] with the positions they start at. *)
Definition spans (r : regex) (ng : nat) (s : str) : list (nat * fitem) :=
  scan r ng [] s 0 0.

(** [re.findall(pattern, string)]. *)
Definition findall (pattern string : str) : option (list fitem) :=
  match compile pattern with
  | Some (r, ng) => Some (map snd (spans r ng string))
  | None => None
  end.

(** *** Patterns outside the fragment

    [beyond] holds of a pattern in which a construct occurs that [re]
    knows and the parser above does not read: the escapes
    [\b \B \A \Z], the numeric escapes and back-references
    [\0 .. \9 \x \u \U \N]; a group that opens with [(?] followed by
    anything but [: = ! <= <!] (named groups, references to them,
    comments, flags, atomic and conditional groups); a quantifier
    followed by [+] (possessive); a count of ten digits or more after
    an opening brace.  When [compile] gives [None] for such
    a pattern, nothing is known about what [re] does with it; when it
    gives [None] for a pattern that is not [beyond], [re] rejects the
    pattern. *)
Fixpoint beyond (s : str) : bool :=
  match s with
  | [] => false
  | c :: s1 =>
      if c =c "\" then
        match s1 with
        | e :: s2 =>
            existsb (Ascii.eqb e) (lit "bBAZxuUN0123456789") || beyond s2
        | [] => false
        end
      else if c =c "(" then
        match s1 with
        | q :: k :: s2 =>
            (q =c "?")
            && (negb (existsb (Ascii.eqb k) (lit ":=!<"))
                || (k =c "<")
                   && match s2 with
                      | n :: _ => negb ((n =c "=") || (n =c "!"))
                      | [] => false
                      end)
            || beyond s1
        | _ => beyond s1
        end
      else if existsb (Ascii.eqb c) (lit "*+?}") then
        match s1 with
        | p :: _ => (p =c "+") || beyond s1
        | [] => false
        end
      else if c =c "{" then
        (let (lo, s2) := take_digits s1 in
         (9 <? length lo)
         || match s2 with
            | k :: s3 => (k =c ",") && (9 <? length (fst (take_digits s3)))
            | [] => false
            end)
        || beyond s1
      else beyond s1
  end.

End Re.

(* ================================================================= *)
(** ** Effects: files, the MySQL server, standard output, exits *)

Module Proc.

Inductive exn : Type :=
| IndexError
| KeyError
| TypeError
| AttributeError
| JSONDecodeError
| re_error
| ProgrammingError      (* mysql.connector.errors.ProgrammingError *)
| InterfaceError        (* mysql.connector.errors.InterfaceError *)
| Unmodelled.           (* see below *)

(** [Unmodelled] is no exception of the program.  A computation ends
    in it at the point where this development stops following the
    program: a pattern outside the fragment of [re] that it parses, an
    SQL string literal that does not stand for the interpolated value,
    a value longer than its column.  What the program does from there
    on is not described, and no handler of the script applies. *)

(** The subclasses of [mysql.connector.Error]. *)
Definition is_mysql_Error (e : exn) : bool :=
  match e with
  | ProgrammingError | InterfaceError => true
  | _ => false
  end.

(** How a computation ends: with a value, in [sys.exit(code)], or in an
    exception. *)
Inductive outcome (A : Type) : Type :=
| Ret (a : A)
| Exit (code : Z)
| Raise (e : exn).
Arguments Ret {A} a.
Arguments Exit {A} code.
Arguments Raise {A} e.

(** The keyword arguments of [mysql.connector.connect]. *)
Record conn_args : Type := ConnArgs {
  ca_host : str;
  ca_database : str;
  ca_user : str;
  ca_password : str;
  ca_port : Z
}.

Definition conn_args_eqb (a b : conn_args) : bool :=
  str_eqb (ca_host a) (ca_host b) && str_eqb (ca_database a) (ca_database b)
  && str_eqb (ca_user a) (ca_user b) && str_eqb (ca_password a) (ca_password b)
  && (ca_port a =? ca_port b)%Z.

(** An open session: its serial number and the schema it is bound to. *)
Record connection : Type := Connection {
  conn_id : nat;
  conn_database : str
}.

(** The attributes of a [DbConnection] object; [None] is an attribute
    that has not been assigned yet.  [conn] holds Python's [None] as
    [Some None]. *)
Record object : Type := Object {
  host : option str;
  port : option Z;
  user : option str;
  password : option str;
  data_base : option str;
  conn : option (option connection)
}.

Definition fresh_object : object := Object None None None None None None.

(** What [json.load(open('db_conf.json'))] finds. *)
Inductive conf_file : Type :=
| ConfMissing
| ConfBroken (e : exn)
| ConfDict (c : conn_args).

(** What [print] wrote: a text, or the [repr] of a tuple of strings
    (left unrendered). *)
Inductive printed : Type :=
| Text (s : str)
| TupleRepr (l : list str).

Record world : Type := World {
  files : list (str * str);                   (* path, content *)
  db_conf : conf_file;
  accounts : list conn_args;                  (* what the server accepts *)
  tables : list (str * str * list str);       (* schema, table, rows *)
  connects : nat;                             (* connection attempts *)
  stdout : list printed;                      (* one entry per print call *)
  heap : list object;
  _instance : option nat                      (* DbConnection._instance *)
}.

Definition M (A : Type) : Type := world -> outcome A * world.

Definition ret {A} (a : A) : M A := fun w => (Ret a, w).

Definition bind {A B} (m : M A) (f : A -> M B) : M B :=
  fun w =>
    match m w with
    | (Ret a, w') => f a w'
    | (Exit c, w') => (Exit c, w')
    | (Raise e, w') => (Raise e, w')
    end.

Definition sys_exit {A} (c : Z) : M A := fun w => (Exit c, w).
Definition raise {A} (e : exn) : M A := fun w => (Raise e, w).

(** [try: m  except <the exceptions h accepts>: ...]. *)
Definition try_except {A} (m : M A) (h : exn -> option (M A)) : M A :=
  fun w =>
    match m w with
    | (Raise e, w') =>
        match h e with
        | Some m' => m' w'
        | None => (Raise e, w')
        end
    | r => r
    end.

(** [try: m  finally: f]. *)
Definition try_finally {A} (m : M A) (f : M unit) : M A :=
  fun w =>
    match m w with
    | (r, w') =>
        match f w' with
        | (Ret _, w'') => (r, w'')
        | (Exit c, w'') => (Exit c, w'')
        | (Raise e, w'') => (Raise e, w'')
        end
    end.

Definition get {A} (f : world -> A) : M A := fun w => (Ret (f w), w).
Definition modify (f : world -> world) : M unit := fun w => (Ret tt, f w).

(** [for x in l: body x]. *)
Fixpoint for_each {A} (l : list A) (body : A -> M unit) : M unit :=
  match l with
  | [] => ret tt
  | x :: l' => bind (body x) (fun _ => for_each l' body)
  end.

(** The exit status of the process. *)
Definition exit_status {A} (r : outcome A * world) : Z :=
  match fst r with
  | Ret _ => 0
  | Exit c => c
  | Raise _ => 1
  end.

(** *** Standard output *)

Definition set_stdout (o : list printed) (w : world) : world :=
  World (files w) (db_conf w) (accounts w) (tables w) (connects w) o
        (heap w) (_instance w).

Definition print (x : printed) : M unit :=
  modify (fun w => set_stdout (stdout w ++ [x]) w).

(** [print(a, b, c)]: the arguments separated by single spaces. *)
Definition print3 (a b c : str) : M unit :=
  print (Text (a ++ lit " " ++ b ++ lit " " ++ c)).

(** *** Files *)

Fixpoint lookup_file (path : str) (fs : list (str * str)) : option str :=
  match fs with
  | [] => None
  | (p, c) :: fs' => if str_eqb p path then Some c else lookup_file path fs'
  end.

(** [open(path).read()]; [None] is [FileNotFoundError]. *)
Definition read_file (path : str) : M (option str) :=
  get (fun w => lookup_file path (files w)).

(** *** Objects *)

Definition set_heap (h : list object) (i : option nat) (w : world) : world :=
  World (files w) (db_conf w) (accounts w) (tables w) (connects w) (stdout w)
        h i.

Fixpoint update_nth {A} (n : nat) (f : A -> A) (l : list A) : list A :=
  match l, n with
  | [], _ => []
  | x :: l', 0 => f x :: l'
  | x :: l', S n' => x :: update_nth n' f l'
  end.

Definition set_attr (self : nat) (f : object -> object) : M unit :=
  modify (fun w => set_heap (update_nth self f (heap w)) (_instance w) w).

(** Reading an attribute; an attribute never assigned is an
    [AttributeError]. *)
Definition get_attr {A} (self : nat) (f : object -> option A) : M A :=
  fun w =>
    match nth_error (heap w) self with
    | Some o => match f o with
                | Some a => (Ret a, w)
                | None => (Raise AttributeError, w)
                end
    | None => (Raise AttributeError, w)
    end.

(** *** The MySQL server *)

Definition set_tables (t : list (str * str * list str)) (w : world) : world :=
  World (files w) (db_conf w) (accounts w) t (connects w) (stdout w)
        (heap w) (_instance w).

Definition set_connects (n : nat) (w : world) : world :=
  World (files w) (db_conf w) (accounts w) (tables w) n (stdout w)
        (heap w) (_instance w).

(** [mysql.connector.connect(...)]: counts the attempt; the server
    accepts the arguments it has an account for, any other attempt
    raises. *)
Definition connect (a : conn_args) : M connection :=
  fun w =>
    let w' := set_connects (S (connects w)) w in
    if existsb (conn_args_eqb a) (accounts w)
    then (Ret (Connection (connects w) (ca_database a)), w')
    else (Raise InterfaceError, w').

Fixpoint lookup_table (db t : str) (ts : list (str * str * list str))
  : option (list str) :=
  match ts with
  | [] => None
  | (d, n, rows) :: ts' =>
      if str_eqb d db && str_eqb n t then Some rows else lookup_table db t ts'
  end.

Fixpoint remove_table (db t : str) (ts : list (str * str * list str))
  : list (str * str * list str) :=
  match ts with
  | [] => []
  | (d, n, rows) :: ts' =>
      if str_eqb d db && str_eqb n t then remove_table db t ts'
      else (d, n, rows) :: remove_table db t ts'
  end.

(** The row values grouped by value with their counts, in order of
    first appearance. *)
Fixpoint count_of (v : str) (l : list str) : nat :=
  match l with
  | [] => 0
  | x :: l' => (if str_eqb x v then 1 else 0) + count_of v l'
  end.

(** The distinct values of [l] that are not in [seen]. *)
Fixpoint distinct (seen l : list str) : list str :=
  match l with
  | [] => []
  | x :: l' =>
      if existsb (str_eqb x) seen then distinct seen l'
      else x :: distinct (x :: seen) l'
  end.

Definition group_by_value (l : list str) : list (str * nat) :=
  map (fun v => (v, count_of v l)) (distinct [] l).

Fixpoint insert_desc (g : str * nat) (l : list (str * nat))
  : list (str * nat) :=
  match l with
  | [] => [g]
  | h :: l' => if snd h <=? snd g then g :: l else h :: insert_desc g l'
  end.

(** [ORDER BY COUNT(..) DESC]; groups of equal count keep the order
    they have (the engine leaves their order open). *)
Definition order_by_count_desc (l : list (str * nat)) : list (str * nat) :=
  fold_right insert_desc [] l.

(** [SELECT c, COUNT(c) FROM t GROUP BY c ORDER BY COUNT(c) DESC] over
    the rows of [t]. *)
Definition select_grouped (rows : list str) : list (str * nat) :=
  order_by_count_desc (group_by_value rows).

(** The statements the script sends through [cursor.execute]:
    - [DropTable t]: DROP TABLE t
    - [CreateTable t]: CREATE TABLE t (id INT PRIMARY KEY AUTO_INCREMENT
      UNIQUE, <column> VARCHAR(255) NOT NULL)
    - [InsertInto t v]: the text INSERT INTO t(<column>) VALUES ("%s")
      with [v] interpolated for [%s]
    - [SelectGrouped t]: SELECT <column>, COUNT(<column>) FROM t GROUP BY
      <column> ORDER BY COUNT(<column>) DESC *)
Inductive statement : Type :=
| DropTable (t : str)
| CreateTable (t : str)
| InsertInto (t : str) (v : str)
| SelectGrouped (t : str).

(** The values [v] for which the INSERT statement built by
    interpolation stores [v]: the text between the double quotes of the
    SQL literal stands for itself when it holds no double quote and no
    backslash, and the [VARCHAR(255)] column takes at most 255
    characters. *)
Definition storable (v : str) : bool :=
  (length v <=? 255)
  && forallb (fun c => negb (Ascii.eqb c "034"%char || Ascii.eqb c "092"%char))
       v.

(** [cursor.execute(q)] followed, for a SELECT, by [cursor.fetchall()].
    A statement on a table that is not there, and the creation of one
    that is, raise [ProgrammingError].  Rows are visible to the session
    as soon as they are inserted.  What the server makes of an INSERT
    whose value is not [storable] (a statement of another meaning, a
    syntax error, a truncated or refused value) is not modelled. *)
Definition execute (c : connection) (q : statement) : M (list (str * nat)) :=
  fun w =>
    let db := conn_database c in
    match q with
    | DropTable t =>
        match lookup_table db t (tables w) with
        | Some _ => (Ret [], set_tables (remove_table db t (tables w)) w)
        | None => (Raise ProgrammingError, w)
        end
    | CreateTable t =>
        match lookup_table db t (tables w) with
        | Some _ => (Raise ProgrammingError, w)
        | None => (Ret [], set_tables ((db, t, []) :: tables w) w)
        end
    | InsertInto t v =>
        if storable v then
          match lookup_table db t (tables w) with
          | Some rows =>
              (Ret [],
               set_tables ((db, t, rows ++ [v]) :: remove_table db t (tables w))
                 w)
          | None => (Raise ProgrammingError, w)
          end
        else (Raise Unmodelled, w)
    | SelectGrouped t =>
        match lookup_table db t (tables w) with
        | Some rows => (Ret (select_grouped rows), w)
        | None => (Raise ProgrammingError, w)
        end
    end.

(** [conn.commit()]: nothing the session itself can observe. *)
Definition commit (c : connection) : M unit := ret tt.

End Proc.

Import Proc.

Declare Scope proc_scope.
Delimit Scope proc_scope with proc.
Notation "x <- m ;; k" := (bind m (fun x => k))
  (at level 61, m at next level, right associativity) : proc_scope.
Notation "m ;;; k" := (bind m (fun _ => k))
  (at level 61, right associativity) : proc_scope.
Local Open Scope proc_scope.

(* ================================================================= *)
(** ** The script *)

Definition nl : ascii := "010"%char.
Definition tab : ascii := "009"%char.

(** A Python object passed where the script expects a [str]. *)
Inductive pyobj : Type :=
| Str (s : str)
| Bytes (b : str)
| Int (z : Z)
| NoneObj.

Definition with_host (v : str) (o : object) : object :=
  Object (Some v) (port o) (user o) (password o) (data_base o) (conn o).
Definition with_port (v : Z) (o : object) : object :=
  Object (host o) (Some v) (user o) (password o) (data_base o) (conn o).
Definition with_user (v : str) (o : object) : object :=
  Object (host o) (port o) (Some v) (password o) (data_base o) (conn o).
Definition with_password (v : str) (o : object) : object :=
  Object (host o) (port o) (user o) (Some v) (data_base o) (conn o).
Definition with_data_base (v : str) (o : object) : object :=
  Object (host o) (port o) (user o) (password o) (Some v) (conn o).
Definition with_conn (v : option connection) (o : object) : object :=
  Object (host o) (port o) (user o) (password o) (data_base o) (Some v).

(** [self.conn.cursor()]: needs [self.conn] to be a connection. *)
Definition cursor (self : nat) : M connection :=
  c <- get_attr self conn ;;
  match c with
  | Some c => ret c
  | None => raise AttributeError
  end.

(** [conn.is_connected()] right after [connect] returned. *)
Definition is_connected (c : connection) : bool := true.

Module DbConnection.

(** main.py, [DbConnection.__new__]:
<<
    if not isinstance(cls._instance, DbConnection):
        cls._instance = object.__new__(cls)
    return cls._instance
>> *)
Definition __new__ : M nat :=
  fun w =>
    match _instance w with
    | Some self => (Ret self, w)
    | None =>
        let self := length (heap w) in
        (Ret self, set_heap (heap w ++ [fresh_object]) (Some self) w)
    end.

Definition except_ProgrammingError (e : exn) : option (M (list (str * nat))) :=
  match e with
  | ProgrammingError => Some (ret [])
  | _ => None
  end.

(** main.py, [DbConnection.recreate_tables]:
<<
    cursor = self.conn.cursor()
    try:
        cursor.execute("DROP TABLE ips")
    except mysql.connector.errors.ProgrammingError:
        pass
    finally:
        cursor.execute("CREATE TABLE ips (...)")
    try:
        cursor.execute("DROP TABLE domains")
    except mysql.connector.errors.ProgrammingError:
        pass
    finally:
        cursor.execute("CREATE TABLE domains (...)")
>> *)
Definition recreate_tables (self : nat) : M unit :=
  cur <- cursor self ;;
  try_finally
    (try_except (execute cur (DropTable (lit "ips"))) except_ProgrammingError)
    (execute cur (CreateTable (lit "ips")) ;;; ret tt) ;;;
  try_finally
    (try_except (execute cur (DropTable (lit "domains")))
                except_ProgrammingError)
    (execute cur (CreateTable (lit "domains")) ;;; ret tt) ;;;
  ret tt.

Definition except_mysql_Error (self : nat) (e : exn) : option (M unit) :=
  if is_mysql_Error e then Some (set_attr self (with_conn None)) else None.

(** main.py, [DbConnection.__init__]:
<<
    self.host = host
    self.port = port
    self.user = user
    if password != '':
        self.password = password
    else:
        sys.exit(2)
    if data_base != '':
        self.data_base = data_base
    else:
        sys.exit(2)
    try:
        self.conn = mysql.connector.connect(host=self.host,
            database=self.data_base, user=self.user,
            password=self.password, port=self.port)
        if self.conn.is_connected():
            self.recreate_tables()
        else:
            self.conn = None
    except mysql.connector.Error:
        self.conn = None
>> *)
Definition __init__ (self : nat) (host_ : str) (port_ : Z) (user_ : str)
    (password_ : str) (data_base_ : str) : M unit :=
  set_attr self (with_host host_) ;;;
  set_attr self (with_port port_) ;;;
  set_attr self (with_user user_) ;;;
  (if negb (str_eqb password_ []) then set_attr self (with_password password_)
   else sys_exit 2) ;;;
  (if negb (str_eqb data_base_ []) then
     set_attr self (with_data_base data_base_)
   else sys_exit 2) ;;;
  try_except
    (h <- get_attr self host ;;
     d <- get_attr self data_base ;;
     u <- get_attr self user ;;
     pw <- get_attr self password ;;
     pt <- get_attr self port ;;
     c <- connect (ConnArgs h d u pw pt) ;;
     set_attr self (with_conn (Some c)) ;;;
     if is_connected c then recreate_tables self
     else set_attr self (with_conn None))
    (except_mysql_Error self).

(** The call [DbConnection(host=.., port=.., user=.., password=..,
    data_base=..)]: Python calls [__new__] and then, the result being a
    [DbConnection], [__init__] on it, and the call evaluates to that
    object. *)
Definition construct (host_ : str) (port_ : Z) (user_ : str)
    (password_ : str) (data_base_ : str) : M nat :=
  self <- __new__ ;;
  __init__ self host_ port_ user_ password_ data_base_ ;;;
  ret self.

End DbConnection.

(** main.py, [start_db_connection]:
<<
    try:
        db_conf = json.load(open(DB_CONF_FILE))
    except FileNotFoundError:
        sys.exit(2)
    db_instance = DbConnection(host=db_conf['host'], data_base=db_conf['db'],
                               user=db_conf['user'],
                               password=db_conf['password'],
                               port=db_conf['port'])
    if not db_instance.conn:
        sys.exit(2)
    return db_instance
>> *)
Definition start_db_connection : M nat :=
  cf <- get db_conf ;;
  c <- match cf with
       | ConfMissing => sys_exit 2
       | ConfBroken e => raise e
       | ConfDict c => ret c
       end ;;
  db_instance <- DbConnection.construct (ca_host c) (ca_port c) (ca_user c)
                   (ca_password c) (ca_database c) ;;
  cn <- get_attr db_instance conn ;;
  match cn with
  | None => sys_exit 2
  | Some _ => ret db_instance
  end.

(** main.py, [open_mail]:
<<
    if not isinstance(path_to_mail, str):
        sys.exit(2)
    if path_to_mail.find('.eml') == -1:
        sys.exit(2)
    try:
        with open(path_to_mail, 'r') as file:
            file_text = file.read()
    except FileNotFoundError:
        sys.exit(2)
    return file_text
>> *)
Definition open_mail (path_to_mail : pyobj) : M str :=
  match path_to_mail with
  | Str path =>
      if (Py.find path (lit ".eml") =? -1)%Z then sys_exit 2
      else
        f <- read_file path ;;
        match f with
        | Some file_text => ret file_text
        | None => sys_exit 2
        end
  | _ => sys_exit 2
  end.

(** main.py, [tld_config]:
<<
    try:
        tld_list = open('TLD.conf').read()
    except FileNotFoundError:
        tld_list = 'com|org|net|int|edu|gov|mil|arpa'
    last_n = tld_list.rfind('\n')
    if len(tld_list) - last_n == 1:
        tld_list = tld_list[:last_n]
    tld_list = tld_list.replace('\n', '|')
    return tld_list
>> *)
Definition tld_config : M str :=
  f <- read_file (lit "TLD.conf") ;;
  let tld_list :=
    match f with
    | Some t => t
    | None => lit "com|org|net|int|edu|gov|mil|arpa"
    end in
  let last_n := Py.rfind tld_list [nl] in
  let tld_list :=
    if (Z.of_nat (length tld_list) - last_n =? 1)%Z
    then Py.slice_to tld_list last_n else tld_list in
  ret (Py.replace_char nl (lit "|") tld_list).

(** [re.findall] as a step of the script: a pattern that [re] rejects
    ends the step in [re.error]; for a pattern outside the fragment
    that is parsed the step is not modelled. *)
Definition re_findall (pattern string : str) : M (list Re.fitem) :=
  match Re.findall pattern string with
  | Some l => ret l
  | None => if Re.beyond pattern then raise Unmodelled else raise re_error
  end.

Definition IPV4 : str := lit "(?<!\w|\.)(\d{1,3}(?:\.\d{1,3}){3})(?!\.?\w)".
Definition IPV6 : str :=
  lit "(?<!\w|\.)([\dA-Fa-f]{0,4}(?::[\dA-Fa-f]{0,4}){4,8}(?!\.?\w))".
Definition DOMAIN (tld : str) : str :=
  lit "(?<!\w|\.)([\w\-]+(?:\.\w+)*(?:\.(?:" ++ tld ++ lit ")))(?!\.?\w)".

(** [template % x] with one [%s] in the template: a tuple of several
    elements does not fit it. *)
Definition percent_s (x : Re.fitem) : M str :=
  match x with
  | Re.FStr s => ret s
  | Re.FTuple _ => raise TypeError
  end.

Definition insert_all (cur : connection) (table : str) (l : list Re.fitem)
  : M unit :=
  for_each l (fun x =>
    v <- percent_s x ;;
    execute cur (InsertInto table v) ;;; ret tt).

(** main.py, [parse_mail]:
<<
    if not isinstance(email_content, str):
        sys.exit(2)
    ip_v4 = re.findall(r"(?<!\w|\.)(\d{1,3}(?:\.\d{1,3}){3})(?!\.?\w)",
                       email_content)
    ip_v6 = re.findall(r"(?<!\w|\.)([\dA-Fa-f]{0,4}(?::[\dA-Fa-f]{0,4}){4,8}(?!\.?\w))",
                       email_content)
    doms = re.findall(r"(?<!\w|\.)([\w\-]+(?:\.\w+)*(?:\.(?:" + tld_config()
                      + r")))(?!\.?\w)", email_content)
    cursor = db_conn.conn.cursor()
    for ip_4 in ip_v4:
        cursor.execute("INSERT INTO ips(ip) VALUES (\"%s\")" % ip_4)
    for ip_6 in ip_v6:
        cursor.execute("INSERT INTO ips(ip) VALUES (\"%s\")" % ip_6)
    for dom in doms:
        cursor.execute("INSERT INTO domains(domain) VALUES (\"%s\")" % dom)
    db_conn.conn.commit()
>> *)
Definition parse_mail (email_content : pyobj) (db_conn : nat) : M unit :=
  match email_content with
  | Str content =>
      ip_v4 <- re_findall IPV4 content ;;
      ip_v6 <- re_findall IPV6 content ;;
      tld <- tld_config ;;
      doms <- re_findall (DOMAIN tld) content ;;
      cur <- cursor db_conn ;;
      insert_all cur (lit "ips") ip_v4 ;;;
      insert_all cur (lit "ips") ip_v6 ;;;
      insert_all cur (lit "domains") doms ;;;
      cur' <- cursor db_conn ;;
      commit cur'
  | _ => sys_exit 2
  end.

(** [rows[0]]. *)
Definition first_row (rows : list (str * nat)) : M (str * nat) :=
  match rows with
  | r :: _ => ret r
  | [] => raise IndexError
  end.

Definition print_with_count (row : str * nat) : M unit :=
  print3 (fst row) [tab] (Py.str_of_nat (snd row)).

Definition print_value (row : str * nat) : M unit :=
  print (Text (fst row)).

Definition except_IndexError (m : M unit) (e : exn) : option (M unit) :=
  match e with IndexError => Some m | _ => None end.

Definition except_KeyError (m : M unit) (e : exn) : option (M unit) :=
  match e with KeyError => Some m | _ => None end.

(** main.py, [get_ips_and_domains]:
<<
    cursor = db_conn.conn.cursor()
    cursor.execute("SELECT ip, COUNT(ip) FROM ips GROUP BY ip ORDER BY COUNT(ip) DESC")
    rows = cursor.fetchall()
    print('\nIPs:')
    try:
        if rows[0][1] != 1:
            for row in rows:
                print(row[0], "\t", row[1])
        else:
            for row in rows:
                print(row[0])
    except IndexError:
        print("No ips in database")
    cursor.execute("SELECT domain, COUNT(domain) FROM domains GROUP BY "
                   "domain ORDER BY COUNT(domain) DESC")
    rows = cursor.fetchall()
    print('\nDomains:')
    try:
        if rows[0][1] != 1:
            for row in rows:
                print(row[0], "\t", row[1])
    except KeyError:
        print("No domains in database")
>> *)
Definition get_ips_and_domains (db_conn : nat) : M unit :=
  cur <- cursor db_conn ;;
  rows <- execute cur (SelectGrouped (lit "ips")) ;;
  print (Text (nl :: lit "IPs:")) ;;;
  try_except
    (r0 <- first_row rows ;;
     if negb (snd r0 =? 1) then for_each rows print_with_count
     else for_each rows print_value)
    (except_IndexError (print (Text (lit "No ips in database")))) ;;;
  rows <- execute cur (SelectGrouped (lit "domains")) ;;
  print (Text (nl :: lit "Domains:")) ;;;
  try_except
    (r0 <- first_row rows ;;
     if negb (snd r0 =? 1) then for_each rows print_with_count
     else ret tt)
    (except_KeyError (print (Text (lit "No domains in database")))).

Definition DOCTYPE : str := lit "<!DOCTYPE html".

(** main.py, [get_header]:
<<
    header_endpoint = email_content.find('<!DOCTYPE html')
    head = email_content[:header_endpoint]
    return head
>> *)
Definition get_header (email_content : str) : str :=
  let header_endpoint := Py.find email_content DOCTYPE in
  let head := Py.slice_to email_content header_endpoint in
  head.

(** main.py, [header_search]:
<<
    if not isinstance(email_content, str):
        sys.exit(2)
    head = get_header(email_content)
    if pattern == '' and substring != '':
        pattern = '.*' + substring + r'.*'
    elif pattern != '' and substring == '':
        pass
    else:
        sys.exit(2)
    substrs = re.findall(pattern, head)
    return substrs
>> *)
Definition header_search (email_content : pyobj) (substring pattern : str)
  : M (list Re.fitem) :=
  match email_content with
  | Str content =>
      let head := get_header content in
      pattern <-
        (if str_eqb pattern [] && negb (str_eqb substring []) then
           ret (lit ".*" ++ substring ++ lit ".*")
         else if negb (str_eqb pattern []) && str_eqb substring [] then
           ret pattern
         else sys_exit 2) ;;
      substrs <- re_findall pattern head ;;
      ret substrs
  | _ => sys_exit 2
  end.

(** The command line as [argparse] hands it over; an option that was
    not given is [None]. *)
Record args : Type := Args {
  logging_level : str;
  pattern : option str;
  substring : option str;
  mail_path : str
}.

(** Truth value of an optional string: [None] and [''] are false. *)
Definition truthy (o : option str) : bool :=
  match o with
  | Some (_ :: _) => true
  | _ => false
  end.

Definition arg_value (o : option str) : str :=
  match o with Some s => s | None => [] end.

(** main.py, the search-mode dispatch of the main block:
<<
    SEARCH_RESULTS = None
    if args.pattern:
        SEARCH_RESULTS = header_search(mail_text, pattern=args.pattern)
    elif args.substring:
        SEARCH_RESULTS = header_search(mail_text, substring=args.substring)
>> *)
Definition search_mode (a : args) (mail_text : str)
  : M (option (list Re.fitem)) :=
  if truthy (pattern a) then
    r <- header_search (Str mail_text) [] (arg_value (pattern a)) ;;
    ret (Some r)
  else if truthy (substring a) then
    r <- header_search (Str mail_text) (arg_value (substring a)) [] ;;
    ret (Some r)
  else ret None.

Definition print_item (x : Re.fitem) : M unit :=
  match x with
  | Re.FStr s => print (Text s)
  | Re.FTuple l => print (TupleRepr l)
  end.

(** main.py, the main block (the logging level has no effect on what
    the model observes):
<<
    db_connection = start_db_connection()
    mail_text = open_mail(args.mail_path)
    parse_mail(mail_text, db_connection)
    SEARCH_RESULTS = ...
    if SEARCH_RESULTS:
        print('\nSearch results:')
        for header in SEARCH_RESULTS:
            print(header)
    get_ips_and_domains(db_connection)
>> *)
Definition main (a : args) : M unit :=
  db_connection <- start_db_connection ;;
  mail_text <- open_mail (Str (mail_path a)) ;;
  parse_mail (Str mail_text) db_connection ;;;
  SEARCH_RESULTS <- search_mode a mail_text ;;
  match SEARCH_RESULTS with
  | Some (h :: t) =>
      print (Text (nl :: lit "Search results:")) ;;;
      for_each (h :: t) print_item
  | _ => ret tt
  end ;;;
  get_ips_and_domains db_connection.

(* ================================================================= *)
(** ** The IPv4 pattern, parsed *)

Definition dot : ascii := "."%char.

Definition r_digit : Re.regex := Re.Chars (Re.CSet false [Re.CDigit false]).
Definition r_dot : Re.regex := Re.Chars (Re.CSet false [Re.CChar dot]).
Definition r_word : Re.regex := Re.Chars (Re.CSet false [Re.CWord false]).

(** [\d{1,3}] *)
Definition r_octet : Re.regex := Re.Repeat r_digit 1 (Some 3) true.

(** [\d{1,3}(?:\.\d{1,3}){3}] *)
Definition r_quad : Re.regex :=
  Re.Cat r_octet (Re.Repeat (Re.Cat r_dot r_octet) 3 (Some 3) true).

(** [(?<!\w|\.)] *)
Definition r_not_behind : Re.regex := Re.Look false true (Re.Alt r_word r_dot).

(** [(?!\.?\w)] *)
Definition r_not_ahead : Re.regex :=
  Re.Look true true (Re.Cat (Re.Repeat r_dot 0 (Some 1) true) r_word).

(** What [re.compile] makes of [IPV4] (see [compile_IPV4]). *)
Definition ipv4_regex : Re.regex :=
  Re.Cat r_not_behind (Re.Cat (Re.Group 1 r_quad) r_not_ahead).

(** The matches of the IPv4 pattern in a document, each with the
    position it starts at. *)
Definition ipv4_spans (doc : str) : list (nat * Re.fitem) :=
  match Re.compile IPV4 with
  | Some (r, ng) => Re.spans r ng doc
  | None => []
  end.

(** *** Dotted quads standing free in a document *)

(** One to three decimal digits. *)
Definition octet (g : str) : Prop :=
  1 <= length g <= 3 /\ Forall (fun c => Re.is_digit c = true) g.

Definition dotted_quad (t : str) : Prop :=
  exists a b c d,
    octet a /\ octet b /\ octet c /\ octet d /\
    t = a ++ dot :: b ++ dot :: c ++ dot :: d.

(** The text [pre] does not end in a word character or a dot. *)
Definition clear_before (pre : str) : Prop :=
  forall p c, pre = p ++ [c] -> Re.is_word c = false /\ c <> dot.

(** The text [post] starts neither with a word character nor with a dot
    and a word character. *)
Definition clear_after (post : str) : Prop :=
  match post with
  | [] => True
  | c :: rest =>
      Re.is_word c = false /\
      (c = dot -> match rest with
                  | [] => True
                  | d :: _ => Re.is_word d = false
                  end)
  end.

(** At offset [i] of [doc] stands the dotted quad [t], not part of a
    longer token. *)
Definition ipv4_occurrence (doc : str) (i : nat) (t : str) : Prop :=
  exists pre post,
    doc = pre ++ t ++ post /\ length pre = i /\
    dotted_quad t /\ clear_before pre /\ clear_after post.

(** [l1] is [l2] with some elements left out. *)
Inductive subseq {A : Type} : list A -> list A -> Prop :=
| subseq_nil : forall l, subseq [] l
| subseq_take : forall x l1 l2, subseq l1 l2 -> subseq (x :: l1) (x :: l2)
| subseq_skip : forall x l1 l2, subseq l1 l2 -> subseq l1 (x :: l2).

(* ================================================================= *)
(** ** Sample inputs *)

Module Sample.

Definition account : conn_args :=
  ConnArgs (lit "127.0.0.1") (lit "mail") (lit "root") (lit "secret") 3306.

(** A second account on the same schema. *)
Definition account2 : conn_args :=
  ConnArgs (lit "localhost") (lit "mail") (lit "admin") (lit "hunter2") 3306.

Definition header : str := lit "From: a@b.com" ++ nl :: lit "To: c@d.com".

Definition mail : str :=
  header ++ lit "<!DOCTYPE html><p>1.2.3.4 and 1.2.3.4, then 5.6.7.8</p>".

(** A machine with the mail file and the configuration file, a server
    that knows both accounts, and nothing printed or constructed yet. *)
Definition world0 : world :=
  World [(lit "m.eml", mail)] (ConfDict account) [account; account2]
        [] 0 [] [] None.

Definition args_both : args :=
  Args [] (Some (lit "From.*")) (Some (lit "To")) (lit "m.eml").

Definition args_neither : args := Args [] None None (lit "m.eml").

End Sample.

(* ================================================================= *)
(** ** Vocabulary of the properties *)

(** *** Occurrences of a marker *)

(** [m] occurs in [doc] right after the prefix [pre]. *)
Definition occurs_after (m doc pre : str) : Prop :=
  exists post, doc = pre ++ m ++ post.

(** [pre] is the part of [doc] before the first occurrence of [m]. *)
Definition before_first (m doc pre : str) : Prop :=
  occurs_after m doc pre /\
  forall pre', occurs_after m doc pre' -> length pre <= length pre'.

Definition absent (m doc : str) : Prop :=
  forall pre, ~ occurs_after m doc pre.

(** *** Computations that do not call [sys.exit] *)

Definition no_exit {A} (m : M A) : Prop :=
  forall w c, fst (m w) <> Exit c.

(** *** Command lines and machines *)

(** The command line with the substring option taken away. *)
Definition without_substring (a : args) : args :=
  Args (logging_level a) (pattern a) None (mail_path a).

(** The state after a first construction with the sample account and
    one row stored in [ips]. *)
Definition after_first_construction : world :=
  let w1 := snd (DbConnection.construct (lit "127.0.0.1") 3306 (lit "root")
                   (lit "secret") (lit "mail") Sample.world0) in
  snd (execute (Connection 0 (lit "mail"))
         (InsertInto (lit "ips") (lit "1.2.3.4")) w1).

(** A session on the sample schema whose two tables hold the given
    rows. *)
Definition stored (ips_rows dom_rows : list str) : world :=
  World [] ConfMissing [Sample.account]
    [(lit "mail", lit "ips", ips_rows); (lit "mail", lit "domains", dom_rows)]
    1 []
    [Object (Some (lit "127.0.0.1")) (Some 3306%Z) (Some (lit "root"))
       (Some (lit "secret")) (Some (lit "mail"))
       (Some (Some (Connection 0 (lit "mail"))))]
    (Some 0).

(** *** Query results and printed lines *)

(** The tables after [recreate_tables] on the schema [db]. *)
Definition recreated (db : str) (ts : list (str * str * list str))
  : list (str * str * list str) :=
  (db, lit "domains", [])
    :: remove_table db (lit "domains")
         ((db, lit "ips", []) :: remove_table db (lit "ips") ts).

(** Descending by count. *)
Definition desc (a b : str * nat) : Prop := snd b <= snd a.

(** The line [value <TAB> count] as [print] writes it. *)
Definition line_with_count (row : str * nat) : printed :=
  Text (fst row ++ lit " " ++ [tab] ++ lit " " ++ Py.str_of_nat (snd row)).

Definition line_value (row : str * nat) : printed := Text (fst row).

(** What the IPs section prints after its label, for the rows the
    query returned. *)
Definition ips_lines (rows : list (str * nat)) : list printed :=
  match rows with
  | [] => [Text (lit "No ips in database")]
  | r0 :: _ =>
      if negb (snd r0 =? 1) then map line_with_count rows
      else map line_value rows
  end.

(** *** What a match consumes *)

(** [st'] is the position [st] moved forward over the text [t]. *)
Definition extends (st st' : Re.mstate) (t : str) : Prop :=
  Re.after st = t ++ Re.after st' /\ Re.before st' = rev t ++ Re.before st.

(** [st'] is [st] moved forward over [t], with the same captures. *)
Definition advances (st st' : Re.mstate) (t : str) : Prop :=
  Re.after st = t ++ Re.after st' /\
  Re.before st' = rev t ++ Re.before st /\
  Re.caps st' = Re.caps st.

(** Least number of characters a match of the pattern consumes. *)
Fixpoint min_width (r : Re.regex) : nat :=
  match r with
  | Re.Empty | Re.Look _ _ _ | Re.Bol | Re.Eol => 0
  | Re.Chars _ => 1
  | Re.Cat r1 r2 => min_width r1 + min_width r2
  | Re.Alt r1 r2 => Nat.min (min_width r1) (min_width r2)
  | Re.Repeat r1 lo _ _ => lo * min_width r1
  | Re.Group _ r1 => min_width r1
  end.

(** Every character the pattern can consume is in [P]. *)
Fixpoint chars_in (P : ascii -> Prop) (r : Re.regex) : Prop :=
  match r with
  | Re.Empty | Re.Look _ _ _ | Re.Bol | Re.Eol => True
  | Re.Chars cs => forall c, Re.cset_mem cs c = true -> P c
  | Re.Cat r1 r2 | Re.Alt r1 r2 => chars_in P r1 /\ chars_in P r2
  | Re.Repeat r1 _ _ _ | Re.Group _ r1 => chars_in P r1
  end.

(** A matcher hands its continuation only positions reached over at
    least [n] characters of [P]. *)
Definition consumes (P : ascii -> Prop)
    (m : Re.mstate -> Re.kont -> option Re.mstate) (n : nat)
  : Prop :=
  forall st k x, m st k = Some x ->
    exists st' t, extends st st' t /\ Forall P t /\ n <= length t /\
                  k st' = Some x.

(** No character of [cs] at the head of the text. *)
Definition stops (cs : Re.cset) (aft : str) : Prop :=
  match aft with
  | [] => True
  | c :: _ => Re.cset_mem cs c = false
  end.

(** The scan one character further on. *)
Definition scan_next (r : Re.regex) (ng : nat) (bef aft : str)
    (pos skip' : nat) : list (nat * Re.fitem) :=
  match aft with
  | [] => []
  | c :: aft' => Re.scan r ng (c :: bef) aft' skip' (S pos)
  end.

(** *** The IPv4 pattern *)

Definition digits : Re.cset := Re.CSet false [Re.CDigit false].

(** The text before a position, nearest character first, ends neither
    in a word character nor in a dot. *)
Definition clear_behind (bef : str) : Prop :=
  match bef with
  | [] => True
  | c :: _ => Re.is_word c = false /\ c <> dot
  end.

(** What the IPv4 pattern can consume: digits and dots. *)
Definition digit_or_dot (c : ascii) : Prop := Re.is_digit c = true \/ c = dot.

Definition two_quads : str := lit "at 10.0.0.1, 10.0.0.1. v1.2.3.4".

(** *** The texts a pattern can match *)

(** The texts the pattern can consume, its look-arounds and anchors
    left aside (they consume nothing). *)
Fixpoint lang (r : Re.regex) (t : str) : Prop :=
  match r with
  | Re.Empty | Re.Look _ _ _ | Re.Bol | Re.Eol => t = []
  | Re.Chars cs => exists c, t = [c] /\ Re.cset_mem cs c = true
  | Re.Cat r1 r2 => exists t1 t2, t = t1 ++ t2 /\ lang r1 t1 /\ lang r2 t2
  | Re.Alt r1 r2 => lang r1 t \/ lang r2 t
  | Re.Repeat r1 lo hi _ =>
      exists ts, t = concat ts /\ Forall (lang r1) ts /\ lo <= length ts /\
                 match hi with
                 | Some h => length ts <= lo + (h - lo)
                 | None => True
                 end
  | Re.Group _ r1 => lang r1 t
  end.

(** The pattern has no group numbered [n]. *)
Fixpoint no_group (n : nat) (r : Re.regex) : Prop :=
  match r with
  | Re.Empty | Re.Chars _ | Re.Bol | Re.Eol => True
  | Re.Cat r1 r2 | Re.Alt r1 r2 => no_group n r1 /\ no_group n r2
  | Re.Repeat r1 _ _ _ | Re.Look _ _ r1 => no_group n r1
  | Re.Group m r1 => n <> m /\ no_group n r1
  end.

(** A matcher hands its continuation only positions reached over a
    text of [L], with the groups of [N] as they were. *)
Definition matches_in (L : str -> Prop) (N : nat -> Prop)
    (m : Re.mstate -> Re.kont -> option Re.mstate) : Prop :=
  forall st k x, m st k = Some x ->
    exists st' t, extends st st' t /\ L t /\
                  (forall n, N n -> Re.lookup_cap n (Re.caps st')
                                    = Re.lookup_cap n (Re.caps st)) /\
                  k st' = Some x.

(** *** The IPv6 pattern *)

Definition colon : ascii := ":"%char.

Definition hexes : Re.cset :=
  Re.CSet false [Re.CDigit false; Re.CRange "A" "F"; Re.CRange "a" "f"].

(** [[\dA-Fa-f]{0,4}] *)
Definition r_hextet : Re.regex := Re.Repeat (Re.Chars hexes) 0 (Some 4) true.

Definition r_colon : Re.regex := Re.Chars (Re.CSet false [Re.CChar colon]).

(** [[\dA-Fa-f]{0,4}(?::[\dA-Fa-f]{0,4}){4,8}] *)
Definition r_colon_groups : Re.regex :=
  Re.Cat r_hextet (Re.Repeat (Re.Cat r_colon r_hextet) 4 (Some 8) true).

(** What [re.compile] makes of [IPV6] (see [compile_IPV6]); the
    look-ahead stands inside the group. *)
Definition ipv6_regex : Re.regex :=
  Re.Cat r_not_behind
    (Re.Group 1
       (Re.Cat r_hextet
          (Re.Cat (Re.Repeat (Re.Cat r_colon r_hextet) 4 (Some 8) true)
             r_not_ahead))).

Definition ipv6_spans (doc : str) : list (nat * Re.fitem) :=
  match Re.compile IPV6 with
  | Some (r, ng) => Re.spans r ng doc
  | None => []
  end.

(** A decimal digit or a letter of [A-F], [a-f]. *)
Definition is_hex (c : ascii) : bool :=
  Re.is_digit c || Re.in_range 65 70 c || Re.in_range 97 102 c.

(** At most four hexadecimal digits, possibly none. *)
Definition hextet (g : str) : Prop :=
  length g <= 4 /\ Forall (fun c => is_hex c = true) g.

(** A hextet followed by four to eight groups of a colon and a
    hextet. *)
Definition colon_groups (t : str) : Prop :=
  exists g gs,
    hextet g /\ Forall hextet gs /\ 4 <= length gs <= 8 /\
    t = g ++ concat (map (cons colon) gs).

(** At offset [i] of [doc] stands the text [t] of colon groups, not
    part of a longer token. *)
Definition ipv6_occurrence (doc : str) (i : nat) (t : str) : Prop :=
  exists pre post,
    doc = pre ++ t ++ post /\ length pre = i /\
    colon_groups t /\ clear_before pre /\ clear_after post.

(** What the IPv6 pattern can consume. *)
Definition hex_or_colon (c : ascii) : Prop := is_hex c = true \/ c = colon.

(** *** The domain pattern *)

Definition hyphen : ascii := "-"%char.

Definition word_or_hyphen : Re.cset :=
  Re.CSet false [Re.CWord false; Re.CChar hyphen].

(** The pattern of a literal text. *)
Fixpoint r_text (s : str) : Re.regex :=
  match s with
  | [] => Re.Empty
  | [c] => Re.Chars (Re.CSet false [Re.CChar c])
  | c :: s' => Re.Cat (Re.Chars (Re.CSet false [Re.CChar c])) (r_text s')
  end.

(** The alternation of literal texts. *)
Fixpoint r_any_of (l : list str) : Re.regex :=
  match l with
  | [] => Re.Empty
  | [s] => r_text s
  | s :: l' => Re.Alt (r_text s) (r_any_of l')
  end.

(** [[\w\-]+(?:\.\w+)*(?:\.(?:tld1|tld2|...))] *)
Definition r_domain (tlds : list str) : Re.regex :=
  Re.Cat (Re.Repeat (Re.Chars word_or_hyphen) 1 None true)
    (Re.Cat (Re.Repeat (Re.Cat r_dot (Re.Repeat r_word 1 None true))
               0 None true)
       (Re.Cat r_dot (r_any_of tlds))).

(** What [re.compile] makes of [DOMAIN] with an alternation of
    literal top-level domains (see [compile_DOMAIN_default]). *)
Definition domain_regex (tlds : list str) : Re.regex :=
  Re.Cat r_not_behind (Re.Cat (Re.Group 1 (r_domain tlds)) r_not_ahead).

(** The list built into [tld_config]. *)
Definition default_tlds : list str :=
  [lit "com"; lit "org"; lit "net"; lit "int"; lit "edu"; lit "gov";
   lit "mil"; lit "arpa"].

Definition default_tld_list : str := lit "com|org|net|int|edu|gov|mil|arpa".

Definition domain_spans (tld : str) (doc : str) : list (nat * Re.fitem) :=
  match Re.compile (DOMAIN tld) with
  | Some (r, ng) => Re.spans r ng doc
  | None => []
  end.

(** One or more word characters and hyphens. *)
Definition first_label (g : str) : Prop :=
  g <> [] /\ Forall (fun c => Re.is_word c = true \/ c = hyphen) g.

(** One or more word characters. *)
Definition word (g : str) : Prop :=
  g <> [] /\ Forall (fun c => Re.is_word c = true) g.

(** A first label, any number of further labels, each after a dot,
    and a dot with one of the top-level domains. *)
Definition domain_name (tlds : list str) (t : str) : Prop :=
  exists first labels tld,
    first_label first /\ Forall word labels /\ In tld tlds /\
    t = first ++ concat (map (cons dot) labels) ++ dot :: tld.

Definition domain_occurrence (tlds : list str) (doc : str) (i : nat)
    (t : str) : Prop :=
  exists pre post,
    doc = pre ++ t ++ post /\ length pre = i /\
    domain_name tlds t /\ clear_before pre /\ clear_after post.

(** *** What the run stores and prints *)

(** What the domains section prints after its label, for the rows the
    query returned (at least one). *)
Definition domains_lines (rows : list (str * nat)) : list printed :=
  match rows with
  | [] => []
  | r0 :: _ => if negb (snd r0 =? 1) then map line_with_count rows else []
  end.

(** The object a construction with accepted credentials leaves. *)
Definition connected_object (c : conn_args) (id : nat) : object :=
  Object (Some (ca_host c)) (Some (ca_port c)) (Some (ca_user c))
    (Some (ca_password c)) (Some (ca_database c))
    (Some (Some (Connection id (ca_database c)))).

(** The machine after [start_db_connection] got its connection with
    the configuration [c] in a process that had no gateway yet. *)
Definition connected (c : conn_args) (w : world) : world :=
  World (files w) (db_conf w) (accounts w)
    (recreated (ca_database c) (tables w)) (S (connects w)) (stdout w)
    (heap w ++ [connected_object c (connects w)]) (Some (length (heap w))).

(** The characters that stand for themselves between the double
    quotes of an SQL string literal. *)
Definition quote : ascii := "034"%char.
Definition backslash : ascii := "092"%char.
Definition sql_plain (c : ascii) : Prop := c <> quote /\ c <> backslash.

(** The line [print] writes for one element of a match list. *)
Definition item_line (x : Re.fitem) : printed :=
  match x with
  | Re.FStr s => Text s
  | Re.FTuple l => TupleRepr l
  end.

(** What the main block prints for the outcome of the header search. *)
Definition search_lines (res : option (list Re.fitem)) : list printed :=
  match res with
  | Some (h :: t) => Text (nl :: lit "Search results:") :: map item_line (h :: t)
  | _ => []
  end.

(** *** Literal text in a pattern *)

(** The characters that stand for themselves in a pattern. *)
Definition is_plain (c : ascii) : bool :=
  negb (existsb (Ascii.eqb c) (lit ".^$*+?{[\(|)")).

(** The text does not start with a quantifier. *)
Definition no_quant (s : str) : Prop :=
  match s with
  | [] => True
  | c :: _ => existsb (Ascii.eqb c) (lit "*+?{") = false
  end.

(** The pattern of the literal text [s] followed by [r]. *)
Definition text_then (s : str) (r : Re.regex) : Re.regex :=
  fold_right (fun c r' => Re.cat (Re.Chars (Re.CSet false [Re.CChar c])) r')
             r s.

(** [sep.join(l)]. *)
Fixpoint join (sep : ascii) (l : list str) : str :=
  match l with
  | [] => []
  | [s] => s
  | s :: l' => s ++ sep :: join sep l'
  end.

Definition bar : ascii := "|"%char.

(** A top-level domain as a line of TLD.conf: not empty, of
    characters that stand for themselves in a pattern, without a
    newline. *)
Definition tld_word (t : str) : Prop :=
  t <> [] /\ Forall (fun c => is_plain c = true /\ c <> nl) t.

(** The content of TLD.conf leads to the list [tlds]: there is no
    file and the list is the built-in one, or the file holds the
    elements of the list, one per line, with or without a newline
    after the last. *)
Definition tld_source (fs : list (str * str)) (tlds : list str) : Prop :=
  (lookup_file (lit "TLD.conf") fs = None /\ tlds = default_tlds) \/
  lookup_file (lit "TLD.conf") fs = Some (join nl tlds) \/
  lookup_file (lit "TLD.conf") fs = Some (join nl tlds ++ [nl]).

(** *** Header lines and the substring search *)

(** [s.split('\n')]. *)
Fixpoint split_lines (s : str) : list str :=
  match s with
  | [] => [[]]
  | c :: s' =>
      if Ascii.eqb c nl then [] :: split_lines s'
      else match split_lines s' with
           | l :: ls => (c :: l) :: ls
           | [] => [[c]]
           end
  end.

(** [sub in s]. *)
Definition contains (sub s : str) : bool := negb (Py.find s sub =? -1)%Z.

(** [.*] *)
Definition r_any_star : Re.regex :=
  Re.Repeat (Re.Chars Re.CAny) 0 None true.

(** What [re.compile] makes of ['.*' + s + '.*'] for a literal text
    [s] (see [compile_substring]). *)
Definition substring_regex (s : str) : Re.regex :=
  Re.Cat r_any_star (text_then s r_any_star).

(** The text ends a line: nothing is left, or a newline comes next. *)
Definition line_end (rest : str) : Prop :=
  match rest with
  | [] => True
  | c :: _ => c = nl
  end.

(** The continuation [k] tried at the positions of the line [l], the
    furthest first. *)
Fixpoint furthest_first (k : Re.kont) (bef l rest : str)
    (caps : list (nat * str)) : option Re.mstate :=
  match l with
  | [] => k (Re.MState bef rest caps)
  | c :: l' =>
      Re.orelse (furthest_first k (c :: bef) l' rest caps)
                (k (Re.MState bef (c :: l' ++ rest) caps))
  end.

(** *** Matches as pieces of the subject *)

(** The subject a position belongs to. *)
Definition doc_of (st : Re.mstate) : str := rev (Re.before st) ++ Re.after st.

(** [t] is a contiguous piece of [doc]. *)
Definition piece (t doc : str) : Prop := exists a b, doc = a ++ t ++ b.

Definition caps_within (doc : str) (cs : list (nat * str)) : Prop :=
  Forall (fun p => piece (snd p) doc) cs.

(** A matcher that starts in [doc] with captures from [doc] hands its
    continuation only positions of [doc] with captures from [doc]. *)
Definition within (doc : str)
    (m : Re.mstate -> Re.kont -> option Re.mstate) : Prop :=
  forall st k x,
    doc_of st = doc -> caps_within doc (Re.caps st) -> m st k = Some x ->
    exists st', doc_of st' = doc /\ caps_within doc (Re.caps st') /\
                k st' = Some x.

(** Every string of the element is a piece of [doc]. *)
Definition item_within (doc : str) (x : Re.fitem) : Prop :=
  match x with
  | Re.FStr t => piece t doc
  | Re.FTuple ts => Forall (fun t => piece t doc) ts
  end.

(* ================================================================= *)
(** * Properties *)

(** ** Equality of strings *)

Lemma str_eqb_eq (a b : str) : str_eqb a b = true <-> a = b.
Proof.
  revert b; induction a as [|x a IH]; intros [|y b]; simpl;
    try (split; (discriminate || reflexivity)).
  rewrite andb_true_iff, IH, Ascii.eqb_eq.
  split; [intros [-> ->]; reflexivity | intros [= -> ->]; auto].
Qed.

Lemma str_eqb_refl (a : str) : str_eqb a a = true.
Proof. now apply str_eqb_eq. Qed.

Lemma str_eqb_neq (a b : str) : str_eqb a b = false <-> a <> b.
Proof.
  rewrite <- str_eqb_eq. destruct (str_eqb a b); split; congruence.
Qed.

(** ** Header slicer *)

Lemma startswith_spec (p s : str) :
  Py.startswith p s = true <-> exists r, s = p ++ r.
Proof.
  revert s; induction p as [|x p IH]; intros s; simpl.
  - split; [intros _; now exists s | reflexivity].
  - destruct s as [|y s].
    + split; [discriminate | intros [r Hr]; discriminate].
    + rewrite andb_true_iff, Ascii.eqb_eq, IH. split.
      * intros [-> [r ->]]. now exists r.
      * intros [r [= -> ->]]. split; [reflexivity | now exists r].
Qed.

Lemma occurs_after_nil (m s : str) :
  occurs_after m s [] <-> Py.startswith m s = true.
Proof. unfold occurs_after. simpl. now rewrite startswith_spec. Qed.

Lemma occurs_after_cons (m : str) (c : ascii) (s pre : str) :
  occurs_after m (c :: s) (c :: pre) <-> occurs_after m s pre.
Proof.
  unfold occurs_after; split; intros [post H]; exists post.
  - now injection H.
  - now rewrite H.
Qed.

(** [find] decides occurrence and returns the offset of the first one. *)
Lemma find_from_spec (m s : str) (i : Z) :
  (absent m s /\ Py.find_from m s i = (-1)%Z) \/
  (exists pre, before_first m s pre /\
               Py.find_from m s i = (i + Z.of_nat (length pre))%Z).
Proof.
  revert i; induction s as [|c s IH]; intros i; simpl.
  - destruct (Py.startswith m []) eqn:E.
    + right. exists []. split; [|simpl; lia].
      split; [now apply occurs_after_nil | intros; simpl; lia].
    + left. split; [|reflexivity].
      intros pre [post H]. destruct pre; [|discriminate].
      assert (Py.startswith m [] = true) by (apply startswith_spec; eauto).
      congruence.
  - destruct (Py.startswith m (c :: s)) eqn:E.
    + right. exists []. split; [|simpl; lia].
      split; [now apply occurs_after_nil | intros; simpl; lia].
    + assert (Hnil : ~ occurs_after m (c :: s) []).
      { rewrite occurs_after_nil. congruence. }
      destruct (IH (i + 1)%Z) as [[Ha Hf] | [pre [[Ho Hmin] Hf]]].
      * left. split; [|assumption].
        intros [|x pre] H; [now apply Hnil|].
        assert (x = c) by (destruct H as [post H]; now injection H).
        subst x. apply occurs_after_cons in H. now apply (Ha pre).
      * right. exists (c :: pre). split.
        -- split; [now apply occurs_after_cons|].
           intros [|x pre'] H; [now destruct Hnil|].
           assert (x = c) by (destruct H as [post H]; now injection H).
           subst x. apply occurs_after_cons in H.
           apply Hmin in H. simpl; lia.
        -- rewrite Hf. simpl length. lia.
Qed.

Lemma before_first_unique (m s p q : str) :
  before_first m s p -> before_first m s q -> p = q.
Proof.
  intros [[x Hp] Hpm] [[y Hq] Hqm].
  assert (L : length p = length q).
  { apply Nat.le_antisymm; [apply Hpm | apply Hqm]; eexists; eauto. }
  rewrite Hp in Hq.
  apply (f_equal (firstn (length p))) in Hq.
  rewrite firstn_app, firstn_all, Nat.sub_diag in Hq. simpl in Hq.
  rewrite L, firstn_app, firstn_all, Nat.sub_diag in Hq. simpl in Hq.
  now rewrite !app_nil_r in Hq.
Qed.

Lemma slice_to_prefix (pre rest : str) :
  Py.slice_to (pre ++ rest) (Z.of_nat (length pre)) = pre.
Proof.
  unfold Py.slice_to. rewrite length_app.
  destruct (Z.ltb_spec (Z.of_nat (length pre)) 0); [lia|].
  rewrite Z.min_l by lia. rewrite Nat2Z.id.
  rewrite firstn_app, firstn_all, Nat.sub_diag. simpl. apply app_nil_r.
Qed.

Lemma slice_to_minus_one (s : str) : Py.slice_to s (-1) = removelast s.
Proof.
  unfold Py.slice_to. change (-1 <? 0)%Z with true. cbv iota.
  rewrite removelast_firstn_len. f_equal.
  destruct s; simpl length; [reflexivity | rewrite Nat.pred_succ; lia].
Qed.

Lemma removelast_neq (s : str) : s <> [] -> removelast s <> s.
Proof.
  intros Hs E. apply (f_equal (@length ascii)) in E.
  rewrite removelast_firstn_len, length_firstn in E.
  destruct s; [congruence | simpl in E; lia].
Qed.

(** C1. When the marker occurs in the document, [get_header] returns
    the prefix before its first occurrence; when it does not occur,
    [get_header] returns the document without its last character (the
    slice ending at index -1), which for a non-empty document is not
    the whole document.  One of the two cases always applies. *)
Theorem get_header_slices (doc : str) :
  (forall pre, before_first DOCTYPE doc pre -> get_header doc = pre) /\
  (absent DOCTYPE doc ->
     get_header doc = removelast doc /\ (doc <> [] -> get_header doc <> doc)) /\
  ((exists pre, before_first DOCTYPE doc pre) \/ absent DOCTYPE doc).
Proof.
  unfold get_header, Py.find.
  destruct (find_from_spec DOCTYPE doc 0) as [[Ha Hf] | [p [Hp Hf]]].
  - split; [|split].
    + intros pre [Ho _]. now destruct (Ha pre).
    + intros _. rewrite Hf, slice_to_minus_one.
      split; [reflexivity | apply removelast_neq].
    + now right.
  - split; [|split].
    + intros pre Hpre. rewrite (before_first_unique _ _ _ _ Hpre Hp), Hf.
      destruct Hp as [[post ->] _]. apply slice_to_prefix.
    + intros Ha. destruct Hp as [Ho _]. now destruct (Ha p).
    + left. now exists p.
Qed.

(** What [find] returned identifies the first occurrence. *)
Lemma before_first_of_find (m doc : str) (n : nat) :
  Py.find doc m = Z.of_nat n -> before_first m doc (firstn n doc).
Proof.
  unfold Py.find. intros Hf.
  destruct (find_from_spec m doc 0) as [[_ Hf'] | [p [Hp Hf']]].
  - lia.
  - assert (n = length p) by lia. subst n.
    destruct Hp as [[post ->] Hmin].
    rewrite firstn_app, firstn_all, Nat.sub_diag. simpl. rewrite app_nil_r.
    split; [now exists post | assumption].
Qed.

Lemma absent_of_find (m doc : str) :
  Py.find doc m = (-1)%Z -> absent m doc.
Proof.
  unfold Py.find. intros Hf.
  destruct (find_from_spec m doc 0) as [[Ha _] | [p [_ Hf']]];
    [assumption | lia].
Qed.

(** C1 at two documents: one with the marker, one without. *)
Lemma get_header_slices_witness :
  get_header (lit "Subject: hi<!DOCTYPE html><p>") = lit "Subject: hi" /\
  get_header (lit "Subject: hi") = lit "Subject: h".
Proof.
  split.
  - apply (proj1 (get_header_slices (lit "Subject: hi<!DOCTYPE html><p>"))).
    apply (before_first_of_find DOCTYPE
             (lit "Subject: hi<!DOCTYPE html><p>") 11).
    vm_compute. reflexivity.
  - apply (proj1 (proj2 (get_header_slices (lit "Subject: hi")))).
    apply absent_of_find. vm_compute. reflexivity.
Defined.

(* ----------------------------------------------------------------- *)
(** ** Computations that do not call [sys.exit] *)

Create HintDb no_exit.

Lemma no_exit_ret {A} (a : A) : no_exit (ret a).
Proof. intros w c; discriminate. Qed.

Lemma no_exit_raise {A} (e : exn) : no_exit (@raise A e).
Proof. intros w c; discriminate. Qed.

Lemma no_exit_get {A} (f : world -> A) : no_exit (get f).
Proof. intros w c; discriminate. Qed.

Lemma no_exit_modify (f : world -> world) : no_exit (modify f).
Proof. intros w c; discriminate. Qed.

Lemma no_exit_bind {A B} (m : M A) (f : A -> M B) :
  no_exit m -> (forall a, no_exit (f a)) -> no_exit (bind m f).
Proof.
  intros Hm Hf w c. unfold bind. specialize (Hm w).
  destruct (m w) as [[a | c' | e] w']; simpl in *.
  - apply Hf.
  - now destruct (Hm c').
  - discriminate.
Qed.

Lemma no_exit_try_except {A} (m : M A) (h : exn -> option (M A)) :
  no_exit m -> (forall e m', h e = Some m' -> no_exit m') ->
  no_exit (try_except m h).
Proof.
  intros Hm Hh w c. unfold try_except. specialize (Hm w).
  destruct (m w) as [[a | c' | e] w']; simpl in *.
  - discriminate.
  - now destruct (Hm c').
  - destruct (h e) as [m'|] eqn:E; [now apply (Hh e) | discriminate].
Qed.

Lemma no_exit_for_each {A} (l : list A) (body : A -> M unit) :
  (forall x, no_exit (body x)) -> no_exit (for_each l body).
Proof.
  intros Hb. induction l as [|x l IH]; simpl.
  - apply no_exit_ret.
  - apply no_exit_bind; [apply Hb | intros _; apply IH].
Qed.

Lemma no_exit_print (x : printed) : no_exit (print x).
Proof. apply no_exit_modify. Qed.

Lemma no_exit_get_attr {A} (self : nat) (f : object -> option A) :
  no_exit (get_attr self f).
Proof.
  intros w c. unfold get_attr.
  destruct (nth_error (heap w) self) as [o|]; [|discriminate].
  destruct (f o); discriminate.
Qed.

Lemma no_exit_execute (c : connection) (q : statement) :
  no_exit (execute c q).
Proof.
  intros w x. unfold execute.
  destruct q as [t | t | t v | t];
    try (destruct (lookup_table _ _ _); discriminate).
  destruct (storable v); [destruct (lookup_table _ _ _)|]; discriminate.
Qed.

Lemma no_exit_re_findall (p s : str) : no_exit (re_findall p s).
Proof.
  intros w c. unfold re_findall.
  destruct (Re.findall p s); [|destruct (Re.beyond p)]; discriminate.
Qed.

Lemma no_exit_cursor (self : nat) : no_exit (cursor self).
Proof.
  apply no_exit_bind; [apply no_exit_get_attr|].
  intros [c|]; [apply no_exit_ret | apply no_exit_raise].
Qed.

#[export] Hint Resolve no_exit_ret no_exit_raise no_exit_get no_exit_modify
  no_exit_print no_exit_get_attr no_exit_execute no_exit_re_findall
  no_exit_cursor : no_exit.

Ltac no_exit_step :=
  first [ solve [auto with no_exit]
        | apply no_exit_bind; [|intros ?]
        | apply no_exit_for_each; intros ? ].

(* ----------------------------------------------------------------- *)
(** ** Header search: the two modes *)

Lemma bind_ret_r {A} (m : M A) (w : world) : bind m (fun a => ret a) w = m w.
Proof. unfold bind, ret. destruct (m w) as [[a | c | e] w']; reflexivity. Qed.

Lemma header_search_substring (content s : str) (w : world) :
  s <> [] ->
  header_search (Str content) s [] w
  = re_findall (lit ".*" ++ s ++ lit ".*") (get_header content) w.
Proof.
  intros Hs. destruct s as [|a s]; [congruence|].
  unfold header_search. simpl str_eqb. cbv beta iota. simpl andb. cbv iota.
  apply (bind_ret_r (re_findall _ _)).
Qed.

Lemma header_search_pattern (content p : str) (w : world) :
  p <> [] ->
  header_search (Str content) [] p w = re_findall p (get_header content) w.
Proof.
  intros Hp. destruct p as [|a p]; [congruence|].
  unfold header_search. simpl str_eqb. cbv beta iota. simpl andb. cbv iota.
  apply (bind_ret_r (re_findall _ _)).
Qed.

Lemma header_search_both (content s p : str) (w : world) :
  s <> [] -> p <> [] -> header_search (Str content) s p w = (Exit 2, w).
Proof.
  intros Hs Hp. destruct s; [congruence|]. destruct p; [congruence|].
  reflexivity.
Qed.

Lemma header_search_neither (content : str) (w : world) :
  header_search (Str content) [] [] w = (Exit 2, w).
Proof. reflexivity. Qed.

(** C5. A call of [header_search] with both a pattern and a substring,
    or with neither, ends in [sys.exit(2)]; with exactly one of them it
    goes on to [re.findall] over the header region (with the wrapped
    substring, or with the pattern as given) and does not exit. *)
Theorem header_search_one_mode (content substring_ pattern_ : str) (w : world) :
  (substring_ <> [] /\ pattern_ <> [] ->
     header_search (Str content) substring_ pattern_ w = (Exit 2, w)) /\
  (substring_ = [] /\ pattern_ = [] ->
     header_search (Str content) substring_ pattern_ w = (Exit 2, w)) /\
  (substring_ <> [] /\ pattern_ = [] ->
     header_search (Str content) substring_ pattern_ w
     = re_findall (lit ".*" ++ substring_ ++ lit ".*") (get_header content) w
     /\ forall c, fst (header_search (Str content) substring_ pattern_ w)
                  <> Exit c) /\
  (substring_ = [] /\ pattern_ <> [] ->
     header_search (Str content) substring_ pattern_ w
     = re_findall pattern_ (get_header content) w
     /\ forall c, fst (header_search (Str content) substring_ pattern_ w)
                  <> Exit c).
Proof.
  split; [|split; [|split]].
  - intros [Hs Hp]. now apply header_search_both.
  - intros [-> ->]. apply header_search_neither.
  - intros [Hs ->]. rewrite header_search_substring by assumption.
    split; [reflexivity | intros c; apply no_exit_re_findall].
  - intros [-> Hp]. rewrite header_search_pattern by assumption.
    split; [reflexivity | intros c; apply no_exit_re_findall].
Qed.

(** C5 at concrete arguments, one per case. *)
Lemma header_search_one_mode_witness :
  header_search (Str Sample.mail) (lit "To") (lit "T.") Sample.world0
  = (Exit 2, Sample.world0) /\
  header_search (Str Sample.mail) [] [] Sample.world0
  = (Exit 2, Sample.world0) /\
  header_search (Str Sample.mail) (lit "To") [] Sample.world0
  = (Ret [Re.FStr (lit "To: c@d.com")], Sample.world0) /\
  header_search (Str Sample.mail) [] (lit "T.") Sample.world0
  = (Ret [Re.FStr (lit "To")], Sample.world0).
Proof.
  pose proof (header_search_one_mode Sample.mail (lit "To") (lit "T.")
                Sample.world0) as (H1 & _).
  pose proof (header_search_one_mode Sample.mail [] [] Sample.world0)
    as (_ & H2 & _).
  pose proof (header_search_one_mode Sample.mail (lit "To") [] Sample.world0)
    as (_ & _ & H3 & _).
  pose proof (header_search_one_mode Sample.mail [] (lit "T.") Sample.world0)
    as (_ & _ & _ & H4).
  split; [|split; [|split]].
  - apply H1. split; discriminate.
  - apply H2. split; reflexivity.
  - destruct H3 as [E _]; [split; [discriminate | reflexivity]|].
    rewrite E. vm_compute. reflexivity.
  - destruct H4 as [E _]; [split; [reflexivity | discriminate]|].
    rewrite E. vm_compute. reflexivity.
Defined.

(** C4. In substring mode the pattern handed to [re.findall] is the
    substring between two [.*], as it is, and it is applied to the
    header region.  On the header [From: a@b.com / To: c@d.com] the
    substring [From] gives exactly the first line; and so does the
    substring [a.b], which does not occur in the header: its dot is a
    wildcard. *)
Theorem header_search_substring_mode :
  (forall content s w, s <> [] ->
     header_search (Str content) s [] w
     = re_findall (lit ".*" ++ s ++ lit ".*") (get_header content) w) /\
  (forall content w, get_header content = Sample.header ->
     header_search (Str content) (lit "From") [] w
     = (Ret [Re.FStr (lit "From: a@b.com")], w)) /\
  (forall content w, get_header content = Sample.header ->
     header_search (Str content) (lit "a.b") [] w
     = (Ret [Re.FStr (lit "From: a@b.com")], w)).
Proof.
  split; [|split].
  - intros content s w Hs. now apply header_search_substring.
  - intros content w H. rewrite header_search_substring by discriminate.
    rewrite H. vm_compute. reflexivity.
  - intros content w H. rewrite header_search_substring by discriminate.
    rewrite H. vm_compute. reflexivity.
Qed.

(** C4 on the sample mail, whose header region is the sample header. *)
Lemma header_search_substring_mode_witness :
  header_search (Str Sample.mail) (lit "From") [] Sample.world0
  = (Ret [Re.FStr (lit "From: a@b.com")], Sample.world0).
Proof.
  apply (proj1 (proj2 header_search_substring_mode)).
  vm_compute. reflexivity.
Defined.

(* ----------------------------------------------------------------- *)
(** ** Search-mode dispatch of the main block *)

Lemma no_exit_tld_config : no_exit tld_config.
Proof. unfold tld_config, read_file. repeat no_exit_step. Qed.

Lemma no_exit_insert_all (cur : connection) (t : str) (l : list Re.fitem) :
  no_exit (insert_all cur t l).
Proof.
  unfold insert_all, percent_s. repeat no_exit_step.
  destruct x; auto with no_exit.
Qed.

Lemma no_exit_parse_mail (content : str) (db_conn : nat) :
  no_exit (parse_mail (Str content) db_conn).
Proof.
  unfold parse_mail, commit.
  repeat first [ apply no_exit_tld_config | apply no_exit_insert_all
               | apply no_exit_cursor | no_exit_step ].
Qed.

Lemma no_exit_first_row (rows : list (str * nat)) : no_exit (first_row rows).
Proof. destruct rows; [apply no_exit_raise | apply no_exit_ret]. Qed.

Lemma no_exit_rows (rows : list (str * nat)) (otherwise : M unit) (r0 : str * nat) :
  no_exit otherwise ->
  no_exit (if negb (snd r0 =? 1) then for_each rows print_with_count
           else otherwise).
Proof.
  intros H. destruct (negb (snd r0 =? 1)); [|assumption].
  apply no_exit_for_each. intros x. apply no_exit_print.
Qed.

Lemma no_exit_get_ips_and_domains (db_conn : nat) :
  no_exit (get_ips_and_domains db_conn).
Proof.
  unfold get_ips_and_domains.
  apply no_exit_bind; [apply no_exit_cursor | intros cur].
  apply no_exit_bind; [apply no_exit_execute | intros rows].
  apply no_exit_bind; [apply no_exit_print | intros _].
  apply no_exit_bind; [| intros _].
  { apply no_exit_try_except.
    - apply no_exit_bind; [apply no_exit_first_row | intros r0].
      apply no_exit_rows, no_exit_for_each. intros x; apply no_exit_print.
    - intros [] m' [= <-]. apply no_exit_print. }
  apply no_exit_bind; [apply no_exit_execute | intros rows'].
  apply no_exit_bind; [apply no_exit_print | intros _].
  apply no_exit_try_except.
  - apply no_exit_bind; [apply no_exit_first_row | intros r0].
    apply no_exit_rows, no_exit_ret.
  - intros [] m' [= <-]. apply no_exit_print.
Qed.

Lemma no_exit_header_search_pattern (t p : str) :
  p <> [] -> no_exit (header_search (Str t) [] p).
Proof.
  intros Hp w c. rewrite header_search_pattern by assumption.
  apply no_exit_re_findall.
Qed.

Lemma no_exit_header_search_substring (t s : str) :
  s <> [] -> no_exit (header_search (Str t) s []).
Proof.
  intros Hs w c. rewrite header_search_substring by assumption.
  apply no_exit_re_findall.
Qed.

Lemma no_exit_search_mode (a : args) (mail_text : str) :
  no_exit (search_mode a mail_text).
Proof.
  unfold search_mode.
  destruct (pattern a) as [[|x p]|]; simpl truthy; cbv iota.
  2: { apply no_exit_bind; [|intros r; apply no_exit_ret].
       now apply no_exit_header_search_pattern. }
  all: destruct (substring a) as [[|y s]|]; simpl truthy; cbv iota;
    try apply no_exit_ret.
  all: apply no_exit_bind; [|intros r; apply no_exit_ret];
    now apply no_exit_header_search_substring.
Qed.

Lemma bind_ext {A B} (m : M A) (f g : A -> M B) (w : world) :
  (forall a w', f a w' = g a w') -> bind m f w = bind m g w.
Proof.
  intros H. unfold bind. destruct (m w) as [[a | c | e] w']; auto.
Qed.

Lemma exit_status_no_exit {A} (m : M A) (w : world) :
  no_exit m -> exit_status (m w) <> 2%Z.
Proof.
  intros N. unfold exit_status. specialize (N w).
  destruct (fst (m w)) as [a | c | e]; try discriminate.
  now destruct (N c).
Qed.

(** C3, the claim at two invocations: with both search options, and
    with neither, the sample run ends with exit status 0, not 2. *)
Lemma both_or_neither_exit_status_0 :
  exit_status (main Sample.args_both Sample.world0) = 0%Z /\
  exit_status (main Sample.args_neither Sample.world0) = 0%Z /\
  exit_status (main Sample.args_both Sample.world0) <> 2%Z /\
  exit_status (main Sample.args_neither Sample.world0) <> 2%Z.
Proof. vm_compute. repeat split; discriminate. Qed.

(** C3, as the code has it.  When the pattern option is given (and not
    empty) the dispatch runs the pattern search, [re.findall] with the
    pattern over the header region, whatever the substring option is,
    and the whole run is the run without the substring option; when
    only the substring option is given (and not empty) it runs the
    substring search, [re.findall] with the wrapped substring over the
    header region; when neither option is given (or both are empty) it
    runs no search at all; it never ends in [sys.exit], so that a run
    that got its database connection and its mail text does not end
    with exit status 2. *)
Theorem search_mode_dispatch (a : args) (mail_text : str) :
  (truthy (pattern a) = true ->
     forall w, search_mode a mail_text w
               = (r <- re_findall (arg_value (pattern a))
                         (get_header mail_text) ;;
                  ret (Some r)) w) /\
  (truthy (pattern a) = false -> truthy (substring a) = true ->
     forall w, search_mode a mail_text w
               = (r <- re_findall
                         (lit ".*" ++ arg_value (substring a) ++ lit ".*")
                         (get_header mail_text) ;;
                  ret (Some r)) w) /\
  (truthy (pattern a) = true ->
     forall w, search_mode a mail_text w
               = search_mode (without_substring a) mail_text w) /\
  (truthy (pattern a) = true ->
     forall w, main a w = main (without_substring a) w) /\
  (truthy (pattern a) = false -> truthy (substring a) = false ->
     forall w, search_mode a mail_text w = (Ret None, w)) /\
  no_exit (search_mode a mail_text) /\
  (forall w db w1 w2,
     start_db_connection w = (Ret db, w1) ->
     open_mail (Str (mail_path a)) w1 = (Ret mail_text, w2) ->
     exit_status (main a w) <> 2%Z).
Proof.
  assert (Hsame : truthy (pattern a) = true ->
            forall t w, search_mode a t w
                        = search_mode (without_substring a) t w).
  { intros H t w. unfold search_mode, without_substring. cbn [pattern].
    now rewrite H. }
  split; [|split; [|split; [|split; [|split; [|split]]]]].
  - intros H w. unfold search_mode. rewrite H.
    destruct (pattern a) as [[|x p]|]; try discriminate.
    cbn [arg_value]. unfold bind.
    now rewrite header_search_pattern by discriminate.
  - intros Hp H w. unfold search_mode. rewrite Hp, H.
    destruct (substring a) as [[|x s]|]; try discriminate.
    cbn [arg_value]. unfold bind.
    now rewrite header_search_substring by discriminate.
  - intros H w. now apply Hsame.
  - intros H w. unfold main. cbn [without_substring mail_path].
    apply bind_ext. intros db w1. apply bind_ext. intros t w2.
    apply bind_ext. intros _ w3. unfold bind at 1 3.
    now rewrite (Hsame H t w3).
  - intros Hp Hs w. unfold search_mode. now rewrite Hp, Hs.
  - apply no_exit_search_mode.
  - intros w db w1 w2 Hdb Hmail.
    unfold main. unfold bind at 1. rewrite Hdb.
    unfold bind at 1. rewrite Hmail.
    apply exit_status_no_exit.
    apply no_exit_bind; [apply no_exit_parse_mail | intros _].
    apply no_exit_bind; [apply no_exit_search_mode | intros r].
    apply no_exit_bind; [| intros _; apply no_exit_get_ips_and_domains].
    destruct r as [[|h t]|]; auto with no_exit.
    apply no_exit_bind; [auto with no_exit | intros _].
    apply no_exit_for_each. intros [s | l]; apply no_exit_print.
Qed.

(** C3 on the sample run with both options: the pattern [From.*] is
    searched for, the substring [To] is not. *)
Lemma search_mode_dispatch_witness :
  search_mode Sample.args_both Sample.mail Sample.world0
  = (Ret (Some [Re.FStr (lit "From: a@b.com")]), Sample.world0) /\
  exit_status (main Sample.args_both Sample.world0) <> 2%Z.
Proof.
  pose proof (search_mode_dispatch Sample.args_both Sample.mail)
    as (H1 & _ & _ & _ & _ & _ & H4).
  split.
  - rewrite H1 by reflexivity. vm_compute. reflexivity.
  - eapply H4; vm_compute; reflexivity.
Defined.

(* ----------------------------------------------------------------- *)
(** ** Construction of the gateway *)

(** C7. Constructing a [DbConnection] with an empty password or an
    empty schema name ends in [sys.exit(2)], and no connection attempt
    has been made by then: the count of attempts and the tables of the
    server are what they were. *)
Theorem construct_empty_credentials
    (host_ : str) (port_ : Z) (user_ password_ data_base_ : str) (w : world) :
  password_ = [] \/ data_base_ = [] ->
  exists w',
    DbConnection.construct host_ port_ user_ password_ data_base_ w
    = (Exit 2, w') /\
    connects w' = connects w /\ tables w' = tables w.
Proof.
  intros H. unfold DbConnection.construct, DbConnection.__new__.
  unfold bind at 1.
  destruct (_instance w) as [self|];
    (destruct password_ as [|a pw];
     [ eexists; split; [reflexivity | split; reflexivity]
     | destruct data_base_ as [|b db];
       [ eexists; split; [reflexivity | split; reflexivity]
       | destruct H; discriminate ] ]).
Qed.

(** C7 on the sample machine, with an empty password and then with an
    empty schema name. *)
Lemma construct_empty_credentials_witness :
  (exists w',
     DbConnection.construct (lit "127.0.0.1") 3306 (lit "root") [] (lit "mail")
       Sample.world0 = (Exit 2, w') /\
     connects w' = 0 /\ tables w' = []) /\
  (exists w',
     DbConnection.construct (lit "127.0.0.1") 3306 (lit "root") (lit "secret") []
       Sample.world0 = (Exit 2, w') /\
     connects w' = 0 /\ tables w' = []).
Proof.
  split.
  - apply (construct_empty_credentials (lit "127.0.0.1") 3306 (lit "root") []
             (lit "mail") Sample.world0).
    left; reflexivity.
  - apply (construct_empty_credentials (lit "127.0.0.1") 3306 (lit "root")
             (lit "secret") [] Sample.world0).
    right; reflexivity.
Defined.

(** A construction when the class already holds an instance: the same
    object comes back, after [__init__] has run on it once more. *)
Lemma construct_again (self : nat) (host_ : str) (port_ : Z)
    (user_ password_ data_base_ : str) (w : world) :
  _instance w = Some self ->
  DbConnection.construct host_ port_ user_ password_ data_base_ w
  = bind (DbConnection.__init__ self host_ port_ user_ password_ data_base_)
         (fun _ => ret self) w.
Proof.
  intros H. unfold DbConnection.construct, DbConnection.__new__.
  unfold bind at 1. now rewrite H.
Qed.

(** C2, the code on two constructions in one process.  The first one
    (sample account) connects and resets the tables; a row is stored.
    The second one, with another configuration, returns the same
    object, but it has connected a second time, dropped and recreated
    the tables (the row is gone) and overwritten host, user and password
    with those of the second configuration. *)
Theorem second_construction_reinitializes :
  let w1 := after_first_construction in
  let r := DbConnection.construct (lit "localhost") 3306 (lit "admin")
             (lit "hunter2") (lit "mail") w1 in
  _instance w1 = Some 0 /\
  connects w1 = 1 /\
  lookup_table (lit "mail") (lit "ips") (tables w1) = Some [lit "1.2.3.4"] /\
  option_map host (nth_error (heap w1) 0) = Some (Some (lit "127.0.0.1")) /\
  fst r = Ret 0 /\
  connects (snd r) = 2 /\
  lookup_table (lit "mail") (lit "ips") (tables (snd r)) = Some [] /\
  option_map host (nth_error (heap (snd r)) 0) = Some (Some (lit "localhost")) /\
  option_map user (nth_error (heap (snd r)) 0) = Some (Some (lit "admin")) /\
  option_map password (nth_error (heap (snd r)) 0)
  = Some (Some (lit "hunter2")) /\
  option_map conn (nth_error (heap (snd r)) 0)
  = Some (Some (Some (Connection 1 (lit "mail")))).
Proof. vm_compute. repeat split; reflexivity. Qed.

(* ----------------------------------------------------------------- *)
(** ** The grouped-count query *)

Lemma count_of_count_occ (v : str) (l : list str) :
  count_of v l = count_occ str_eq_dec l v.
Proof.
  induction l as [|x l IH]; simpl; [reflexivity|].
  destruct (str_eq_dec x v) as [->|N].
  - rewrite str_eqb_refl, IH. reflexivity.
  - apply str_eqb_neq in N. rewrite N, IH. reflexivity.
Qed.

Lemma existsb_str_eqb (x : str) (l : list str) :
  existsb (str_eqb x) l = true <-> In x l.
Proof.
  rewrite existsb_exists. split.
  - intros [y [Hy E]]. apply str_eqb_eq in E. now subst.
  - intros H. exists x. split; [assumption | apply str_eqb_refl].
Qed.

Lemma distinct_In (seen l : list str) (v : str) :
  In v (distinct seen l) <-> In v l /\ ~ In v seen.
Proof.
  revert seen; induction l as [|x l IH]; intros seen; simpl.
  - tauto.
  - destruct (existsb (str_eqb x) seen) eqn:E.
    + apply existsb_str_eqb in E. rewrite IH. split.
      * intros [H1 H2]. auto.
      * intros [[->|H1] H2]; [contradiction | auto].
    + assert (N : ~ In x seen).
      { intros H. apply existsb_str_eqb in H. congruence. }
      simpl. rewrite IH. simpl. split.
      * intros [->|[H1 H2]]; [auto|]. split; [auto|]. intros H; apply H2; auto.
      * intros [[->|H1] H2]; [auto|].
        destruct (str_eq_dec x v) as [->|D]; [auto|].
        right. split; [assumption|]. intros [H|H]; [auto | contradiction].
Qed.

Lemma distinct_NoDup (seen l : list str) : NoDup (distinct seen l).
Proof.
  revert seen; induction l as [|x l IH]; intros seen; simpl.
  - constructor.
  - destruct (existsb (str_eqb x) seen); [apply IH|].
    constructor; [|apply IH].
    rewrite distinct_In. simpl. tauto.
Qed.

Lemma insert_desc_perm (g : str * nat) (l : list (str * nat)) :
  Permutation (insert_desc g l) (g :: l).
Proof.
  induction l as [|h l IH]; simpl; [reflexivity|].
  destruct (snd h <=? snd g); [reflexivity|].
  rewrite IH. apply perm_swap.
Qed.

Lemma order_by_count_desc_perm (l : list (str * nat)) :
  Permutation (order_by_count_desc l) l.
Proof.
  induction l as [|g l IH]; simpl; [reflexivity|].
  rewrite insert_desc_perm. now constructor.
Qed.

Lemma insert_desc_sorted (g : str * nat) (l : list (str * nat)) :
  StronglySorted desc l -> StronglySorted desc (insert_desc g l).
Proof.
  induction 1 as [|h l Hs IH Hall]; simpl.
  - repeat constructor.
  - destruct (Nat.leb_spec (snd h) (snd g)) as [Le|Gt].
    + constructor; [constructor; assumption|].
      constructor; [exact Le|].
      eapply Forall_impl; [|exact Hall]. unfold desc. intros a Ha. lia.
    + constructor; [assumption|].
      eapply Permutation_Forall; [symmetry; apply insert_desc_perm|].
      constructor; [unfold desc; lia | exact Hall].
Qed.

Lemma order_by_count_desc_sorted (l : list (str * nat)) :
  StronglySorted desc (order_by_count_desc l).
Proof.
  induction l as [|g l IH]; simpl; [constructor|].
  now apply insert_desc_sorted.
Qed.

Lemma select_grouped_In (rows : list str) (v : str) (c : nat) :
  In (v, c) (select_grouped rows) <->
  In v rows /\ c = count_occ str_eq_dec rows v.
Proof.
  unfold select_grouped.
  assert (P : Permutation (order_by_count_desc (group_by_value rows))
                          (group_by_value rows))
    by apply order_by_count_desc_perm.
  split.
  - intros H. apply (Permutation_in _ P) in H.
    unfold group_by_value in H. apply in_map_iff in H.
    destruct H as [x [[= -> <-] Hx]]. apply distinct_In in Hx.
    split; [tauto | apply count_of_count_occ].
  - intros [Hv ->]. apply (Permutation_in _ (Permutation_sym P)).
    unfold group_by_value. apply in_map_iff. exists v.
    split; [now rewrite count_of_count_occ|].
    apply distinct_In. simpl. tauto.
Qed.

Lemma select_grouped_NoDup (rows : list str) :
  NoDup (map fst (select_grouped rows)).
Proof.
  unfold select_grouped.
  eapply Permutation_NoDup.
  - apply Permutation_map, Permutation_sym, order_by_count_desc_perm.
  - unfold group_by_value. rewrite map_map. simpl. rewrite map_id.
    apply distinct_NoDup.
Qed.

Lemma select_grouped_nil (rows : list str) :
  select_grouped rows = [] <-> rows = [].
Proof.
  split.
  - intros E. destruct rows as [|x rows]; [reflexivity|].
    assert (H : In (x, count_occ str_eq_dec (x :: rows) x)
                   (select_grouped (x :: rows))).
    { apply select_grouped_In. split; [now left | reflexivity]. }
    rewrite E in H. destruct H.
  - intros ->. reflexivity.
Qed.

(** C8. The query of [get_ips_and_domains] over a table returns one
    pair per distinct stored value, each with the number of rows that
    hold the value, the pairs in order of descending count; over the
    rows 1.1.1.1, 1.1.1.1, 2.2.2.2 it returns (1.1.1.1, 2), (2.2.2.2, 1). *)
Theorem grouped_query_counts (c : connection) (t : str) (rows : list str)
    (w : world) :
  lookup_table (conn_database c) t (tables w) = Some rows ->
  exists res,
    execute c (SelectGrouped t) w = (Ret res, w) /\
    NoDup (map fst res) /\
    (forall v, In v (map fst res) <-> In v rows) /\
    (forall v n, In (v, n) res -> n = count_occ str_eq_dec rows v) /\
    StronglySorted desc res /\
    (rows = [lit "1.1.1.1"; lit "1.1.1.1"; lit "2.2.2.2"] ->
     res = [(lit "1.1.1.1", 2); (lit "2.2.2.2", 1)]).
Proof.
  intros H. exists (select_grouped rows).
  split; [unfold execute; now rewrite H|].
  split; [apply select_grouped_NoDup|].
  split; [|split; [|split]].
  - intros v. rewrite in_map_iff. split.
    + intros [[v' n] [E Hin]]. simpl in E. subst v'.
      now apply select_grouped_In in Hin.
    + intros Hv. exists (v, count_occ str_eq_dec rows v).
      split; [reflexivity|]. now apply select_grouped_In.
  - intros v n Hin. now apply select_grouped_In in Hin.
  - apply order_by_count_desc_sorted.
  - intros ->. vm_compute. reflexivity.
Qed.

(** C8 on a server whose table [ips] holds the three rows. *)
Lemma grouped_query_counts_witness :
  exists res,
    execute (Connection 0 (lit "mail")) (SelectGrouped (lit "ips"))
      (World [] ConfMissing []
         [(lit "mail", lit "ips",
           [lit "1.1.1.1"; lit "1.1.1.1"; lit "2.2.2.2"])] 1 [] [] None)
    = (Ret res,
       World [] ConfMissing []
         [(lit "mail", lit "ips",
           [lit "1.1.1.1"; lit "1.1.1.1"; lit "2.2.2.2"])] 1 [] [] None) /\
    res = [(lit "1.1.1.1", 2); (lit "2.2.2.2", 1)].
Proof.
  destruct (grouped_query_counts (Connection 0 (lit "mail")) (lit "ips")
              [lit "1.1.1.1"; lit "1.1.1.1"; lit "2.2.2.2"]
              (World [] ConfMissing []
                 [(lit "mail", lit "ips",
                   [lit "1.1.1.1"; lit "1.1.1.1"; lit "2.2.2.2"])]
                 1 [] [] None))
    as (res & E & _ & _ & _ & _ & Hres).
  - vm_compute. reflexivity.
  - exists res. split; [exact E | apply Hres; reflexivity].
Defined.

(* ----------------------------------------------------------------- *)
(** ** Printing the stored indicators *)

Lemma set_stdout_same (w : world) : set_stdout (stdout w) w = w.
Proof. now destruct w. Qed.

Lemma print_after (x : printed) (o : list printed) (w : world) :
  print x (set_stdout o w) = (Ret tt, set_stdout (o ++ [x]) w).
Proof. reflexivity. Qed.

Lemma for_each_print (f : str * nat -> printed) (body : str * nat -> M unit)
    (rows : list (str * nat)) (w : world) :
  (forall r, body r = print (f r)) ->
  for_each rows body w = (Ret tt, set_stdout (stdout w ++ map f rows) w).
Proof.
  intros Hb. revert w; induction rows as [|r rows IH]; intros w; simpl.
  - rewrite app_nil_r, set_stdout_same. reflexivity.
  - unfold bind. rewrite Hb. unfold print at 1, modify.
    rewrite IH. simpl. rewrite <- app_assoc. reflexivity.
Qed.

Lemma cursor_ok (db_conn : nat) (w : world) (o : object) (c : connection) :
  nth_error (heap w) db_conn = Some o -> conn o = Some (Some c) ->
  cursor db_conn w = (Ret c, w).
Proof.
  intros Ho Hc. unfold cursor, bind, get_attr. now rewrite Ho, Hc.
Qed.

(** The IPs section, label included. *)
Lemma ips_section_prints (rows : list (str * nat)) (w : world) :
  bind (print (Text (nl :: lit "IPs:")))
    (fun _ =>
       try_except
         (bind (first_row rows) (fun r0 =>
            if negb (snd r0 =? 1) then for_each rows print_with_count
            else for_each rows print_value))
         (except_IndexError (print (Text (lit "No ips in database"))))) w
  = (Ret tt,
     set_stdout (stdout w ++ Text (nl :: lit "IPs:") :: ips_lines rows) w).
Proof.
  unfold bind at 1. unfold print at 1, modify. unfold try_except.
  destruct rows as [|r0 rows].
  - cbn -[lit]. rewrite print_after, <- app_assoc. reflexivity.
  - unfold bind, first_row, ret, ips_lines.
    destruct (negb (snd r0 =? 1)).
    + rewrite (for_each_print line_with_count) by reflexivity.
      cbn -[lit map]. rewrite <- app_assoc. reflexivity.
    + rewrite (for_each_print line_value) by reflexivity.
      cbn -[lit map]. rewrite <- app_assoc. reflexivity.
Qed.

(** [get_ips_and_domains] up to the label of the domains section. *)
Lemma get_ips_and_domains_steps (db_conn : nat) (w : world) (o : object)
    (c : connection) (ips_rows dom_rows : list str) :
  nth_error (heap w) db_conn = Some o -> conn o = Some (Some c) ->
  lookup_table (conn_database c) (lit "ips") (tables w) = Some ips_rows ->
  lookup_table (conn_database c) (lit "domains") (tables w) = Some dom_rows ->
  get_ips_and_domains db_conn w
  = try_except
      (bind (first_row (select_grouped dom_rows)) (fun r0 =>
         if negb (snd r0 =? 1)
         then for_each (select_grouped dom_rows) print_with_count
         else ret tt))
      (except_KeyError (print (Text (lit "No domains in database"))))
      (set_stdout
         (stdout w ++ (Text (nl :: lit "IPs:")
                         :: ips_lines (select_grouped ips_rows))
                   ++ [Text (nl :: lit "Domains:")]) w).
Proof.
  intros Ho Hc Hi Hd. unfold get_ips_and_domains.
  unfold bind at 1. rewrite (cursor_ok _ _ _ _ Ho Hc).
  unfold bind at 1. unfold execute at 1. rewrite Hi.
  pose proof (ips_section_prints (select_grouped ips_rows) w) as E.
  unfold bind at 1 in E. unfold bind at 1.
  destruct (print (Text (nl :: lit "IPs:")) w) as [[[] | x | e] w1] eqn:P;
    try discriminate.
  unfold bind at 1. rewrite E.
  unfold bind at 1. unfold execute at 1. simpl tables. rewrite Hd.
  unfold bind at 1. unfold print at 1, modify. simpl.
  rewrite <- app_assoc. reflexivity.
Qed.

(** C9. When the query over [domains] returns no row, indexing the
    first row raises [IndexError], which the handler of the domains
    section (it names [KeyError]) does not catch: the call ends in that
    exception, the process with status 1, and the last thing printed
    is the label of the section, not a message about missing domains.
    The IPs section catches the same exception: with no row in [ips] it
    prints its message and the function goes on. *)
Theorem get_ips_and_domains_no_domains (db_conn : nat) (w : world)
    (o : object) (c : connection) (ips_rows dom_rows : list str) :
  nth_error (heap w) db_conn = Some o -> conn o = Some (Some c) ->
  lookup_table (conn_database c) (lit "ips") (tables w) = Some ips_rows ->
  lookup_table (conn_database c) (lit "domains") (tables w) = Some dom_rows ->
  select_grouped dom_rows = [] ->
  exists w',
    get_ips_and_domains db_conn w = (Raise IndexError, w') /\
    exit_status (get_ips_and_domains db_conn w) = 1%Z /\
    stdout w' = stdout w ++ (Text (nl :: lit "IPs:")
                               :: ips_lines (select_grouped ips_rows))
                         ++ [Text (nl :: lit "Domains:")] /\
    (select_grouped ips_rows = [] ->
     stdout w' = stdout w ++ [Text (nl :: lit "IPs:");
                              Text (lit "No ips in database");
                              Text (nl :: lit "Domains:")]).
Proof.
  intros Ho Hc Hi Hd He.
  rewrite (get_ips_and_domains_steps _ _ _ _ _ _ Ho Hc Hi Hd), He.
  eexists. split; [reflexivity|].
  split; [reflexivity|]. split; [reflexivity|].
  intros ->. reflexivity.
Qed.

(** C9 with both tables empty. *)
Lemma get_ips_and_domains_no_domains_witness :
  exists w',
    get_ips_and_domains 0 (stored [] []) = (Raise IndexError, w') /\
    stdout w' = [Text (nl :: lit "IPs:"); Text (lit "No ips in database");
                 Text (nl :: lit "Domains:")].
Proof.
  destruct (get_ips_and_domains_no_domains 0 (stored [] [])
              (Object (Some (lit "127.0.0.1")) (Some 3306%Z) (Some (lit "root"))
                 (Some (lit "secret")) (Some (lit "mail"))
                 (Some (Some (Connection 0 (lit "mail")))))
              (Connection 0 (lit "mail")) [] [])
    as (w' & E & _ & _ & S); try reflexivity.
  exists w'. split; [exact E | apply S; reflexivity].
Defined.

(** C10. When the table [domains] is not empty and each of its values
    is stored once, [get_ips_and_domains] returns having printed the
    label of the domains section and nothing after it.  The IPs section
    does have the other branch: when every count (the first row's, the
    largest) is 1 it prints the bare values. *)
Theorem get_ips_and_domains_single_domains (db_conn : nat) (w : world)
    (o : object) (c : connection) (ips_rows dom_rows : list str) :
  nth_error (heap w) db_conn = Some o -> conn o = Some (Some c) ->
  lookup_table (conn_database c) (lit "ips") (tables w) = Some ips_rows ->
  lookup_table (conn_database c) (lit "domains") (tables w) = Some dom_rows ->
  dom_rows <> [] ->
  (forall v, In v dom_rows -> count_occ str_eq_dec dom_rows v = 1) ->
  exists w',
    get_ips_and_domains db_conn w = (Ret tt, w') /\
    stdout w' = stdout w ++ (Text (nl :: lit "IPs:")
                               :: ips_lines (select_grouped ips_rows))
                         ++ [Text (nl :: lit "Domains:")] /\
    (ips_rows <> [] ->
     (forall v, In v ips_rows -> count_occ str_eq_dec ips_rows v = 1) ->
     ips_lines (select_grouped ips_rows)
     = map line_value (select_grouped ips_rows)).
Proof.
  intros Ho Hc Hi Hd Hne Hone.
  assert (first_is_one : forall rows : list str,
    rows <> [] ->
    (forall v, In v rows -> count_occ str_eq_dec rows v = 1) ->
    exists r0 rest, select_grouped rows = r0 :: rest /\ snd r0 = 1).
  { intros rows Hn H1.
    destruct (select_grouped rows) as [|[v n] rest] eqn:E.
    - apply select_grouped_nil in E. contradiction.
    - exists (v, n), rest. split; [reflexivity|].
      assert (Hin : In (v, n) (select_grouped rows)) by (rewrite E; now left).
      apply select_grouped_In in Hin. destruct Hin as [Hv ->].
      now apply H1. }
  rewrite (get_ips_and_domains_steps _ _ _ _ _ _ Ho Hc Hi Hd).
  destruct (first_is_one dom_rows Hne Hone) as (r0 & rest & E & H0).
  rewrite E. unfold try_except, bind, first_row, ret. rewrite H0. simpl.
  eexists. split; [reflexivity|]. split; [reflexivity|].
  intros Hn H1. destruct (first_is_one ips_rows Hn H1) as (i0 & irest & Ei & Hi0).
  rewrite Ei. unfold ips_lines. now rewrite Hi0.
Qed.

(** C10 with two IPs and two domains, each stored once. *)
Lemma get_ips_and_domains_single_domains_witness :
  exists w',
    get_ips_and_domains 0
      (stored [lit "1.2.3.4"; lit "5.6.7.8"] [lit "b.com"; lit "d.com"])
    = (Ret tt, w') /\
    stdout w' = [Text (nl :: lit "IPs:"); Text (lit "1.2.3.4");
                 Text (lit "5.6.7.8"); Text (nl :: lit "Domains:")].
Proof.
  destruct (get_ips_and_domains_single_domains 0
              (stored [lit "1.2.3.4"; lit "5.6.7.8"] [lit "b.com"; lit "d.com"])
              (Object (Some (lit "127.0.0.1")) (Some 3306%Z) (Some (lit "root"))
                 (Some (lit "secret")) (Some (lit "mail"))
                 (Some (Some (Connection 0 (lit "mail")))))
              (Connection 0 (lit "mail"))
              [lit "1.2.3.4"; lit "5.6.7.8"] [lit "b.com"; lit "d.com"])
    as (w' & E & S & _); try reflexivity.
  - discriminate.
  - intros v [<- | [<- | []]]; vm_compute; reflexivity.
  - exists w'. split; [exact E | rewrite S; vm_compute; reflexivity].
Defined.

(* ----------------------------------------------------------------- *)
(** ** The matcher: what a match consumes *)

Lemma extends_refl (st : Re.mstate) : extends st st [].
Proof. split; reflexivity. Qed.

Lemma extends_trans (a b c : Re.mstate) (t u : str) :
  extends a b t -> extends b c u -> extends a c (t ++ u).
Proof.
  intros [A1 B1] [A2 B2]. split.
  - rewrite A1, A2. now rewrite app_assoc.
  - rewrite B2, B1, rev_app_distr. now rewrite app_assoc.
Qed.

Lemma extends_caps (a b : Re.mstate) (t : str) (cs : list (nat * str)) :
  extends a b t -> extends a (Re.MState (Re.before b) (Re.after b) cs) t.
Proof. intros [A B]. split; assumption. Qed.

Section Consumes.

Variable P : ascii -> Prop.

Lemma consumes_rep_min (body : Re.mstate -> Re.kont -> option Re.mstate)
    (n lo : nat) :
  consumes P body n -> consumes P (Re.rep_min body lo) (lo * n).
Proof.
  intros Hb. induction lo as [|lo IH]; intros st k x H; simpl in H.
  - exists st, []. repeat split; auto using extends_refl.
  - apply Hb in H. destruct H as (st1 & t1 & E1 & F1 & L1 & H).
    apply IH in H. destruct H as (st2 & t2 & E2 & F2 & L2 & H).
    exists st2, (t1 ++ t2). split; [eapply extends_trans; eauto|].
    split; [now apply Forall_app|]. split; [|assumption].
    rewrite length_app. simpl. lia.
Qed.

Lemma consumes_rep_opt (body : Re.mstate -> Re.kont -> option Re.mstate)
    (n : nat) (greedy : bool) (count : nat) :
  consumes P body n -> consumes P (Re.rep_opt body greedy count) 0.
Proof.
  intros Hb. induction count as [|count IH]; intros st k x H; simpl in H.
  - exists st, []. repeat split; auto using extends_refl.
  - assert (Hk : k st = Some x ->
              exists st' t, extends st st' t /\ Forall P t /\
                            0 <= length t /\ k st' = Some x).
    { intros E. exists st, []. repeat split; auto using extends_refl. }
    assert (Hagain :
      body st (fun st' => if Re.progressed st st'
                          then Re.rep_opt body greedy count st' k else k st')
      = Some x ->
      exists st' t, extends st st' t /\ Forall P t /\
                    0 <= length t /\ k st' = Some x).
    { intros E. apply Hb in E. destruct E as (st1 & t1 & E1 & F1 & L1 & E).
      destruct (Re.progressed st st1).
      - apply IH in E. destruct E as (st2 & t2 & E2 & F2 & L2 & E).
        exists st2, (t1 ++ t2). split; [eapply extends_trans; eauto|].
        split; [now apply Forall_app|]. split; [lia | assumption].
      - exists st1, t1. repeat split; try apply E1; auto. lia. }
    destruct greedy; unfold Re.orelse in H.
    + destruct (body st _) eqn:E; [injection H as ->; auto | auto].
    + destruct (k st) eqn:E; [injection H as ->; auto | auto].
Qed.

Lemma rmatch_consumes (r : Re.regex) :
  chars_in P r -> consumes P (Re.rmatch r) (min_width r).
Proof.
  induction r as [| cs | r1 IH1 r2 IH2 | r1 IH1 r2 IH2 | r1 IH1 lo hi greedy
                 | n r1 IH1 | ahead neg r1 IH1 | | ];
    intros Hc st k x H; simpl in H.
  - exists st, []. repeat split; auto using extends_refl.
  - destruct (Re.after st) as [|c aft] eqn:A; [discriminate|].
    destruct (Re.cset_mem cs c) eqn:M; [|discriminate].
    exists (Re.step st c aft), [c]. split; [split; [exact A | reflexivity]|].
    split; [constructor; [now apply Hc | constructor]|].
    split; [simpl; lia | assumption].
  - destruct Hc as [Hc1 Hc2].
    apply (IH1 Hc1) in H. destruct H as (st1 & t1 & E1 & F1 & L1 & H).
    apply (IH2 Hc2) in H. destruct H as (st2 & t2 & E2 & F2 & L2 & H).
    exists st2, (t1 ++ t2). split; [eapply extends_trans; eauto|].
    split; [now apply Forall_app|]. split; [|assumption].
    rewrite length_app. simpl. lia.
  - destruct Hc as [Hc1 Hc2]. unfold Re.orelse in H.
    destruct (Re.rmatch r1 st k) eqn:E.
    + injection H as ->. apply (IH1 Hc1) in E.
      destruct E as (st1 & t1 & E1 & F1 & L1 & E).
      exists st1, t1. repeat split; try apply E1; auto. simpl. lia.
    + apply (IH2 Hc2) in H. destruct H as (st1 & t1 & E1 & F1 & L1 & H).
      exists st1, t1. repeat split; try apply E1; auto. simpl. lia.
  - simpl in Hc.
    apply (consumes_rep_min _ _ lo (IH1 Hc)) in H.
    destruct H as (st1 & t1 & E1 & F1 & L1 & H).
    apply (consumes_rep_opt _ _ _ _ (IH1 Hc)) in H.
    destruct H as (st2 & t2 & E2 & F2 & L2 & H).
    exists st2, (t1 ++ t2). split; [eapply extends_trans; eauto|].
    split; [now apply Forall_app|]. split; [|assumption].
    rewrite length_app. simpl. lia.
  - simpl in Hc. apply (IH1 Hc) in H.
    destruct H as (st1 & t1 & E1 & F1 & L1 & H).
    eexists _, t1. split; [eapply extends_caps; exact E1|].
    split; [assumption|]. split; [exact L1 | exact H].
  - assert (Hk : forall cs, k (Re.MState (Re.before st) (Re.after st) cs)
                            = Some x ->
              exists st' t, extends st st' t /\ Forall P t /\
                            0 <= length t /\ k st' = Some x).
    { intros cs E. eexists _, []. split; [|split; [constructor|split; [lia|exact E]]].
      apply extends_caps, extends_refl. }
    assert (Hst : k st = Some x ->
              exists st' t, extends st st' t /\ Forall P t /\
                            0 <= length t /\ k st' = Some x).
    { intros E. exists st, []. repeat split; auto using extends_refl. }
    destruct ahead.
    + destruct (Re.rmatch r1 st _) as [s1|]; destruct neg;
        try discriminate; eauto.
    + destruct (Re.width r1) as [wd|].
      * destruct (Re.back wd _ _) as [[bef aft]|].
        -- destruct (Re.rmatch r1 _ _) as [s1|]; destruct neg;
             try discriminate; eauto.
        -- destruct neg; try discriminate; eauto.
      * destruct neg; try discriminate; eauto.
  - destruct (Re.before st); [|discriminate].
    exists st, []. repeat split; auto using extends_refl.
  - destruct (Re.at_end (Re.after st)); [|discriminate].
    exists st, []. repeat split; auto using extends_refl.
Qed.

(** One attempt of [findall] reports a position reached over a text of
    [P] at least [min_width r] long. *)
Lemma try_at_consumes (r : Re.regex) (adv : bool) (bef aft : str)
    (st' : Re.mstate) :
  chars_in P r -> Re.try_at r adv bef aft = Some st' ->
  exists t, aft = t ++ Re.after st' /\ Re.before st' = rev t ++ bef /\
            Forall P t /\ min_width r <= length t.
Proof.
  intros Hc H. unfold Re.try_at in H.
  apply (rmatch_consumes r Hc) in H.
  destruct H as (st1 & t & [A B] & F & L & H).
  simpl in A, B.
  destruct (adv && _); [discriminate|]. injection H as <-.
  exists t. auto.
Qed.

End Consumes.

(* ----------------------------------------------------------------- *)
(** ** The matcher on single characters and greedy runs *)

Lemma rmatch_chars_cons (cs : Re.cset) (bef : str) (c : ascii) (aft : str)
    (caps : list (nat * str)) (k : Re.kont) :
  Re.rmatch (Re.Chars cs) (Re.MState bef (c :: aft) caps) k
  = if Re.cset_mem cs c then k (Re.MState (c :: bef) aft caps) else None.
Proof. reflexivity. Qed.

Lemma rmatch_chars_nil (cs : Re.cset) (bef : str) (caps : list (nat * str))
    (k : Re.kont) :
  Re.rmatch (Re.Chars cs) (Re.MState bef [] caps) k = None.
Proof. reflexivity. Qed.

Lemma cset_mem_single (i : Re.citem) (c : ascii) :
  Re.cset_mem (Re.CSet false [i]) c = Re.citem_mem i c.
Proof. simpl. now rewrite orb_false_r. Qed.

Lemma rmatch_chars_stops (cs : Re.cset) (bef aft : str)
    (caps : list (nat * str)) (k : Re.kont) :
  stops cs aft -> Re.rmatch (Re.Chars cs) (Re.MState bef aft caps) k = None.
Proof.
  destruct aft as [|c aft]; intros H; [reflexivity|].
  rewrite rmatch_chars_cons. simpl in H. now rewrite H.
Qed.

(** The mandatory iterations of a repeated character set run over as
    many characters of the set. *)
Lemma rep_min_chars (cs : Re.cset) (g : str) :
  Forall (fun c => Re.cset_mem cs c = true) g ->
  forall bef aft caps k,
    Re.rep_min (Re.rmatch (Re.Chars cs)) (length g)
      (Re.MState bef (g ++ aft) caps) k
    = k (Re.MState (rev g ++ bef) aft caps).
Proof.
  induction 1 as [|c g Hc Hg IH]; intros bef aft caps k; [reflexivity|].
  cbn [Re.rep_min length app]. rewrite rmatch_chars_cons, Hc, IH.
  cbn [rev]. now rewrite <- app_assoc.
Qed.

(** The optional iterations of a greedy repeated character set take
    the whole run, when what follows accepts the position after it. *)
Lemma rep_opt_chars_greedy (cs : Re.cset) (g : str) :
  Forall (fun c => Re.cset_mem cs c = true) g ->
  forall n bef aft caps k x,
    length g <= n ->
    (length g < n -> stops cs aft) ->
    k (Re.MState (rev g ++ bef) aft caps) = Some x ->
    Re.rep_opt (Re.rmatch (Re.Chars cs)) true n
      (Re.MState bef (g ++ aft) caps) k = Some x.
Proof.
  induction 1 as [|c g Hc Hg IH]; intros n bef aft caps k x Hn Hstop Hk.
  - destruct n as [|n]; [exact Hk|].
    cbn [Re.rep_opt app].
    rewrite rmatch_chars_stops by (apply Hstop; simpl; lia).
    exact Hk.
  - destruct n as [|n]; [simpl in Hn; lia|].
    cbn [Re.rep_opt app]. rewrite rmatch_chars_cons, Hc.
    unfold Re.progressed. cbn [Re.after].
    replace (length (g ++ aft) <? length (c :: g ++ aft)) with true
      by (symmetry; apply Nat.ltb_lt; simpl; lia).
    rewrite (IH n (c :: bef) aft caps k x); [reflexivity | | |].
    + simpl in Hn. lia.
    + intros L. apply Hstop. simpl. lia.
    + cbn [rev] in Hk. now rewrite <- app_assoc in Hk.
Qed.

(** A greedy bounded repeat of a character set over a run of the set
    that what follows accepts. *)
Lemma repeat_chars_greedy (cs : Re.cset) (lo hi : nat) (g : str)
    (bef aft : str) (caps : list (nat * str)) (k : Re.kont) (x : Re.mstate) :
  Forall (fun c => Re.cset_mem cs c = true) g ->
  lo <= length g <= hi ->
  (length g < hi -> stops cs aft) ->
  k (Re.MState (rev g ++ bef) aft caps) = Some x ->
  Re.rmatch (Re.Repeat (Re.Chars cs) lo (Some hi) true)
    (Re.MState bef (g ++ aft) caps) k = Some x.
Proof.
  intros Hg [Hlo Hhi] Hstop Hk.
  assert (L1 : length (firstn lo g) = lo) by (apply firstn_length_le; exact Hlo).
  pose proof (firstn_skipn lo g) as Eg.
  remember (firstn lo g) as g1 eqn:E1. remember (skipn lo g) as g2 eqn:E2.
  clear E1 E2. subst g.
  apply Forall_app in Hg. destruct Hg as [Hg1 Hg2].
  rewrite length_app in Hhi, Hstop.
  change (Re.rmatch (Re.Repeat (Re.Chars cs) lo (Some hi) true)
            (Re.MState bef ((g1 ++ g2) ++ aft) caps) k)
    with (Re.rep_min (Re.rmatch (Re.Chars cs)) lo
            (Re.MState bef ((g1 ++ g2) ++ aft) caps)
            (fun st1 => Re.rep_opt (Re.rmatch (Re.Chars cs)) true (hi - lo)
                          st1 k)).
  rewrite <- app_assoc. rewrite <- L1 at 1. rewrite (rep_min_chars cs g1 Hg1).
  apply (rep_opt_chars_greedy cs g2 Hg2); [lia | intros L; apply Hstop; lia |].
  rewrite rev_app_distr, <- app_assoc in Hk. exact Hk.
Qed.

(* ----------------------------------------------------------------- *)
(** ** The IPv4 pattern at a free-standing dotted quad *)

Lemma compile_IPV4 : Re.compile IPV4 = Some (ipv4_regex, 1).
Proof. vm_compute. reflexivity. Qed.

Lemma is_digit_is_word (c : ascii) :
  Re.is_digit c = true -> Re.is_word c = true.
Proof. unfold Re.is_digit, Re.is_word. intros ->. reflexivity. Qed.

Lemma octet_digits (g : str) :
  octet g -> Forall (fun c => Re.cset_mem digits c = true) g.
Proof.
  intros [_ H]. eapply Forall_impl; [|exact H].
  intros c Hc. unfold digits. rewrite cset_mem_single. simpl. exact Hc.
Qed.

Lemma octet_match (g bef aft : str) (caps : list (nat * str)) (k : Re.kont)
    (x : Re.mstate) :
  octet g -> stops digits aft ->
  k (Re.MState (rev g ++ bef) aft caps) = Some x ->
  Re.rmatch r_octet (Re.MState bef (g ++ aft) caps) k = Some x.
Proof.
  intros Hg Hs Hk. unfold r_octet, r_digit.
  apply repeat_chars_greedy; auto using octet_digits.
  destruct Hg as [[L1 L3] _]. lia.
Qed.

Lemma dot_octet_match (g bef aft : str) (caps : list (nat * str))
    (k : Re.kont) (x : Re.mstate) :
  octet g -> stops digits aft ->
  k (Re.MState (rev g ++ dot :: bef) aft caps) = Some x ->
  Re.rmatch (Re.Cat r_dot r_octet) (Re.MState bef (dot :: g ++ aft) caps) k
  = Some x.
Proof.
  intros Hg Hs Hk.
  change (Re.rmatch r_octet (Re.MState (dot :: bef) (g ++ aft) caps) k = Some x).
  now apply octet_match.
Qed.

Lemma stops_digits_dot (aft : str) : stops digits (dot :: aft).
Proof. reflexivity. Qed.

Lemma quad_match (a b c d bef post : str) (caps : list (nat * str))
    (k : Re.kont) (x : Re.mstate) :
  octet a -> octet b -> octet c -> octet d -> stops digits post ->
  k (Re.MState (rev (a ++ dot :: b ++ dot :: c ++ dot :: d) ++ bef) post caps)
  = Some x ->
  Re.rmatch r_quad
    (Re.MState bef ((a ++ dot :: b ++ dot :: c ++ dot :: d) ++ post) caps) k
  = Some x.
Proof.
  intros Ha Hb Hc Hd Hs Hk.
  assert (E : rev (a ++ dot :: b ++ dot :: c ++ dot :: d) ++ bef
              = rev d ++ dot :: rev c ++ dot :: rev b ++ dot :: rev a ++ bef).
  { repeat (rewrite rev_app_distr; cbn [rev]).
    repeat (rewrite <- app_assoc; cbn [app]). reflexivity. }
  rewrite E in Hk. clear E.
  assert (T : (a ++ dot :: b ++ dot :: c ++ dot :: d) ++ post
              = a ++ dot :: b ++ dot :: c ++ dot :: d ++ post).
  { repeat (rewrite <- app_assoc; cbn [app]). reflexivity. }
  rewrite T. clear T.
  unfold r_quad.
  change (Re.rmatch r_octet
            (Re.MState bef (a ++ dot :: b ++ dot :: c ++ dot :: d ++ post) caps)
            (fun st1 =>
               Re.rmatch (Re.Cat r_dot r_octet) st1 (fun st2 =>
               Re.rmatch (Re.Cat r_dot r_octet) st2 (fun st3 =>
               Re.rmatch (Re.Cat r_dot r_octet) st3 k)))
          = Some x).
  apply octet_match; [assumption | apply stops_digits_dot |].
  apply dot_octet_match; [assumption | apply stops_digits_dot |].
  apply dot_octet_match; [assumption | apply stops_digits_dot |].
  apply dot_octet_match; assumption.
Qed.

Lemma clear_before_behind (pre : str) :
  clear_before pre -> clear_behind (rev pre).
Proof.
  intros H. destruct (rev pre) as [|c bef] eqn:E; [exact I|].
  apply (H (rev bef) c).
  rewrite <- (rev_involutive pre), E. reflexivity.
Qed.

Lemma not_behind_match (bef aft : str) (caps : list (nat * str)) (k : Re.kont) :
  clear_behind bef ->
  Re.rmatch r_not_behind (Re.MState bef aft caps) k
  = k (Re.MState bef aft caps).
Proof.
  intros H. destruct bef as [|c bef]; [reflexivity|].
  destruct H as [Hw Hd].
  unfold r_not_behind. cbn [Re.rmatch Re.width r_word r_dot Nat.eqb Re.back
                            Re.before Re.after Re.caps Re.orelse].
  rewrite !cset_mem_single. cbn [Re.citem_mem xorb].
  rewrite Hw. cbn [Re.orelse].
  destruct (Ascii.eqb_spec c dot) as [->|_]; [congruence | reflexivity].
Qed.

Lemma look_ahead_not (r : Re.regex) (st : Re.mstate) (k : Re.kont) :
  Re.rmatch r st (fun x => Some x) = None ->
  Re.rmatch (Re.Look true true r) st k = k st.
Proof. intros H. cbn [Re.rmatch]. now rewrite H. Qed.

Lemma not_ahead_match (bef post : str) (caps : list (nat * str)) (k : Re.kont) :
  clear_after post ->
  Re.rmatch r_not_ahead (Re.MState bef post caps) k
  = k (Re.MState bef post caps).
Proof.
  intros H. unfold r_not_ahead.
  assert (N : Re.rmatch (Re.Cat (Re.Repeat r_dot 0 (Some 1) true) r_word)
                (Re.MState bef post caps) (fun x => Some x) = None).
  { change (Re.rep_opt (Re.rmatch r_dot) true 1 (Re.MState bef post caps)
              (fun st1 => Re.rmatch r_word st1 (fun x => Some x)) = None).
    cbn [Re.rep_opt]. unfold r_dot, r_word.
    destruct post as [|c rest]; [reflexivity|].
    destruct H as [Hw Hd].
    rewrite !rmatch_chars_cons, !cset_mem_single. cbn [Re.citem_mem xorb].
    rewrite Hw.
    destruct (Ascii.eqb_spec c dot) as [->|_]; [|reflexivity].
    specialize (Hd eq_refl).
    assert (R : Re.rmatch (Re.Chars (Re.CSet false [Re.CWord false]))
                  (Re.MState (dot :: bef) rest caps) (fun x => Some x) = None).
    { destruct rest as [|e rest]; [reflexivity|].
      rewrite rmatch_chars_cons, cset_mem_single. cbn [Re.citem_mem xorb].
      now rewrite Hd. }
    destruct (Re.progressed _ _); cbn [Re.rep_opt]; rewrite R; reflexivity. }
  now apply look_ahead_not.
Qed.

Lemma clear_after_stops (post : str) : clear_after post -> stops digits post.
Proof.
  destruct post as [|c rest]; [trivial|]. intros [Hw _].
  unfold stops, digits. rewrite cset_mem_single. simpl.
  destruct (Re.is_digit c) eqn:E; [|reflexivity].
  apply is_digit_is_word in E. congruence.
Qed.

Lemma matched_text_over (bef t aft aft' : str) (c c' : list (nat * str)) :
  Re.matched_text (Re.MState bef aft c) (Re.MState (rev t ++ bef) aft' c') = t.
Proof.
  unfold Re.matched_text. cbn [Re.before].
  rewrite length_app, Nat.add_sub.
  rewrite firstn_app, firstn_all, Nat.sub_diag. cbn [firstn].
  rewrite app_nil_r. apply rev_involutive.
Qed.

(** At a free-standing dotted quad the pattern matches exactly the
    quad, in one attempt, and captures it as group 1. *)
Lemma ipv4_try_at (bef t post : str) :
  dotted_quad t -> clear_behind bef -> clear_after post ->
  Re.try_at ipv4_regex false bef (t ++ post)
  = Some (Re.MState (rev t ++ bef) post [(1, t)]).
Proof.
  intros (a & b & c & d & Ha & Hb & Hc & Hd & ->) Hbef Hpost.
  unfold Re.try_at, ipv4_regex.
  change (Re.rmatch r_not_behind
            (Re.MState bef ((a ++ dot :: b ++ dot :: c ++ dot :: d) ++ post) [])
            (fun st1 =>
               Re.rmatch r_quad st1 (fun st' =>
                 Re.rmatch r_not_ahead
                   (Re.MState (Re.before st') (Re.after st')
                      ((1, Re.matched_text st1 st') :: Re.caps st'))
                   (fun st'' =>
                      if false && (length (Re.after st'')
                                   =? length ((a ++ dot :: b ++ dot :: c
                                                 ++ dot :: d) ++ post))
                      then None else Some st'')))
          = Some (Re.MState (rev (a ++ dot :: b ++ dot :: c ++ dot :: d) ++ bef)
                    post [(1, a ++ dot :: b ++ dot :: c ++ dot :: d)])).
  rewrite not_behind_match by assumption.
  apply quad_match; auto using clear_after_stops.
  cbn [Re.before Re.after Re.caps].
  rewrite not_ahead_match by assumption.
  rewrite matched_text_over. reflexivity.
Qed.

(* ----------------------------------------------------------------- *)
(** ** The scan of [findall] *)

Lemma Forall_firstn_of {A : Type} (Q : A -> Prop) (n : nat) (l : list A) :
  Forall Q l -> Forall Q (firstn n l).
Proof.
  intros H. rewrite <- (firstn_skipn n l) in H.
  now apply Forall_app in H.
Qed.

Section Scan.

Variables (r : Re.regex) (ng : nat) (P : ascii -> Prop).

(** The pattern consumes characters of [P] only, and at least one. *)
Hypothesis Hc : chars_in P r.
Hypothesis Hw : 1 <= min_width r.

Lemma scan_0 (bef aft : str) (pos : nat) :
  Re.scan r ng bef aft 0 pos
  = match Re.try_at r false bef aft with
    | None => scan_next r ng bef aft pos 0
    | Some st1 =>
        (pos, Re.item_of ng (Re.MState bef aft []) st1) ::
        match Re.consumed aft st1 with
        | S l => scan_next r ng bef aft pos l
        | 0 =>
            match Re.try_at r true bef aft with
            | None => scan_next r ng bef aft pos 0
            | Some st2 =>
                (pos, Re.item_of ng (Re.MState bef aft []) st2)
                  :: scan_next r ng bef aft pos (Re.consumed aft st2 - 1)
            end
        end
    end.
Proof. destruct aft; reflexivity. Qed.

Lemma try_at_consumed (adv : bool) (bef aft : str) (st1 : Re.mstate) :
  Re.try_at r adv bef aft = Some st1 ->
  exists t, aft = t ++ Re.after st1 /\ Forall P t /\ 1 <= length t /\
            Re.consumed aft st1 = length t.
Proof.
  intros H. apply (try_at_consumes P r adv bef aft st1 Hc) in H.
  destruct H as (t & A & _ & F & L). exists t.
  split; [exact A|]. split; [exact F|]. split; [lia|].
  unfold Re.consumed. rewrite A at 1. rewrite length_app. lia.
Qed.

(** No match is reported before the position the scan stands at. *)
Lemma scan_lower (aft bef : str) (skip pos : nat) (p : nat * Re.fitem) :
  In p (Re.scan r ng bef aft skip pos) -> pos + skip <= fst p.
Proof.
  revert bef skip pos. induction aft as [|c aft IH]; intros bef skip pos.
  - destruct skip as [|n]; [|intros []].
    rewrite scan_0. unfold scan_next.
    destruct (Re.try_at r false bef []) as [st1|] eqn:T; [|intros []].
    apply try_at_consumed in T. destruct T as (t & A & _ & L & _).
    destruct t; [simpl in L; lia | discriminate].
  - destruct skip as [|n].
    + rewrite scan_0. unfold scan_next.
      destruct (Re.try_at r false bef (c :: aft)) as [st1|].
      * intros [<- | H]; [simpl; lia|].
        destruct (Re.consumed (c :: aft) st1) as [|l].
        -- destruct (Re.try_at r true bef (c :: aft)) as [st2|].
           ++ destruct H as [<- | H]; [simpl; lia|].
              apply IH in H. lia.
           ++ apply IH in H. lia.
        -- apply IH in H. lia.
      * intros H. apply IH in H. lia.
    + simpl. intros H. apply IH in H. lia.
Qed.

(** The reported positions increase strictly. *)
Lemma scan_sorted (aft bef : str) (skip pos : nat) :
  StronglySorted lt (map fst (Re.scan r ng bef aft skip pos)).
Proof.
  revert bef skip pos. induction aft as [|c aft IH]; intros bef skip pos.
  - destruct skip as [|n]; [|constructor].
    rewrite scan_0. unfold scan_next.
    destruct (Re.try_at r false bef []) as [st1|] eqn:T; [|constructor].
    apply try_at_consumed in T. destruct T as (t & A & _ & L & _).
    destruct t; [simpl in L; lia | discriminate].
  - destruct skip as [|n]; [|apply IH].
    rewrite scan_0. unfold scan_next.
    destruct (Re.try_at r false bef (c :: aft)) as [st1|] eqn:T; [|apply IH].
    apply try_at_consumed in T. destruct T as (t & _ & _ & L & ->).
    destruct (length t) as [|l]; [lia|].
    simpl. constructor; [apply IH|].
    apply Forall_forall. intros i Hi. apply in_map_iff in Hi.
    destruct Hi as (p & <- & Hp). apply scan_lower in Hp. lia.
Qed.

(** A position where the pattern matches and that does not follow a
    character of [P] is reported, with that match. *)
Lemma scan_finds (p2 p1 : str) (skip : nat) (t post : str) (st' : Re.mstate) :
  (forall q c, p1 ++ p2 = q ++ [c] -> ~ P c) ->
  Re.try_at r false (rev (p1 ++ p2)) (t ++ post) = Some st' ->
  skip <= length p2 ->
  In (length (p1 ++ p2),
      Re.item_of ng (Re.MState (rev (p1 ++ p2)) (t ++ post) []) st')
     (Re.scan r ng (rev p1) (p2 ++ t ++ post) skip (length p1)).
Proof.
  revert p1 skip. induction p2 as [|c p2 IH]; intros p1 skip Hlast Htry Hskip.
  - assert (skip = 0) by (simpl in Hskip; lia). subst skip.
    rewrite app_nil_r in *. cbn [app]. rewrite scan_0, Htry. now left.
  - assert (E : p1 ++ c :: p2 = (p1 ++ [c]) ++ p2)
      by (rewrite <- app_assoc; reflexivity).
    assert (IH' : forall n, n <= length p2 ->
              In (length (p1 ++ c :: p2),
                  Re.item_of ng (Re.MState (rev (p1 ++ c :: p2)) (t ++ post) [])
                    st')
                 (Re.scan r ng (c :: rev p1) (p2 ++ t ++ post) n
                    (S (length p1)))).
    { intros n Hn. rewrite E in *.
      specialize (IH (p1 ++ [c]) n Hlast Htry Hn).
      now rewrite rev_unit, last_length in IH. }
    cbn [app]. destruct skip as [|n].
    + rewrite scan_0. unfold scan_next.
      destruct (Re.try_at r false (rev p1) (c :: p2 ++ t ++ post))
        as [st1|] eqn:T; [|apply IH'; lia].
      right. apply try_at_consumed in T.
      destruct T as (t1 & A & F & L & ->).
      assert (Hle : length t1 <= length (c :: p2)).
      { destruct (Nat.le_gt_cases (length t1) (length (c :: p2)))
          as [Le|Gt]; [exact Le | exfalso].
        apply (f_equal (firstn (length (c :: p2)))) in A.
        change (c :: p2 ++ t ++ post) with ((c :: p2) ++ t ++ post) in A.
        rewrite firstn_app, firstn_all, Nat.sub_diag in A.
        cbn [firstn] in A. rewrite app_nil_r in A.
        rewrite firstn_app in A.
        replace (length (c :: p2) - length t1) with 0 in A by lia.
        cbn [firstn] in A. rewrite app_nil_r in A.
        assert (Fp : Forall P (c :: p2)).
        { rewrite A. now apply Forall_firstn_of. }
        assert (Hne : c :: p2 <> []) by discriminate.
        pose proof (app_removelast_last c Hne) as R.
        rewrite R in Fp. apply Forall_app in Fp. destruct Fp as [_ Fp].
        inversion Fp as [|z zs Pz _]. subst.
        apply (Hlast (p1 ++ removelast (c :: p2)) (last (c :: p2) c)); [|exact Pz].
        rewrite <- app_assoc. f_equal. exact R. }
      destruct (length t1) as [|l]; [lia|].
      apply IH'. simpl in Hle. lia.
    + cbn [Re.scan]. apply IH'. simpl in Hskip. lia.
Qed.

End Scan.

Lemma subseq_map {A B : Type} (f : A -> B) (l1 l2 : list A) :
  subseq l1 l2 -> subseq (map f l1) (map f l2).
Proof. induction 1; simpl; constructor; assumption. Qed.

(** Of two lists in strictly increasing order of position, one that is
    contained in the other is a subsequence of it. *)
Lemma sorted_subseq {X : Type} (l2 l1 : list (nat * X)) :
  StronglySorted lt (map fst l1) -> StronglySorted lt (map fst l2) ->
  (forall p, In p l1 -> In p l2) -> subseq l1 l2.
Proof.
  revert l1. induction l2 as [|y l2 IH]; intros l1 S1 S2 Hin.
  - destruct l1 as [|x l1]; [constructor | destruct (Hin x); now left].
  - destruct l1 as [|x l1]; [constructor|].
    simpl in S1, S2. apply StronglySorted_inv in S1, S2.
    destruct S1 as [S1 F1], S2 as [S2 F2].
    rewrite Forall_forall in F1, F2.
    destruct (Hin x (or_introl eq_refl)) as [<- | Hx].
    + apply subseq_take. apply IH; try assumption.
      intros p Hp. destruct (Hin p (or_intror Hp)) as [<- | H]; [|exact H].
      specialize (F1 (fst y) (in_map fst _ _ Hp)). lia.
    + apply subseq_skip. apply IH; try assumption.
      * simpl. constructor; [assumption | now apply Forall_forall].
      * specialize (F2 (fst x) (in_map fst _ _ Hx)).
        intros p [<- | Hp]; [exact Hx|].
        destruct (Hin p (or_intror Hp)) as [<- | H]; [|exact H].
        specialize (F1 (fst y) (in_map fst _ _ Hp)). lia.
Qed.

(* ----------------------------------------------------------------- *)
(** ** IPv4 extraction *)

Lemma ipv4_chars : chars_in digit_or_dot ipv4_regex.
Proof.
  assert (D : forall c, Re.cset_mem digits c = true -> digit_or_dot c).
  { intros c H. unfold digits in H. rewrite cset_mem_single in H. now left. }
  assert (T : forall c, Re.cset_mem (Re.CSet false [Re.CChar dot]) c = true ->
                        digit_or_dot c).
  { intros c H. rewrite cset_mem_single in H. right.
    now apply Ascii.eqb_eq in H. }
  simpl. auto.
Qed.

Lemma ipv4_min_width : 1 <= min_width ipv4_regex.
Proof. simpl. lia. Qed.

Lemma ipv4_spans_eq (doc : str) : ipv4_spans doc = Re.spans ipv4_regex 1 doc.
Proof. unfold ipv4_spans. now rewrite compile_IPV4. Qed.

Lemma clear_before_not_digit_or_dot (pre q : str) (c : ascii) :
  clear_before pre -> pre = q ++ [c] -> ~ digit_or_dot c.
Proof.
  intros H E [Hd | Hd]; destruct (H q c E) as [Hw Hn].
  - apply is_digit_is_word in Hd. congruence.
  - contradiction.
Qed.

Lemma ipv4_occurrence_found (doc : str) (i : nat) (t : str) :
  ipv4_occurrence doc i t -> In (i, Re.FStr t) (ipv4_spans doc).
Proof.
  intros (pre & post & -> & <- & Hq & Hb & Ha).
  rewrite ipv4_spans_eq. unfold Re.spans.
  pose proof (ipv4_try_at (rev pre) t post Hq (clear_before_behind pre Hb) Ha)
    as T.
  pose proof (scan_finds ipv4_regex 1 digit_or_dot ipv4_chars ipv4_min_width
                pre [] 0 t post _
                (fun q c E => clear_before_not_digit_or_dot pre q c Hb E)
                T (Nat.le_0_l _)) as H.
  exact H.
Qed.

Lemma sorted_split {X : Type} (l1 l2 : list (nat * X)) (x : nat * X) :
  StronglySorted lt (map fst (l1 ++ x :: l2)) ->
  Forall (fun p => fst p < fst x) l1 /\ Forall (fun p => fst x < fst p) l2.
Proof.
  induction l1 as [|y l1 IH]; simpl; intros H; apply StronglySorted_inv in H;
    destruct H as [S F].
  - split; [constructor|]. rewrite Forall_forall in *.
    intros p Hp. apply F. now apply in_map.
  - destruct (IH S) as [F1 F2]. split; [|exact F2].
    constructor; [|exact F1]. rewrite Forall_forall in F.
    apply F. rewrite map_app. apply in_or_app. right. now left.
Qed.

(** C6. The IPv4 extraction of [parse_mail] returns the texts of the
    matches in the order of their positions, which increase strictly.
    Every dotted quad that stands free in the document (not after a
    word character or a dot, not before a word character or a dot and
    a word character) is one of these matches, at its own position: it
    is returned once, after the matches at earlier positions and before
    those at later ones.  So the free-standing quads of the document,
    taken in document order with their repetitions, are a subsequence
    of what is returned. *)
Theorem ipv4_extraction (doc : str) :
  (forall w, re_findall IPV4 doc w = (Ret (map snd (ipv4_spans doc)), w)) /\
  StronglySorted lt (map fst (ipv4_spans doc)) /\
  (forall i t, ipv4_occurrence doc i t ->
     exists l1 l2,
       ipv4_spans doc = l1 ++ (i, Re.FStr t) :: l2 /\
       Forall (fun p => fst p < i) l1 /\ Forall (fun p => i < fst p) l2) /\
  (forall occs : list (nat * str),
     (forall i t, In (i, t) occs -> ipv4_occurrence doc i t) ->
     StronglySorted lt (map fst occs) ->
     subseq (map (fun o => Re.FStr (snd o)) occs) (map snd (ipv4_spans doc))).
Proof.
  assert (Sorted : StronglySorted lt (map fst (ipv4_spans doc))).
  { rewrite ipv4_spans_eq. unfold Re.spans.
    apply (scan_sorted ipv4_regex 1 digit_or_dot ipv4_chars ipv4_min_width). }
  split; [|split; [exact Sorted | split]].
  - intros w. unfold re_findall, Re.findall.
    rewrite ipv4_spans_eq, compile_IPV4. reflexivity.
  - intros i t Hocc. apply ipv4_occurrence_found in Hocc.
    apply in_split in Hocc. destruct Hocc as (l1 & l2 & E).
    exists l1, l2. split; [exact E|].
    rewrite E in Sorted. apply sorted_split in Sorted. exact Sorted.
  - intros occs Hocc Hs.
    set (f := fun o : nat * str => (fst o, Re.FStr (snd o))).
    replace (map (fun o => Re.FStr (snd o)) occs) with (map snd (map f occs))
      by (rewrite map_map; reflexivity).
    apply subseq_map. apply sorted_subseq.
    + rewrite map_map. exact Hs.
    + exact Sorted.
    + intros p Hp. apply in_map_iff in Hp. destruct Hp as ([i t] & <- & Hin).
      apply ipv4_occurrence_found. now apply Hocc.
Qed.

Lemma clear_before_of_rev (pre : str) :
  clear_behind (rev pre) -> clear_before pre.
Proof.
  intros H p c E. subst pre. rewrite rev_unit in H. exact H.
Qed.

Lemma octet_of_digits (g : str) :
  (1 <=? length g) && (length g <=? 3) && forallb Re.is_digit g = true ->
  octet g.
Proof.
  rewrite !andb_true_iff, !Nat.leb_le, forallb_forall.
  intros [[L1 L3] F]. split; [lia|]. now apply Forall_forall.
Qed.

Lemma two_quads_occurrence (i : nat) (pre post : str) :
  two_quads = pre ++ lit "10.0.0.1" ++ post -> length pre = i ->
  clear_behind (rev pre) -> clear_after post ->
  ipv4_occurrence two_quads i (lit "10.0.0.1").
Proof.
  intros E L Hb Ha. exists pre, post.
  split; [exact E|]. split; [exact L|].
  split; [|split; [now apply clear_before_of_rev | exact Ha]].
  exists (lit "10"), (lit "0"), (lit "0"), (lit "1").
  repeat split; try (apply octet_of_digits; reflexivity).
Qed.

(** C6 on a document with the same address twice and a version
    string: both occurrences of the address are returned, in order. *)
Lemma ipv4_extraction_witness :
  subseq [Re.FStr (lit "10.0.0.1"); Re.FStr (lit "10.0.0.1")]
         (map snd (ipv4_spans two_quads)).
Proof.
  apply (proj2 (proj2 (proj2 (ipv4_extraction two_quads)))
           [(3, lit "10.0.0.1"); (13, lit "10.0.0.1")]).
  - intros i t [[= <- <-] | [[= <- <-] | []]].
    + apply (two_quads_occurrence 3 (lit "at ") (lit ", 10.0.0.1. v1.2.3.4"));
        try reflexivity.
      * vm_compute. split; [reflexivity | discriminate].
      * vm_compute. split; [reflexivity | discriminate].
    + apply (two_quads_occurrence 13 (lit "at 10.0.0.1, ") (lit ". v1.2.3.4"));
        try reflexivity.
      * vm_compute. split; [reflexivity | discriminate].
      * vm_compute. split; [reflexivity | intros _; reflexivity].
  - simpl. repeat constructor.
Defined.

(* ----------------------------------------------------------------- *)
(** ** Further properties: input files and the TLD list *)

Lemma find_absent_iff (m s : str) : Py.find s m = (-1)%Z <-> absent m s.
Proof.
  split; [apply absent_of_find|].
  intros Ha. unfold Py.find.
  destruct (find_from_spec m s 0) as [[_ Hf] | [p [[Ho _] _]]];
    [exact Hf | now destruct (Ha p)].
Qed.

(** [rfind] for one character: the last occurrence, when there is one. *)
Lemma rfind_from_char (c0 : ascii) (s : str) (i : Z) :
  (0 <= i)%Z ->
  (Py.rfind_from [c0] s i = (-1)%Z /\ ~ In c0 s) \/
  exists a b, s = a ++ c0 :: b /\ ~ In c0 b /\
              Py.rfind_from [c0] s i = (i + Z.of_nat (length a))%Z.
Proof.
  revert i. induction s as [|c s IH]; intros i Hi;
    cbn [Py.rfind_from Py.startswith]; [left; split; [reflexivity | intros []]|].
  destruct (IH (i + 1)%Z ltac:(lia)) as [[E1 N1] | (a & b & -> & N1 & E1)].
  - rewrite E1. change (0 <=? -1)%Z with false. cbv iota.
    destruct (Ascii.eqb_spec c0 c) as [<-|D].
    + right. exists [], s. repeat split; [exact N1 | simpl; lia].
    + left. split; [reflexivity|]. intros [H|H]; [congruence | contradiction].
  - rewrite E1.
    destruct (Z.leb_spec 0 (i + 1 + Z.of_nat (length a))); [|lia].
    right. exists (c :: a), b.
    repeat split; [exact N1 | simpl length; lia].
Qed.

Lemma rfind_last_char (c0 : ascii) (body : str) :
  Py.rfind (body ++ [c0]) [c0] = Z.of_nat (length body).
Proof.
  unfold Py.rfind.
  destruct (rfind_from_char c0 (body ++ [c0]) 0%Z ltac:(lia))
    as [[_ N] | (a & b & E & N & R)].
  - destruct N. apply in_or_app. right. now left.
  - rewrite R. destruct b as [|y b0].
    + apply app_inj_tail in E. destruct E as [-> _]. lia.
    + exfalso. destruct (@exists_last _ (y :: b0)) as (b' & x & Eb);
        [discriminate|].
      rewrite Eb in E, N.
      change (a ++ c0 :: b' ++ [x]) with (a ++ (c0 :: b') ++ [x]) in E.
      rewrite app_assoc in E. apply app_inj_tail in E. destruct E as [_ <-].
      apply N. apply in_or_app. right. now left.
Qed.

(** X1. [open_mail] ends in [sys.exit(2)] for an argument that is not a
    string, for a path in which [.eml] does not occur, and for a path
    that names no file; for any other path it returns the content of
    the file and leaves everything as it is. *)
Theorem open_mail_preconditions (w : world) :
  (forall o, (forall s, o <> Str s) -> open_mail o w = (Exit 2, w)) /\
  (forall path, absent (lit ".eml") path ->
     open_mail (Str path) w = (Exit 2, w)) /\
  (forall path, ~ absent (lit ".eml") path ->
     lookup_file path (files w) = None ->
     open_mail (Str path) w = (Exit 2, w)) /\
  (forall path text, ~ absent (lit ".eml") path ->
     lookup_file path (files w) = Some text ->
     open_mail (Str path) w = (Ret text, w)).
Proof.
  split; [|split; [|split]].
  - intros [s | b | z |] H; try reflexivity. now destruct (H s).
  - intros path Ha. apply find_absent_iff in Ha. unfold open_mail.
    now rewrite Ha.
  - intros path Ha Hf. unfold open_mail.
    destruct (Z.eqb_spec (Py.find path (lit ".eml")) (-1)) as [E|_].
    + apply find_absent_iff in E. contradiction.
    + unfold bind, read_file, get. now rewrite Hf.
  - intros path text Ha Hf. unfold open_mail.
    destruct (Z.eqb_spec (Py.find path (lit ".eml")) (-1)) as [E|_].
    + apply find_absent_iff in E. contradiction.
    + unfold bind, read_file, get. now rewrite Hf.
Qed.

(** X1 on the sample machine: the mail file, a path without the
    extension, and a path with no file behind it. *)
Lemma open_mail_preconditions_witness :
  open_mail (Str (lit "m.eml")) Sample.world0 = (Ret Sample.mail, Sample.world0) /\
  open_mail (Str (lit "m.txt")) Sample.world0 = (Exit 2, Sample.world0) /\
  open_mail (Str (lit "n.eml")) Sample.world0 = (Exit 2, Sample.world0).
Proof.
  pose proof (open_mail_preconditions Sample.world0) as (_ & H2 & H3 & H4).
  split; [|split].
  - apply H4; [|reflexivity].
    intros Ha. apply (Ha (lit "m")). now exists [].
  - apply H2. apply find_absent_iff. reflexivity.
  - apply H3; [|reflexivity].
    intros Ha. apply (Ha (lit "n")). now exists [].
Defined.

(** X2. Without a file TLD.conf the list of top-level domains is the
    built-in one; with the file it is the content of the file with the
    newlines turned into bars, a newline at the very end left out
    first.  With the two lines [com] and [org] the domain pattern finds
    exactly [example.com] in [visit example.com today]. *)
Theorem tld_config_alternation (w : world) :
  (lookup_file (lit "TLD.conf") (files w) = None ->
     tld_config w = (Ret (lit "com|org|net|int|edu|gov|mil|arpa"), w)) /\
  (forall t, lookup_file (lit "TLD.conf") (files w) = Some t ->
     exists tld, tld_config w = (Ret tld, w) /\
       Forall (fun c => c <> nl) tld /\
       ((forall body, t <> body ++ [nl]) ->
        tld = Py.replace_char nl (lit "|") t) /\
       (forall body, t = body ++ [nl] ->
        tld = Py.replace_char nl (lit "|") body)) /\
  (lookup_file (lit "TLD.conf") (files w)
   = Some (lit "com" ++ nl :: lit "org" ++ [nl]) ->
     tld_config w = (Ret (lit "com|org"), w) /\
     re_findall (DOMAIN (lit "com|org")) (lit "visit example.com today") w
     = (Ret [Re.FStr (lit "example.com")], w)).
Proof.
  assert (Hrep : forall s, Forall (fun c => c <> nl)
                             (Py.replace_char nl (lit "|") s)).
  { induction s as [|c s IH]; simpl; [constructor|].
    destruct (Ascii.eqb_spec c nl) as [->|N]; simpl.
    - constructor; [discriminate | exact IH].
    - constructor; assumption. }
  split; [|split].
  - intros H. unfold tld_config, bind, read_file, get. rewrite H. reflexivity.
  - intros t H. unfold tld_config, bind, read_file, get. rewrite H.
    cbv beta iota zeta. eexists. split; [reflexivity|].
    split; [apply Hrep|]. split.
    + intros Hno.
      destruct (Z.eqb_spec (Z.of_nat (length t) - Py.rfind t [nl]) 1)
        as [E|_]; [|reflexivity].
      unfold Py.rfind in E.
      destruct (rfind_from_char nl t 0%Z ltac:(lia))
        as [[E1 _] | (a & b & -> & _ & E1)]; rewrite E1 in E.
      * destruct t as [|c t]; [reflexivity | simpl length in E; lia].
      * exfalso. rewrite length_app in E. simpl length in E.
        assert (b = []) by (destruct b; [reflexivity | simpl length in E; lia]).
        subst b. now apply (Hno a).
    + intros body ->. rewrite rfind_last_char, length_app. simpl length.
      replace (Z.of_nat (length body + 1) - Z.of_nat (length body) =? 1)%Z
        with true by (symmetry; apply Z.eqb_eq; lia).
      now rewrite slice_to_prefix.
  - intros H. split.
    + unfold tld_config, bind, read_file, get. rewrite H. reflexivity.
    + vm_compute. reflexivity.
Qed.

(** X2 on a machine without TLD.conf and on one with the two lines. *)
Lemma tld_config_alternation_witness :
  tld_config Sample.world0
  = (Ret (lit "com|org|net|int|edu|gov|mil|arpa"), Sample.world0) /\
  tld_config (World [(lit "TLD.conf", lit "com" ++ nl :: lit "org" ++ [nl])]
                ConfMissing [] [] 0 [] [] None)
  = (Ret (lit "com|org"),
     World [(lit "TLD.conf", lit "com" ++ nl :: lit "org" ++ [nl])]
       ConfMissing [] [] 0 [] [] None).
Proof.
  split.
  - apply (proj1 (tld_config_alternation Sample.world0)). reflexivity.
  - apply (proj2 (proj2 (tld_config_alternation
             (World [(lit "TLD.conf", lit "com" ++ nl :: lit "org" ++ [nl])]
                ConfMissing [] [] 0 [] [] None)))).
    reflexivity.
Defined.

(* ----------------------------------------------------------------- *)
(** ** Further properties: the first construction of the gateway *)

Lemma remove_table_absent (db t : str) (ts : list (str * str * list str)) :
  lookup_table db t ts = None -> remove_table db t ts = ts.
Proof.
  induction ts as [|[[d n] rows] ts IH]; simpl; [reflexivity|].
  destruct (str_eqb d db && str_eqb n t); [discriminate|].
  intros H. now rewrite IH.
Qed.

Lemma lookup_table_removed (db t : str) (ts : list (str * str * list str)) :
  lookup_table db t (remove_table db t ts) = None.
Proof.
  induction ts as [|[[d n] rows] ts IH]; simpl; [reflexivity|].
  destruct (str_eqb d db && str_eqb n t) eqn:E; [exact IH|].
  simpl. now rewrite E.
Qed.

Lemma lookup_table_remove_other (db t d n : str)
    (ts : list (str * str * list str)) :
  str_eqb db d && str_eqb t n = false ->
  lookup_table d n (remove_table db t ts) = lookup_table d n ts.
Proof.
  intros H. induction ts as [|[[d' n'] rows] ts IH]; simpl; [reflexivity|].
  destruct (str_eqb d' db && str_eqb n' t) eqn:E.
  - rewrite IH. apply andb_true_iff in E. destruct E as [E1 E2].
    apply str_eqb_eq in E1, E2. subst d' n'. now rewrite H.
  - simpl. now rewrite IH.
Qed.

(** Dropping a table, if it is there, and creating it anew leaves it
    empty. *)
Lemma reset_table (c : connection) (t : str) (w : world) :
  try_finally
    (try_except (execute c (DropTable t)) DbConnection.except_ProgrammingError)
    (bind (execute c (CreateTable t)) (fun _ => ret tt)) w
  = (Ret [],
     set_tables ((conn_database c, t, [])
                   :: remove_table (conn_database c) t (tables w)) w).
Proof.
  unfold try_finally, try_except, bind, execute.
  destruct (lookup_table (conn_database c) t (tables w)) as [rows|] eqn:E.
  - cbn [tables set_tables]. rewrite lookup_table_removed. reflexivity.
  - cbn [DbConnection.except_ProgrammingError ret]. rewrite E.
    now rewrite (remove_table_absent _ _ _ E).
Qed.

Lemma recreated_lookup (db : str) (ts : list (str * str * list str)) :
  lookup_table db (lit "ips") (recreated db ts) = Some [] /\
  lookup_table db (lit "domains") (recreated db ts) = Some [] /\
  (forall d n, str_eqb db d = false ->
     lookup_table d n (recreated db ts) = lookup_table d n ts).
Proof.
  unfold recreated. split; [|split].
  - cbn [lookup_table]. rewrite str_eqb_refl.
    change (str_eqb (lit "domains") (lit "ips")) with false.
    rewrite andb_false_r.
    rewrite lookup_table_remove_other
      by (rewrite str_eqb_refl; reflexivity).
    cbn [lookup_table]. now rewrite !str_eqb_refl.
  - cbn [lookup_table]. now rewrite !str_eqb_refl.
  - intros d n H. cbn [lookup_table].
    assert (H' : str_eqb db d = false) by exact H.
    rewrite H'. cbn [andb].
    rewrite lookup_table_remove_other by (rewrite H'; reflexivity).
    cbn [lookup_table]. rewrite H'. cbn [andb].
    apply lookup_table_remove_other. now rewrite H'.
Qed.

Lemma recreate_tables_eval (self : nat) (c : connection) (w : world) :
  cursor self w = (Ret c, w) ->
  DbConnection.recreate_tables self w
  = (Ret tt, set_tables (recreated (conn_database c) (tables w)) w).
Proof.
  intros Hc. unfold DbConnection.recreate_tables.
  unfold bind at 1. rewrite Hc.
  unfold bind at 1. rewrite reset_table.
  unfold bind at 1. rewrite reset_table.
  reflexivity.
Qed.

Lemma update_nth_last {A : Type} (f : A -> A) (l : list A) (o : A) :
  update_nth (length l) f (l ++ [o]) = l ++ [f o].
Proof. induction l as [|x l IH]; simpl; [reflexivity | now rewrite IH]. Qed.

Lemma nth_error_last {A : Type} (l : list A) (o : A) :
  nth_error (l ++ [o]) (length l) = Some o.
Proof. induction l as [|x l IH]; simpl; [reflexivity | exact IH]. Qed.

Lemma set_attr_World (l : list object) (o : object) (f : object -> object)
    fs cf acc ts cn out inst :
  set_attr (length l) f (World fs cf acc ts cn out (l ++ [o]) inst)
  = (Ret tt, World fs cf acc ts cn out (l ++ [f o]) inst).
Proof.
  unfold set_attr, modify, set_heap. cbn [heap files db_conf accounts tables
    connects stdout _instance]. now rewrite update_nth_last.
Qed.

Lemma get_attr_World {A : Type} (l : list object) (o : object)
    (f : object -> option A) fs cf acc ts cn out inst :
  get_attr (length l) f (World fs cf acc ts cn out (l ++ [o]) inst)
  = match f o with
    | Some a => (Ret a, World fs cf acc ts cn out (l ++ [o]) inst)
    | None => (Raise AttributeError, World fs cf acc ts cn out (l ++ [o]) inst)
    end.
Proof. unfold get_attr. cbn [heap]. now rewrite nth_error_last. Qed.

Lemma connect_World (a : conn_args) fs cf acc ts cn out hp inst :
  connect a (World fs cf acc ts cn out hp inst)
  = if existsb (conn_args_eqb a) acc
    then (Ret (Connection cn (ca_database a)),
          World fs cf acc ts (S cn) out hp inst)
    else (Raise InterfaceError, World fs cf acc ts (S cn) out hp inst).
Proof. reflexivity. Qed.

(** [__init__] on the object [o], the last one allocated, with
    credentials that are not empty: a connection attempt is made; when
    the server accepts it the object holds the connection and the two
    tables of the schema are there and empty, whatever they held; when
    it refuses, [conn] is [None] and the tables are untouched. *)
Lemma init_last_object (l : list object) (o : object) (w : world)
    (h : str) (pt : Z) (u pw db : str) :
  heap w = l ++ [o] -> pw <> [] -> db <> [] ->
  let a := ConnArgs h db u pw pt in
  let done := fun cn => Object (Some h) (Some pt) (Some u) (Some pw) (Some db)
                          (Some cn) in
  DbConnection.__init__ (length l) h pt u pw db w
  = if existsb (conn_args_eqb a) (accounts w) then
      (Ret tt,
       World (files w) (db_conf w) (accounts w) (recreated db (tables w))
         (S (connects w)) (stdout w)
         (l ++ [done (Some (Connection (connects w) db))]) (_instance w))
    else
      (Ret tt,
       World (files w) (db_conf w) (accounts w) (tables w)
         (S (connects w)) (stdout w) (l ++ [done None]) (_instance w)).
Proof.
  intros Hh Hpw Hdb a done.
  destruct pw as [|p0 pw]; [congruence|]. destruct db as [|d0 db]; [congruence|].
  destruct w as [fs cf acc ts cn out hp inst]. cbn [heap] in Hh. subst hp.
  cbn [files db_conf accounts tables connects stdout _instance].
  unfold DbConnection.__init__. cbn [str_eqb negb].
  do 5 (unfold bind at 1; rewrite set_attr_World; cbv beta iota).
  unfold try_except.
  do 5 (unfold bind at 1; rewrite get_attr_World; cbv beta iota;
        cbn [host port user password data_base with_host with_port with_user
             with_password with_data_base]).
  unfold bind at 1. rewrite connect_World. fold a.
  destruct (existsb (conn_args_eqb a) acc).
  - cbv beta iota. unfold bind at 1. rewrite set_attr_World. cbv beta iota.
    cbn [is_connected].
    rewrite (recreate_tables_eval (length l) (Connection cn (d0 :: db))).
    + reflexivity.
    + unfold cursor. unfold bind at 1. rewrite get_attr_World. reflexivity.
  - cbv beta iota. cbn [DbConnection.except_mysql_Error is_mysql_Error].
    rewrite set_attr_World. reflexivity.
Qed.

Lemma construct_first (w : world) (h : str) (pt : Z) (u pw db : str) :
  _instance w = None -> pw <> [] -> db <> [] ->
  let self := length (heap w) in
  let done := fun cn => Object (Some h) (Some pt) (Some u) (Some pw) (Some db)
                          (Some cn) in
  DbConnection.construct h pt u pw db w
  = if existsb (conn_args_eqb (ConnArgs h db u pw pt)) (accounts w) then
      (Ret self,
       World (files w) (db_conf w) (accounts w) (recreated db (tables w))
         (S (connects w)) (stdout w)
         (heap w ++ [done (Some (Connection (connects w) db))]) (Some self))
    else
      (Ret self,
       World (files w) (db_conf w) (accounts w) (tables w)
         (S (connects w)) (stdout w) (heap w ++ [done None]) (Some self)).
Proof.
  intros Hi Hpw Hdb self done.
  unfold DbConnection.construct, DbConnection.__new__.
  unfold bind at 1. rewrite Hi. unfold bind at 1.
  rewrite (init_last_object (heap w) fresh_object
             (set_heap (heap w ++ [fresh_object]) (Some (length (heap w))) w)
             h pt u pw db eq_refl Hpw Hdb).
  cbn [accounts set_heap files db_conf tables connects stdout _instance].
  destruct (existsb _ (accounts w)); reflexivity.
Qed.

(** X3. The first construction in a process, with credentials that
    are not empty and that the server accepts, returns the new object
    holding the connection, after exactly one connection attempt, and
    leaves the tables [ips] and [domains] of the schema in place and
    empty, whatever they held; tables of other schemas are as they
    were. *)
Theorem first_construction_resets_tables (w : world) (h : str) (pt : Z)
    (u pw db : str) :
  _instance w = None -> pw <> [] -> db <> [] ->
  existsb (conn_args_eqb (ConnArgs h db u pw pt)) (accounts w) = true ->
  exists w',
    DbConnection.construct h pt u pw db w = (Ret (length (heap w)), w') /\
    _instance w' = Some (length (heap w)) /\
    connects w' = S (connects w) /\
    option_map conn (nth_error (heap w') (length (heap w)))
    = Some (Some (Some (Connection (connects w) db))) /\
    lookup_table db (lit "ips") (tables w') = Some [] /\
    lookup_table db (lit "domains") (tables w') = Some [] /\
    (forall d n, str_eqb db d = false ->
       lookup_table d n (tables w') = lookup_table d n (tables w)).
Proof.
  intros Hi Hpw Hdb Hacc.
  rewrite (construct_first w h pt u pw db Hi Hpw Hdb), Hacc.
  eexists. split; [reflexivity|]. cbn [_instance connects heap tables].
  split; [reflexivity|]. split; [reflexivity|].
  split; [now rewrite nth_error_last|].
  apply recreated_lookup.
Qed.

(** X3 on the sample machine with rows left over from an earlier run. *)
Lemma first_construction_resets_tables_witness :
  exists w',
    DbConnection.construct (lit "127.0.0.1") 3306 (lit "root") (lit "secret")
      (lit "mail")
      (World [] ConfMissing [Sample.account]
         [(lit "mail", lit "ips", [lit "9.9.9.9"])] 0 [] [] None)
    = (Ret 0, w') /\
    lookup_table (lit "mail") (lit "ips") (tables w') = Some [] /\
    lookup_table (lit "mail") (lit "domains") (tables w') = Some [].
Proof.
  destruct (first_construction_resets_tables
              (World [] ConfMissing [Sample.account]
                 [(lit "mail", lit "ips", [lit "9.9.9.9"])] 0 [] [] None)
              (lit "127.0.0.1") 3306 (lit "root") (lit "secret") (lit "mail"))
    as (w' & E & _ & _ & _ & Hi & Hd & _);
    try reflexivity; try discriminate.
  exists w'. split; [exact E | split; assumption].
Defined.

(** X4. [start_db_connection] ends in [sys.exit(2)] when the
    configuration file is missing (no connection attempt is made) and,
    in a process that has not constructed the gateway yet, when the
    server refuses the configured credentials (one attempt, the tables
    untouched); when the server accepts them it returns the gateway
    with the two tables reset. *)
Theorem start_db_connection_outcomes (w : world) :
  (db_conf w = ConfMissing -> start_db_connection w = (Exit 2, w)) /\
  (forall c, db_conf w = ConfDict c -> _instance w = None ->
     ca_password c <> [] -> ca_database c <> [] ->
     existsb (conn_args_eqb c) (accounts w) = false ->
     exists w', start_db_connection w = (Exit 2, w') /\
                connects w' = S (connects w) /\ tables w' = tables w) /\
  (forall c, db_conf w = ConfDict c -> _instance w = None ->
     ca_password c <> [] -> ca_database c <> [] ->
     existsb (conn_args_eqb c) (accounts w) = true ->
     exists w', start_db_connection w = (Ret (length (heap w)), w') /\
                connects w' = S (connects w) /\
                tables w' = recreated (ca_database c) (tables w)).
Proof.
  split; [|split].
  - intros H. unfold start_db_connection, bind, get. now rewrite H.
  - intros [h d u pw pt] Hc Hi Hpw Hdb Hacc. cbn in Hpw, Hdb.
    unfold start_db_connection. unfold bind at 1. unfold get. rewrite Hc.
    unfold bind at 1. cbn [ret ca_host ca_port ca_user ca_password ca_database].
    unfold bind at 1.
    rewrite (construct_first w h pt u pw d Hi Hpw Hdb), Hacc.
    unfold bind at 1. rewrite get_attr_World. cbn [conn].
    eexists. split; [reflexivity | split; reflexivity].
  - intros [h d u pw pt] Hc Hi Hpw Hdb Hacc. cbn in Hpw, Hdb.
    unfold start_db_connection. unfold bind at 1. unfold get. rewrite Hc.
    unfold bind at 1. cbn [ret ca_host ca_port ca_user ca_password ca_database].
    unfold bind at 1.
    rewrite (construct_first w h pt u pw d Hi Hpw Hdb), Hacc.
    unfold bind at 1. rewrite get_attr_World. cbn [conn].
    eexists. split; [reflexivity | split; reflexivity].
Qed.

(** X4 on the sample machine, and on the same machine with a server
    that knows no account. *)
Lemma start_db_connection_outcomes_witness :
  (exists w', start_db_connection Sample.world0 = (Ret 0, w') /\
              connects w' = 1) /\
  (exists w',
     start_db_connection
       (World [] (ConfDict Sample.account) [] [] 0 [] [] None)
     = (Exit 2, w') /\ connects w' = 1).
Proof.
  split.
  - destruct (proj2 (proj2 (start_db_connection_outcomes Sample.world0))
                Sample.account) as (w' & E & C & _);
      try reflexivity; try discriminate.
    exists w'. split; assumption.
  - destruct (proj1 (proj2 (start_db_connection_outcomes
                (World [] (ConfDict Sample.account) [] [] 0 [] [] None)))
                Sample.account) as (w' & E & C & _);
      try reflexivity; try discriminate.
    exists w'. split; assumption.
Defined.

(** A construction when the class holds the instance [o] already:
    [__init__] runs on it again, so that with accepted credentials the
    object is overwritten with the new configuration, a further
    connection is opened and the tables are reset again. *)
Lemma construct_again_reinitializes (l : list object) (o : object) (w : world)
    (h : str) (pt : Z) (u pw db : str) :
  heap w = l ++ [o] -> _instance w = Some (length l) ->
  pw <> [] -> db <> [] ->
  existsb (conn_args_eqb (ConnArgs h db u pw pt)) (accounts w) = true ->
  DbConnection.construct h pt u pw db w
  = (Ret (length l),
     World (files w) (db_conf w) (accounts w) (recreated db (tables w))
       (S (connects w)) (stdout w)
       (l ++ [Object (Some h) (Some pt) (Some u) (Some pw) (Some db)
                (Some (Some (Connection (connects w) db)))])
       (Some (length l))).
Proof.
  intros Hh Hi Hpw Hdb Hacc.
  rewrite (construct_again (length l) h pt u pw db w Hi).
  unfold bind at 1.
  rewrite (init_last_object l o w h pt u pw db Hh Hpw Hdb), Hacc, Hi.
  reflexivity.
Qed.

(* ----------------------------------------------------------------- *)
(** ** Further properties: what the IPv4 pattern matches *)

Lemma rmatch_chars_inv (cs : Re.cset) (st : Re.mstate) (k : Re.kont)
    (x : Re.mstate) :
  Re.rmatch (Re.Chars cs) st k = Some x ->
  exists c aft, Re.after st = c :: aft /\ Re.cset_mem cs c = true /\
                k (Re.step st c aft) = Some x.
Proof.
  cbn [Re.rmatch]. destruct (Re.after st) as [|c aft]; [discriminate|].
  destruct (Re.cset_mem cs c) eqn:E; [|discriminate].
  intros H. now exists c, aft.
Qed.

Lemma advances_refl (st : Re.mstate) : advances st st [].
Proof. repeat split. Qed.

Lemma advances_step (st st' : Re.mstate) (c : ascii) (aft : str) (g : str) :
  Re.after st = c :: aft -> advances (Re.step st c aft) st' g ->
  advances st st' (c :: g).
Proof.
  intros A (H1 & H2 & H3). cbn [Re.step Re.after Re.before Re.caps] in *.
  split; [|split].
  - rewrite A, H1. reflexivity.
  - rewrite H2. cbn [rev]. now rewrite <- app_assoc.
  - exact H3.
Qed.

Lemma advances_trans (a b c : Re.mstate) (t u : str) :
  advances a b t -> advances b c u -> advances a c (t ++ u).
Proof.
  intros (A1 & B1 & C1) (A2 & B2 & C2). split; [|split].
  - rewrite A1, A2. now rewrite app_assoc.
  - rewrite B2, B1, rev_app_distr. now rewrite app_assoc.
  - congruence.
Qed.

Section CharsRuns.

Variable cs : Re.cset.

Lemma rep_min_chars_inv (lo : nat) (st : Re.mstate) (k : Re.kont)
    (x : Re.mstate) :
  Re.rep_min (Re.rmatch (Re.Chars cs)) lo st k = Some x ->
  exists g st', length g = lo /\
                Forall (fun c => Re.cset_mem cs c = true) g /\
                advances st st' g /\ k st' = Some x.
Proof.
  revert st. induction lo as [|lo IH]; intros st H; cbn [Re.rep_min] in H.
  - exists [], st. repeat split; auto.
  - apply rmatch_chars_inv in H. destruct H as (c & aft & A & M & H).
    apply IH in H. destruct H as (g & st' & L & F & Adv & H).
    exists (c :: g), st'. split; [simpl; lia|].
    split; [now constructor|].
    split; [eapply advances_step; eauto | exact H].
Qed.

Lemma rep_opt_chars_inv (greedy : bool) (n : nat) (st : Re.mstate)
    (k : Re.kont) (x : Re.mstate) :
  Re.rep_opt (Re.rmatch (Re.Chars cs)) greedy n st k = Some x ->
  exists g st', length g <= n /\
                Forall (fun c => Re.cset_mem cs c = true) g /\
                advances st st' g /\ k st' = Some x.
Proof.
  revert st. induction n as [|n IH]; intros st H; cbn [Re.rep_opt] in H.
  - exists [], st. repeat split; auto.
  - assert (Hk : k st = Some x ->
              exists g st', length g <= S n /\
                Forall (fun c => Re.cset_mem cs c = true) g /\
                advances st st' g /\ k st' = Some x).
    { intros E. exists [], st. repeat split; auto. simpl; lia. }
    assert (Hagain :
      Re.rmatch (Re.Chars cs) st
        (fun st' => if Re.progressed st st'
                    then Re.rep_opt (Re.rmatch (Re.Chars cs)) greedy n st' k
                    else k st') = Some x ->
      exists g st', length g <= S n /\
        Forall (fun c => Re.cset_mem cs c = true) g /\
        advances st st' g /\ k st' = Some x).
    { intros E. apply rmatch_chars_inv in E.
      destruct E as (c & aft & A & M & E).
      destruct (Re.progressed st _).
      - apply IH in E. destruct E as (g & st' & L & F & Adv & E).
        exists (c :: g), st'. split; [simpl; lia|].
        split; [now constructor|].
        split; [eapply advances_step; eauto | exact E].
      - exists [c], (Re.step st c aft). split; [simpl; lia|].
        split; [now repeat constructor|].
        split; [|exact E].
        eapply advances_step; [exact A | apply advances_refl]. }
    destruct greedy; unfold Re.orelse in H.
    + destruct (Re.rmatch (Re.Chars cs) st _) eqn:E;
        [injection H as ->; auto | auto].
    + destruct (k st) eqn:E; [injection H as ->; auto | auto].
Qed.

Lemma repeat_chars_inv (lo hi : nat) (greedy : bool) (st : Re.mstate)
    (k : Re.kont) (x : Re.mstate) :
  Re.rmatch (Re.Repeat (Re.Chars cs) lo (Some hi) greedy) st k = Some x ->
  exists g st', lo <= length g <= lo + (hi - lo) /\
                Forall (fun c => Re.cset_mem cs c = true) g /\
                advances st st' g /\ k st' = Some x.
Proof.
  intros H.
  change (Re.rep_min (Re.rmatch (Re.Chars cs)) lo st
            (fun st1 => Re.rep_opt (Re.rmatch (Re.Chars cs)) greedy (hi - lo)
                          st1 k) = Some x) in H.
  apply rep_min_chars_inv in H. destruct H as (g1 & st1 & L1 & F1 & A1 & H).
  apply rep_opt_chars_inv in H. destruct H as (g2 & st2 & L2 & F2 & A2 & H).
  exists (g1 ++ g2), st2. rewrite length_app.
  split; [lia|]. split; [now apply Forall_app|].
  split; [eapply advances_trans; eauto | exact H].
Qed.

End CharsRuns.

Lemma octet_inv (st : Re.mstate) (k : Re.kont) (x : Re.mstate) :
  Re.rmatch r_octet st k = Some x ->
  exists g st', octet g /\ advances st st' g /\ k st' = Some x.
Proof.
  intros H. unfold r_octet, r_digit in H. apply repeat_chars_inv in H.
  destruct H as (g & st' & L & F & A & H).
  exists g, st'. split; [|split; assumption].
  split; [simpl in L; lia|].
  eapply Forall_impl; [|exact F].
  intros c Hc. cbv beta in Hc. now rewrite cset_mem_single in Hc.
Qed.

Lemma dot_octet_inv (st : Re.mstate) (k : Re.kont) (x : Re.mstate) :
  Re.rmatch (Re.Cat r_dot r_octet) st k = Some x ->
  exists g st', octet g /\ advances st st' (dot :: g) /\ k st' = Some x.
Proof.
  intros H.
  change (Re.rmatch r_dot st (fun st1 => Re.rmatch r_octet st1 k) = Some x) in H.
  unfold r_dot in H. apply rmatch_chars_inv in H.
  destruct H as (c & aft & A & M & H).
  rewrite cset_mem_single in M. apply Ascii.eqb_eq in M. subst c.
  apply octet_inv in H. destruct H as (g & st' & Hg & Adv & H).
  exists g, st'. split; [exact Hg|].
  split; [eapply advances_step; eauto | exact H].
Qed.

Lemma quad_inv (st : Re.mstate) (k : Re.kont) (x : Re.mstate) :
  Re.rmatch r_quad st k = Some x ->
  exists t st', dotted_quad t /\ advances st st' t /\ k st' = Some x.
Proof.
  intros H. unfold r_quad in H.
  change (Re.rmatch r_octet st
            (fun st1 =>
               Re.rmatch (Re.Cat r_dot r_octet) st1 (fun st2 =>
               Re.rmatch (Re.Cat r_dot r_octet) st2 (fun st3 =>
               Re.rmatch (Re.Cat r_dot r_octet) st3 k))) = Some x) in H.
  apply octet_inv in H. destruct H as (a & s1 & Ha & A1 & H).
  apply dot_octet_inv in H. destruct H as (b & s2 & Hb & A2 & H).
  apply dot_octet_inv in H. destruct H as (c & s3 & Hc & A3 & H).
  apply dot_octet_inv in H. destruct H as (d & s4 & Hd & A4 & H).
  exists (a ++ dot :: b ++ dot :: c ++ dot :: d), s4.
  split; [now exists a, b, c, d|]. split; [|exact H].
  pose proof (advances_trans _ _ _ _ _ A1
                (advances_trans _ _ _ _ _ A2
                   (advances_trans _ _ _ _ _ A3 A4))) as A.
  cbn [app] in A. repeat (rewrite <- app_assoc in A; cbn [app] in A).
  exact A.
Qed.

Lemma not_behind_inv (st : Re.mstate) (k : Re.kont) (x : Re.mstate) :
  Re.rmatch r_not_behind st k = Some x ->
  clear_behind (Re.before st) /\ k st = Some x.
Proof.
  destruct st as [bef aft caps]. destruct bef as [|c bef];
    [intros H; split; [exact I | exact H]|].
  unfold r_not_behind.
  cbn [Re.rmatch Re.width r_word r_dot Nat.eqb Re.back
       Re.before Re.after Re.caps Re.orelse].
  rewrite !cset_mem_single. cbn [Re.citem_mem xorb clear_behind].
  destruct (Re.is_word c); [discriminate|]. cbn [Re.orelse].
  destruct (Ascii.eqb_spec c dot) as [->|N]; [discriminate|].
  intros H. split; [split; [reflexivity | exact N] | exact H].
Qed.

Lemma not_ahead_inv (st : Re.mstate) (k : Re.kont) (x : Re.mstate) :
  Re.rmatch r_not_ahead st k = Some x ->
  clear_after (Re.after st) /\ k st = Some x.
Proof.
  destruct st as [bef post caps]. unfold r_not_ahead.
  cbn [Re.rmatch Re.rep_min Re.rep_opt Nat.sub Re.after].
  unfold r_dot, r_word.
  destruct post as [|c rest]; [intros H; split; [exact I | exact H]|].
  rewrite !rmatch_chars_cons, !cset_mem_single.
  cbn [Re.citem_mem xorb clear_after].
  destruct (Ascii.eqb_spec c dot) as [->|N].
  - unfold Re.progressed. cbn [Re.after length].
    replace (length rest <? S (length rest)) with true
      by (symmetry; apply Nat.ltb_lt; lia).
    change (Re.is_word dot) with false.
    destruct rest as [|d rest].
    + cbn [Re.rmatch Re.after Re.orelse]. intros H.
      split; [split; [reflexivity | trivial] | exact H].
    + rewrite rmatch_chars_cons, cset_mem_single. cbn [Re.citem_mem xorb].
      destruct (Re.is_word d); cbn [Re.orelse]; [discriminate|].
      intros H. split; [split; [reflexivity | intros _; reflexivity] | exact H].
  - destruct (Re.is_word c); cbn [Re.orelse]; [discriminate|].
    intros H. split; [split; [reflexivity | intros E; contradiction] | exact H].
Qed.

(** An attempt of the IPv4 pattern succeeds only on a free-standing
    dotted quad, which it matches whole and captures as group 1. *)
Lemma ipv4_try_at_inv (adv : bool) (bef aft : str) (st' : Re.mstate) :
  Re.try_at ipv4_regex adv bef aft = Some st' ->
  exists t post,
    aft = t ++ post /\ dotted_quad t /\ clear_behind bef /\ clear_after post /\
    st' = Re.MState (rev t ++ bef) post [(1, t)].
Proof.
  unfold Re.try_at, ipv4_regex. intros H.
  change (Re.rmatch r_not_behind (Re.MState bef aft [])
            (fun st1 =>
               Re.rmatch r_quad st1 (fun s =>
                 Re.rmatch r_not_ahead
                   (Re.MState (Re.before s) (Re.after s)
                      ((1, Re.matched_text st1 s) :: Re.caps s))
                   (fun s' =>
                      if adv && (length (Re.after s') =? length aft)
                      then None else Some s')))
          = Some st') in H.
  apply not_behind_inv in H. destruct H as [Hb H].
  apply quad_inv in H. destruct H as (t & s & Hq & (A & B & C) & H).
  apply not_ahead_inv in H. destruct H as [Ha H].
  cbn [Re.before Re.after Re.caps] in *.
  destruct (adv && _); [discriminate|]. injection H as <-.
  exists t, (Re.after s). split; [exact A|].
  split; [exact Hq|]. split; [exact Hb|]. split; [exact Ha|].
  rewrite B, C.
  replace (Re.matched_text (Re.MState bef aft []) s) with t; [reflexivity|].
  destruct s as [sb sa sc]. cbn [Re.before] in B. subst sb.
  symmetry. apply matched_text_over.
Qed.

(** Every match the scan reports is a successful attempt at the
    position it is reported for. *)
Lemma scan_sound (r : Re.regex) (ng : nat) (aft bef : str) (skip pos : nat)
    (i : nat) (x : Re.fitem) :
  In (i, x) (Re.scan r ng bef aft skip pos) ->
  exists p rest adv st',
    aft = p ++ rest /\ i = pos + length p /\
    Re.try_at r adv (rev p ++ bef) rest = Some st' /\
    x = Re.item_of ng (Re.MState (rev p ++ bef) rest []) st'.
Proof.
  revert bef skip pos. induction aft as [|c aft IH]; intros bef skip pos.
  - destruct skip as [|n]; [|intros []].
    rewrite scan_0. unfold scan_next.
    destruct (Re.try_at r false bef []) as [st1|] eqn:T1; [|intros []].
    intros [[= <- <-] | H].
    + exists [], [], false, st1. repeat split; auto.
    + destruct (Re.consumed [] st1); [|destruct H].
      destruct (Re.try_at r true bef []) as [st2|] eqn:T2; [|destruct H].
      destruct H as [[= <- <-] | []].
      exists [], [], true, st2. repeat split; auto.
  - assert (Hnext : forall n,
              In (i, x) (Re.scan r ng (c :: bef) aft n (S pos)) ->
              exists p rest adv st',
                c :: aft = p ++ rest /\ i = pos + length p /\
                Re.try_at r adv (rev p ++ bef) rest = Some st' /\
                x = Re.item_of ng (Re.MState (rev p ++ bef) rest []) st').
    { intros n H. apply IH in H.
      destruct H as (p & rest & adv & st' & -> & -> & T & ->).
      exists (c :: p), rest, adv, st'. cbn [rev length app].
      rewrite <- app_assoc. cbn [app].
      repeat split; auto; lia. }
    destruct skip as [|n]; [|apply Hnext].
    rewrite scan_0. unfold scan_next.
    destruct (Re.try_at r false bef (c :: aft)) as [st1|] eqn:T1;
      [|apply Hnext].
    intros [[= <- <-] | H].
    + exists [], (c :: aft), false, st1. repeat split; auto.
    + destruct (Re.consumed (c :: aft) st1); [|now apply Hnext in H].
      destruct (Re.try_at r true bef (c :: aft)) as [st2|] eqn:T2;
        [|now apply Hnext in H].
      destruct H as [[= <- <-] | H]; [|now apply Hnext in H].
      exists [], (c :: aft), true, st2. repeat split; auto.
Qed.

(** X5. What the IPv4 extraction returns is exactly the free-standing
    dotted quads of the document: an entry of the match list at
    position [i] is the text of a dotted quad that stands at [i], not
    after a word character or a dot and not before a word character or
    a dot and a word character; and every such quad is an entry. *)
Theorem ipv4_matches_exactly (doc : str) (i : nat) :
  (forall x, In (i, x) (ipv4_spans doc) ->
     exists t, x = Re.FStr t /\ ipv4_occurrence doc i t) /\
  (forall t, In (i, Re.FStr t) (ipv4_spans doc) <-> ipv4_occurrence doc i t).
Proof.
  assert (S : forall x, In (i, x) (ipv4_spans doc) ->
                exists t, x = Re.FStr t /\ ipv4_occurrence doc i t).
  { intros x H. rewrite ipv4_spans_eq in H. unfold Re.spans in H.
    apply scan_sound in H.
    destruct H as (p & rest & adv & st' & -> & -> & T & ->).
    rewrite app_nil_r in *. apply ipv4_try_at_inv in T.
    destruct T as (t & post & -> & Hq & Hb & Ha & ->).
    exists t. split; [reflexivity|].
    exists p, post. split; [reflexivity|]. split; [reflexivity|].
    split; [exact Hq|]. split; [now apply clear_before_of_rev | exact Ha]. }
  split; [exact S|].
  intros t. split; [|apply ipv4_occurrence_found].
  intros H. destruct (S _ H) as (t' & [= <-] & Ho). exact Ho.
Qed.

(** X5 on the document with two addresses and a version string: the
    entry at offset 3 is a free-standing dotted quad, and nothing is
    reported for the version string at offset 24. *)
Lemma ipv4_matches_exactly_witness :
  ipv4_occurrence two_quads 3 (lit "10.0.0.1") /\
  ~ ipv4_occurrence two_quads 24 (lit "1.2.3.4").
Proof.
  split.
  - apply (proj1 (proj2 (ipv4_matches_exactly two_quads 3) (lit "10.0.0.1"))).
    vm_compute. left. reflexivity.
  - intros H.
    apply (proj2 (proj2 (ipv4_matches_exactly two_quads 24) (lit "1.2.3.4")))
      in H.
    vm_compute in H. destruct H as [H | [H | []]]; discriminate.
Defined.

(* ----------------------------------------------------------------- *)
(** ** Further properties: the texts a pattern can match *)

Section MatchesIn.

Variable L : str -> Prop.
Variable N : nat -> Prop.
Variable body : Re.mstate -> Re.kont -> option Re.mstate.
Hypothesis body_ok : matches_in L N body.

Lemma matches_in_rep_min (lo : nat) :
  matches_in (fun t => exists ts, t = concat ts /\ Forall L ts /\
                                  length ts = lo)
             N (Re.rep_min body lo).
Proof.
  induction lo as [|lo IH]; intros st k x H; cbn [Re.rep_min] in H.
  - exists st, []. split; [apply extends_refl|].
    split; [exists []; repeat split; constructor|]. split; [reflexivity | exact H].
  - apply body_ok in H. destruct H as (st1 & t1 & E1 & L1 & C1 & H).
    apply IH in H.
    destruct H as (st2 & t2 & E2 & (ts & -> & F & Len) & C2 & H).
    exists st2, (t1 ++ concat ts). split; [eapply extends_trans; eauto|].
    split; [exists (t1 :: ts); repeat split;
            [constructor; assumption | cbn [length]; now rewrite Len]|].
    split; [|exact H].
    intros n Hn. now rewrite C2, C1.
Qed.

Lemma matches_in_rep_opt (greedy : bool) (count : nat) :
  matches_in (fun t => exists ts, t = concat ts /\ Forall L ts /\
                                  length ts <= count)
             N (Re.rep_opt body greedy count).
Proof.
  induction count as [|count IH]; intros st k x H; cbn [Re.rep_opt] in H.
  - exists st, []. split; [apply extends_refl|].
    split; [exists []; repeat split; constructor|]. split; [reflexivity | exact H].
  - assert (Hk : k st = Some x ->
              exists st' t, extends st st' t /\
                (exists ts, t = concat ts /\ Forall L ts /\
                            length ts <= S count) /\
                (forall n, N n -> Re.lookup_cap n (Re.caps st')
                                  = Re.lookup_cap n (Re.caps st)) /\
                k st' = Some x).
    { intros E. exists st, []. split; [apply extends_refl|].
      split; [exists []; repeat split; [constructor | cbn; lia]|].
      split; [reflexivity | exact E]. }
    assert (Hagain :
      body st (fun st' => if Re.progressed st st'
                          then Re.rep_opt body greedy count st' k else k st')
      = Some x ->
      exists st' t, extends st st' t /\
        (exists ts, t = concat ts /\ Forall L ts /\ length ts <= S count) /\
        (forall n, N n -> Re.lookup_cap n (Re.caps st')
                          = Re.lookup_cap n (Re.caps st)) /\
        k st' = Some x).
    { intros E. apply body_ok in E. destruct E as (st1 & t1 & E1 & L1 & C1 & E).
      destruct (Re.progressed st st1).
      - apply IH in E.
        destruct E as (st2 & t2 & E2 & (ts & -> & F & Len) & C2 & E).
        exists st2, (t1 ++ concat ts). split; [eapply extends_trans; eauto|].
        split; [exists (t1 :: ts); repeat split;
                [constructor; assumption | cbn [length]; lia]|].
        split; [|exact E]. intros n Hn. now rewrite C2, C1.
      - exists st1, t1. split; [exact E1|].
        split; [exists [t1]; cbn [concat]; rewrite app_nil_r; repeat split;
                [constructor; [assumption | constructor] | cbn; lia]|].
        split; [exact C1 | exact E]. }
    destruct greedy; unfold Re.orelse in H.
    + destruct (body st _) eqn:E; [injection H as ->; auto | auto].
    + destruct (k st) eqn:E; [injection H as ->; auto | auto].
Qed.

End MatchesIn.

Lemma lookup_cap_other (n m : nat) (t : str) (cs : list (nat * str)) :
  n <> m -> Re.lookup_cap n ((m, t) :: cs) = Re.lookup_cap n cs.
Proof.
  intros H. cbn [Re.lookup_cap].
  destruct (Nat.eqb_spec n m); [contradiction | reflexivity].
Qed.

(** Whatever way the matcher finds through a pattern, the text it
    moved over is one of the pattern's texts, and the groups the
    pattern does not contain are as they were. *)
Lemma rmatch_lang (r : Re.regex) :
  matches_in (lang r) (fun n => no_group n r) (Re.rmatch r).
Proof.
  induction r as [| cs | r1 IH1 r2 IH2 | r1 IH1 r2 IH2 | r1 IH1 lo hi greedy
                 | g r1 IH1 | ahead neg r1 IH1 | | ];
    intros st k x H; cbn [Re.rmatch] in H.
  - exists st, []. repeat split; auto using extends_refl.
  - destruct (Re.after st) as [|c aft] eqn:A; [discriminate|].
    destruct (Re.cset_mem cs c) eqn:M; [|discriminate].
    exists (Re.step st c aft), [c]. split; [split; [exact A | reflexivity]|].
    split; [now exists c|]. split; [reflexivity | exact H].
  - apply IH1 in H. destruct H as (st1 & t1 & E1 & L1 & C1 & H).
    apply IH2 in H. destruct H as (st2 & t2 & E2 & L2 & C2 & H).
    exists st2, (t1 ++ t2). split; [eapply extends_trans; eauto|].
    split; [now exists t1, t2|]. split; [|exact H].
    intros n [N1 N2]. now rewrite (C2 n N2), (C1 n N1).
  - unfold Re.orelse in H. destruct (Re.rmatch r1 st k) eqn:E.
    + injection H as ->. apply IH1 in E.
      destruct E as (st1 & t1 & E1 & L1 & C1 & E).
      exists st1, t1. split; [exact E1|]. split; [now left|].
      split; [|exact E]. intros n [N1 N2]. now apply C1.
    + apply IH2 in H. destruct H as (st1 & t1 & E1 & L1 & C1 & H).
      exists st1, t1. split; [exact E1|]. split; [now right|].
      split; [|exact H]. intros n [N1 N2]. now apply C1.
  - apply (matches_in_rep_min _ _ _ IH1 lo) in H.
    destruct H as (st1 & t1 & E1 & (ts1 & -> & F1 & Len1) & C1 & H).
    apply (matches_in_rep_opt _ _ _ IH1) in H.
    destruct H as (st2 & t2 & E2 & (ts2 & -> & F2 & Len2) & C2 & H).
    exists st2, (concat ts1 ++ concat ts2).
    split; [eapply extends_trans; eauto|].
    split; [|split; [|exact H]].
    + exists (ts1 ++ ts2). rewrite concat_app, length_app.
      split; [reflexivity|]. split; [now apply Forall_app|].
      split; [lia|]. destruct hi as [h|]; [lia | exact I].
    + intros n Hn. cbn [no_group] in Hn. now rewrite (C2 n Hn), (C1 n Hn).
  - apply IH1 in H. destruct H as (st1 & t1 & E1 & L1 & C1 & H).
    eexists _, t1. split; [eapply extends_caps; exact E1|].
    split; [exact L1|]. split; [|exact H].
    intros n [Hn N1]. cbn [Re.caps]. rewrite lookup_cap_other by exact Hn.
    now apply C1.
  - assert (Hk : forall s1, k (Re.MState (Re.before st) (Re.after st)
                                 (Re.caps s1)) = Some x ->
              (forall n, no_group n r1 ->
                 Re.lookup_cap n (Re.caps s1) = Re.lookup_cap n (Re.caps st)) ->
              exists st' t, extends st st' t /\ t = [] /\
                (forall n, no_group n r1 ->
                   Re.lookup_cap n (Re.caps st')
                   = Re.lookup_cap n (Re.caps st)) /\
                k st' = Some x).
    { intros s1 E C. eexists _, []. split; [apply extends_caps, extends_refl|].
      split; [reflexivity|]. split; [exact C | exact E]. }
    assert (Hst : k st = Some x ->
              exists st' t, extends st st' t /\ t = [] /\
                (forall n, no_group n r1 ->
                   Re.lookup_cap n (Re.caps st')
                   = Re.lookup_cap n (Re.caps st)) /\
                k st' = Some x).
    { intros E. exists st, []. repeat split; auto using extends_refl. }
    cbn [lang no_group].
    destruct ahead.
    + destruct (Re.rmatch r1 st _) as [s1|] eqn:E1; destruct neg;
        try discriminate; auto.
      apply IH1 in E1. destruct E1 as (s & t & _ & _ & C & [= ->]).
      eapply Hk; eauto.
    + destruct (Re.width r1) as [wd|]; [|destruct neg; try discriminate; auto].
      destruct (Re.back wd _ _) as [[bef aft]|];
        [|destruct neg; try discriminate; auto].
      destruct (Re.rmatch r1 _ _) as [s1|] eqn:E1; destruct neg;
        try discriminate; auto.
      apply IH1 in E1. destruct E1 as (s & t & _ & _ & C & [= ->]).
      eapply Hk; eauto.
  - destruct (Re.before st); [|discriminate].
    exists st, []. repeat split; auto using extends_refl.
  - destruct (Re.at_end (Re.after st)); [|discriminate].
    exists st, []. repeat split; auto using extends_refl.
Qed.

Lemma compile_IPV6 : Re.compile IPV6 = Some (ipv6_regex, 1).
Proof. vm_compute. reflexivity. Qed.

Lemma compile_DOMAIN_default :
  Re.compile (DOMAIN default_tld_list) = Some (domain_regex default_tlds, 1).
Proof. vm_compute. reflexivity. Qed.

Lemma ipv6_spans_eq (doc : str) : ipv6_spans doc = Re.spans ipv6_regex 1 doc.
Proof. unfold ipv6_spans. now rewrite compile_IPV6. Qed.

Lemma domain_spans_default (doc : str) :
  domain_spans default_tld_list doc
  = Re.spans (domain_regex default_tlds) 1 doc.
Proof. unfold domain_spans. now rewrite compile_DOMAIN_default. Qed.

(** A repeat of a character class matches a run of its characters. *)
Lemma lang_run (cs : Re.cset) (lo : nat) (hi : option nat) (g : bool)
    (t : str) :
  lang (Re.Repeat (Re.Chars cs) lo hi g) t ->
  Forall (fun c => Re.cset_mem cs c = true) t /\ lo <= length t /\
  match hi with Some h => length t <= lo + (h - lo) | None => True end.
Proof.
  cbn [lang]. intros (ts & -> & F & Lo & Hi).
  assert (E : length (concat ts) = length ts /\
              Forall (fun c => Re.cset_mem cs c = true) (concat ts)).
  { clear Lo Hi. induction F as [|t ts (c & -> & M) F IH]; cbn.
    - split; [reflexivity | constructor].
    - destruct IH as [IH1 IH2]. split; [now rewrite IH1 | now constructor]. }
  destruct E as [E1 E2]. rewrite E1. auto.
Qed.

Lemma lang_text (s t : str) : lang (r_text s) t -> t = s.
Proof.
  revert t. induction s as [|c s IH]; intros t; [exact (fun H => H)|].
  destruct s as [|d s].
  - cbn [r_text lang]. intros (x & -> & M). rewrite cset_mem_single in M.
    cbn [Re.citem_mem] in M. apply Ascii.eqb_eq in M. now subst.
  - change (r_text (c :: d :: s))
      with (Re.Cat (Re.Chars (Re.CSet false [Re.CChar c])) (r_text (d :: s))).
    cbn [lang]. intros (t1 & t2 & -> & (x & -> & M) & H).
    rewrite cset_mem_single in M. cbn [Re.citem_mem] in M.
    apply Ascii.eqb_eq in M. subst x. apply IH in H. now subst.
Qed.

Lemma lang_any_of (l : list str) (t : str) :
  l <> [] -> lang (r_any_of l) t -> In t l.
Proof.
  induction l as [|s l IH]; [congruence|]. intros _.
  destruct l as [|s' l].
  - cbn [r_any_of]. intros H. left. symmetry. now apply lang_text.
  - change (r_any_of (s :: s' :: l))
      with (Re.Alt (r_text s) (r_any_of (s' :: l))).
    cbn [lang]. intros [H | H].
    + left. symmetry. now apply lang_text.
    + right. apply IH; [discriminate | exact H].
Qed.

Lemma is_hex_mem (c : ascii) : Re.cset_mem hexes c = is_hex c.
Proof.
  unfold hexes, is_hex. cbn [Re.cset_mem existsb Re.citem_mem xorb].
  change (Re.code "A") with 65. change (Re.code "F") with 70.
  change (Re.code "a") with 97. change (Re.code "f") with 102.
  now rewrite orb_false_r, orb_assoc.
Qed.

Lemma lang_hextet (t : str) : lang r_hextet t -> hextet t.
Proof.
  intros H. apply lang_run in H. destruct H as (F & _ & Hi).
  split; [cbn in Hi; lia|].
  eapply Forall_impl; [|exact F]. intros c M. now rewrite <- is_hex_mem.
Qed.

Lemma lang_colon_groups (t : str) : lang r_colon_groups t -> colon_groups t.
Proof.
  unfold r_colon_groups. cbn [lang].
  intros (t1 & t2 & -> & H1 & (ts & -> & F & Lo & Hi)).
  change (lang r_hextet t1) in H1. apply lang_hextet in H1.
  assert (G : exists gs, Forall hextet gs /\ length gs = length ts /\
                         concat ts = concat (map (cons colon) gs)).
  { clear Lo Hi. induction F as [|u ts (u1 & u2 & -> & (c & -> & M) & H2) F IH].
    - exists []. repeat split. constructor.
    - destruct IH as (gs & Fg & Lg & Eg).
      change (lang r_hextet u2) in H2. apply lang_hextet in H2.
      rewrite cset_mem_single in M. cbn [Re.citem_mem] in M.
      apply Ascii.eqb_eq in M. subst c.
      exists (u2 :: gs). split; [now constructor|].
      split; [cbn [length]; now rewrite Lg|].
      cbn [concat map app]. now rewrite Eg. }
  destruct G as (gs & Fg & Lg & Eg).
  exists t1, gs. split; [exact H1|]. split; [exact Fg|].
  split; [cbn in Hi; lia|]. now rewrite Eg.
Qed.

Lemma group_inv (n : nat) (r : Re.regex) (st : Re.mstate) (k : Re.kont)
    (x : Re.mstate) :
  Re.rmatch (Re.Group n r) st k = Some x ->
  exists st' t,
    extends st st' t /\ lang r t /\
    k (Re.MState (Re.before st') (Re.after st') ((n, t) :: Re.caps st'))
    = Some x.
Proof.
  cbn [Re.rmatch]. intros H. apply rmatch_lang in H.
  destruct H as (st' & t & E & Lt & _ & H).
  exists st', t. split; [exact E|]. split; [exact Lt|].
  replace (Re.matched_text st st') with t in H; [exact H|].
  destruct st as [b a c], st' as [b' a' c']. destruct E as [_ E].
  cbn [Re.before] in E. subst b'. symmetry. apply matched_text_over.
Qed.

Lemma rmatch_cat (a b : Re.regex) (st : Re.mstate) (k : Re.kont) :
  Re.rmatch (Re.Cat a b) st k
  = Re.rmatch a st (fun s => Re.rmatch b s k).
Proof. reflexivity. Qed.

Lemma rmatch_group (n : nat) (r : Re.regex) (st : Re.mstate) (k : Re.kont) :
  Re.rmatch (Re.Group n r) st k
  = Re.rmatch r st (fun s =>
      k (Re.MState (Re.before s) (Re.after s)
           ((n, Re.matched_text st s) :: Re.caps s))).
Proof. reflexivity. Qed.

Lemma matched_text_extends (st st' : Re.mstate) (t : str) :
  extends st st' t -> Re.matched_text st st' = t.
Proof.
  destruct st as [b a c], st' as [b' a' c']. intros [_ E].
  cbn [Re.before] in E. subst b'. apply matched_text_over.
Qed.

(** An attempt of the IPv6 pattern succeeds only on colon groups
    standing free, which it captures as group 1. *)
Lemma ipv6_try_at_inv (adv : bool) (bef aft : str) (st' : Re.mstate) :
  Re.try_at ipv6_regex adv bef aft = Some st' ->
  exists t post,
    aft = t ++ post /\ colon_groups t /\ clear_behind bef /\
    clear_after post /\
    Re.item_of 1 (Re.MState bef aft []) st' = Re.FStr t.
Proof.
  unfold Re.try_at, ipv6_regex. rewrite rmatch_cat. intros H.
  apply not_behind_inv in H. destruct H as [Hb H].
  rewrite rmatch_group, rmatch_cat in H.
  apply rmatch_lang in H. destruct H as (s1 & t1 & E1 & L1 & _ & H).
  rewrite rmatch_cat in H.
  apply rmatch_lang in H. destruct H as (s2 & t2 & E2 & L2 & _ & H).
  apply not_ahead_inv in H. destruct H as [Ha H].
  pose proof (extends_trans _ _ _ _ _ E1 E2) as E.
  rewrite (matched_text_extends _ _ _ E) in H.
  cbn [Re.after] in H. destruct (adv && _); [discriminate|].
  injection H as <-.
  exists (t1 ++ t2), (Re.after s2).
  split; [exact (proj1 E)|].
  split; [apply lang_colon_groups; now exists t1, t2|].
  split; [exact Hb|]. split; [exact Ha|].
  cbn [Re.item_of]. unfold Re.group_text. cbn [Re.caps Re.lookup_cap Nat.eqb].
  reflexivity.
Qed.

Lemma word_or_hyphen_mem (c : ascii) :
  Re.cset_mem word_or_hyphen c = true -> Re.is_word c = true \/ c = hyphen.
Proof.
  unfold word_or_hyphen. cbn [Re.cset_mem existsb Re.citem_mem xorb].
  rewrite orb_false_r. intros H. apply orb_true_iff in H.
  destruct H as [H | H]; [now left | right; now apply Ascii.eqb_eq].
Qed.

Lemma lang_word (t : str) : lang (Re.Repeat r_word 1 None true) t -> word t.
Proof.
  unfold r_word. intros H. apply lang_run in H. destruct H as (F & Lo & _).
  split; [intros ->; cbn in Lo; lia|].
  eapply Forall_impl; [|exact F]. intros c M. cbv beta in M.
  now rewrite cset_mem_single in M.
Qed.

Lemma lang_domain (tlds : list str) (t : str) :
  tlds <> [] -> lang (r_domain tlds) t -> domain_name tlds t.
Proof.
  intros Hne. unfold r_domain. cbn [lang].
  intros (t1 & u1 & -> & H1 & t2 & u2 & -> & (ts & -> & F & _ & _)
          & t3 & t4 & -> & (c & -> & M) & H4).
  change (lang (Re.Repeat (Re.Chars word_or_hyphen) 1 None true) t1) in H1.
  apply lang_run in H1. destruct H1 as (F1 & Lo1 & _).
  rewrite cset_mem_single in M. cbn [Re.citem_mem] in M.
  apply Ascii.eqb_eq in M. subst c.
  apply (lang_any_of _ _ Hne) in H4.
  assert (G : exists ls, Forall word ls /\
                         concat ts = concat (map (cons dot) ls)).
  { induction F as [|u ts (u1 & u2 & -> & (c & -> & Mc) & H2) F IH].
    - exists []. split; [constructor | reflexivity].
    - destruct IH as (ls & Fl & El).
      change (lang (Re.Repeat r_word 1 None true) u2) in H2.
      apply lang_word in H2.
      rewrite cset_mem_single in Mc. cbn [Re.citem_mem] in Mc.
      apply Ascii.eqb_eq in Mc. subst c.
      exists (u2 :: ls). split; [now constructor|].
      cbn [concat map app]. now rewrite El. }
  destruct G as (ls & Fl & El).
  exists t1, ls, t4. split; [split|].
  - intros ->. cbn in Lo1. lia.
  - eapply Forall_impl; [|exact F1]. intros c M. cbv beta in M |- *.
    exact (word_or_hyphen_mem c M).
  - split; [exact Fl|]. split; [exact H4|]. now rewrite El.
Qed.

(** An attempt of the domain pattern succeeds only on a domain name
    standing free, which it captures as group 1. *)
Lemma domain_try_at_inv (tlds : list str) (adv : bool) (bef aft : str)
    (st' : Re.mstate) :
  tlds <> [] ->
  Re.try_at (domain_regex tlds) adv bef aft = Some st' ->
  exists t post,
    aft = t ++ post /\ domain_name tlds t /\ clear_behind bef /\
    clear_after post /\
    Re.item_of 1 (Re.MState bef aft []) st' = Re.FStr t.
Proof.
  intros Hne. unfold Re.try_at, domain_regex. rewrite rmatch_cat. intros H.
  apply not_behind_inv in H. destruct H as [Hb H].
  rewrite rmatch_cat in H. apply group_inv in H.
  destruct H as (s1 & t & E & Lt & H).
  apply not_ahead_inv in H. destruct H as [Ha H].
  cbn [Re.after] in H, Ha. destruct (adv && _); [discriminate|].
  injection H as <-.
  exists t, (Re.after s1).
  split; [exact (proj1 E)|].
  split; [now apply lang_domain|].
  split; [exact Hb|]. split; [exact Ha|].
  cbn [Re.item_of]. unfold Re.group_text. cbn [Re.caps Re.lookup_cap Nat.eqb].
  reflexivity.
Qed.

(** The entries of a scan are what successful attempts captured. *)
Lemma spans_sound (r : Re.regex) (ng : nat) (doc : str) (i : nat)
    (x : Re.fitem) :
  In (i, x) (Re.spans r ng doc) ->
  exists pre rest adv st',
    doc = pre ++ rest /\ length pre = i /\
    Re.try_at r adv (rev pre) rest = Some st' /\
    x = Re.item_of ng (Re.MState (rev pre) rest []) st'.
Proof.
  unfold Re.spans. intros H. apply scan_sound in H.
  destruct H as (p & rest & adv & st' & -> & -> & T & ->).
  rewrite app_nil_r in *. now exists p, rest, adv, st'.
Qed.

Lemma ipv6_chars : chars_in hex_or_colon ipv6_regex.
Proof.
  assert (H : forall c, Re.cset_mem hexes c = true -> hex_or_colon c).
  { intros c M. left. now rewrite <- is_hex_mem. }
  assert (C : forall c, Re.cset_mem (Re.CSet false [Re.CChar colon]) c = true
                        -> hex_or_colon c).
  { intros c M. rewrite cset_mem_single in M. right.
    now apply Ascii.eqb_eq in M. }
  simpl. auto.
Qed.

(** X6. What the IPv6 extraction returns: the texts of the matches in
    the order of their positions, which increase strictly; each is a
    run of at most four hexadecimal digits followed by four to eight
    groups of a colon and at most four hexadecimal digits, and stands
    at its position in the document, not after a word character or a
    dot and not before a word character or a dot and a word character.
    So a text with fewer than four colons is never returned. *)
Theorem ipv6_extraction_shape (doc : str) :
  (forall w, re_findall IPV6 doc w = (Ret (map snd (ipv6_spans doc)), w)) /\
  StronglySorted lt (map fst (ipv6_spans doc)) /\
  (forall i x, In (i, x) (ipv6_spans doc) ->
     exists t, x = Re.FStr t /\ ipv6_occurrence doc i t) /\
  (forall i t, In (i, Re.FStr t) (ipv6_spans doc) ->
     4 <= count_occ ascii_dec t colon /\ length t <= 44).
Proof.
  assert (S : forall i x, In (i, x) (ipv6_spans doc) ->
                exists t, x = Re.FStr t /\ ipv6_occurrence doc i t).
  { intros i x H. rewrite ipv6_spans_eq in H. apply spans_sound in H.
    destruct H as (pre & rest & adv & st' & -> & <- & T & ->).
    apply ipv6_try_at_inv in T.
    destruct T as (t & post & -> & Hs & Hb & Ha & ->).
    exists t. split; [reflexivity|].
    exists pre, post. split; [reflexivity|]. split; [reflexivity|].
    split; [exact Hs|]. split; [now apply clear_before_of_rev | exact Ha]. }
  split; [|split; [|split; [exact S|]]].
  - intros w. unfold re_findall, Re.findall.
    rewrite ipv6_spans_eq, compile_IPV6. reflexivity.
  - rewrite ipv6_spans_eq. unfold Re.spans.
    apply (scan_sorted ipv6_regex 1 hex_or_colon ipv6_chars).
    simpl. lia.
  - intros i t H. destruct (S _ _ H) as (t' & [= <-] & pre & post & _ & _
                                         & (g & gs & Hg & Fg & Lg & ->) & _).
    assert (G : length gs <= count_occ ascii_dec (concat (map (cons colon) gs))
                               colon /\
                length (concat (map (cons colon) gs)) <= 5 * length gs).
    { clear Lg H. induction Fg as [|h gs [Lh _] Fg IH]; [cbn; lia|].
      destruct IH as [IH1 IH2].
      cbn [map concat length app].
      rewrite count_occ_cons_eq by reflexivity.
      rewrite count_occ_app, length_app. lia. }
    rewrite count_occ_app, length_app. destruct Hg as [Lg0 _]. lia.
Qed.

(* ----------------------------------------------------------------- *)
(** ** Further properties: what the stored values are made of *)

Lemma chars_in_True (r : Re.regex) : chars_in (fun _ => True) r.
Proof. induction r; simpl; auto. Qed.

Lemma domain_min_width (tlds : list str) : 1 <= min_width (domain_regex tlds).
Proof. simpl. lia. Qed.

Lemma word_plain (c : ascii) : Re.is_word c = true -> sql_plain c.
Proof. intros H. split; intros ->; now vm_compute in H. Qed.

Lemma digit_plain (c : ascii) : Re.is_digit c = true -> sql_plain c.
Proof. intros H. apply word_plain. now apply is_digit_is_word. Qed.

Lemma hex_plain (c : ascii) : is_hex c = true -> sql_plain c.
Proof. intros H. split; intros ->; now vm_compute in H. Qed.

Lemma concat_map_cons_plain (sep : ascii) (P : str -> Prop) (gs : list str) :
  sql_plain sep -> (forall g, P g -> Forall sql_plain g) -> Forall P gs ->
  Forall sql_plain (concat (map (cons sep) gs)).
Proof.
  intros Hsep HP F. induction F as [|g gs Hg F IH]; [constructor|].
  cbn [map concat]. apply Forall_app. split; [|exact IH].
  constructor; [exact Hsep | now apply HP].
Qed.

Lemma dotted_quad_plain (t : str) : dotted_quad t -> Forall sql_plain t.
Proof.
  assert (D : sql_plain dot) by (split; discriminate).
  assert (O : forall g, octet g -> Forall sql_plain g).
  { intros g [_ F]. eapply Forall_impl; [|exact F]. apply digit_plain. }
  intros (a & b & c & d & Ha & Hb & Hc & Hd & ->).
  repeat (apply Forall_app; split; [now apply O|]; constructor; [exact D|]).
  now apply O.
Qed.

Lemma colon_groups_plain (t : str) : colon_groups t -> Forall sql_plain t.
Proof.
  assert (H : forall g, hextet g -> Forall sql_plain g).
  { intros g [_ F]. eapply Forall_impl; [|exact F]. apply hex_plain. }
  intros (g & gs & Hg & Fg & _ & ->). apply Forall_app.
  split; [now apply H|].
  apply (concat_map_cons_plain colon hextet); auto. split; discriminate.
Qed.

Lemma domain_name_plain (tlds : list str) (t : str) :
  Forall (Forall sql_plain) tlds ->
  domain_name tlds t -> Forall sql_plain t.
Proof.
  assert (D : sql_plain dot) by (split; discriminate).
  intros Hp (f & ls & tld & [_ Ff] & Fl & Ht & ->).
  apply Forall_app. split.
  - eapply Forall_impl; [|exact Ff]. intros c [H | ->];
      [now apply word_plain | split; discriminate].
  - apply Forall_app. split.
    + apply (concat_map_cons_plain dot word); auto.
      intros g [_ F]. eapply Forall_impl; [|exact F]. apply word_plain.
    + constructor; [exact D|].
      rewrite Forall_forall in Hp. now apply Hp.
Qed.

Lemma storable_iff (v : str) :
  storable v = true <-> length v <= 255 /\ Forall sql_plain v.
Proof.
  unfold storable. rewrite andb_true_iff, Nat.leb_le, forallb_forall.
  rewrite Forall_forall. unfold sql_plain, quote, backslash.
  split; intros [L H]; (split; [exact L|]); intros c Hc.
  - apply H in Hc. apply negb_true_iff, orb_false_iff in Hc.
    destruct Hc as [H1 H2]. split; intros ->; discriminate.
  - destruct (H c Hc) as [H1 H2]. apply negb_true_iff, orb_false_iff.
    split; apply Ascii.eqb_neq; assumption.
Qed.

Lemma octet_length (g : str) : octet g -> length g <= 3.
Proof. intros [L _]. lia. Qed.

Lemma dotted_quad_storable (t : str) : dotted_quad t -> storable t = true.
Proof.
  intros H. apply storable_iff. split; [|now apply dotted_quad_plain].
  destruct H as (a & b & c & d & Ha & Hb & Hc & Hd & ->).
  apply octet_length in Ha, Hb, Hc, Hd.
  repeat (rewrite length_app; cbn [length]). lia.
Qed.

Lemma colon_groups_length (t : str) : colon_groups t -> length t <= 44.
Proof.
  intros (g & gs & [Lg _] & Fg & Lgs & ->).
  assert (G : length (concat (map (cons colon) gs)) <= 5 * length gs).
  { clear Lgs. induction Fg as [|h gs [Lh _] Fg IH]; [cbn; lia|].
    cbn [map concat length app]. rewrite length_app. lia. }
  rewrite length_app. lia.
Qed.

Lemma colon_groups_storable (t : str) : colon_groups t -> storable t = true.
Proof.
  intros H. apply storable_iff.
  split; [apply colon_groups_length in H; lia | now apply colon_groups_plain].
Qed.

(* ----------------------------------------------------------------- *)
(** ** Further properties: what a run stores and prints *)

Lemma set_tables_same (w : world) : set_tables (tables w) w = w.
Proof. now destruct w. Qed.

Lemma set_tables_twice (ts ts' : list (str * str * list str)) (w : world) :
  set_tables ts (set_tables ts' w) = set_tables ts w.
Proof. reflexivity. Qed.

(** Inserting the values [vs] one after the other appends them to the
    rows of the table and touches no other table. *)
Lemma insert_all_strings (c : connection) (t : str) (vs : list str)
    (w : world) (rows : list str) :
  lookup_table (conn_database c) t (tables w) = Some rows ->
  Forall (fun v => storable v = true) vs ->
  exists ts,
    insert_all c t (map Re.FStr vs) w = (Ret tt, set_tables ts w) /\
    lookup_table (conn_database c) t ts = Some (rows ++ vs) /\
    (forall d n, str_eqb (conn_database c) d && str_eqb t n = false ->
       lookup_table d n ts = lookup_table d n (tables w)).
Proof.
  revert w rows. induction vs as [|v vs IH]; intros w rows Hl Hs.
  - exists (tables w). rewrite set_tables_same, app_nil_r.
    split; [reflexivity|]. split; [exact Hl | reflexivity].
  - inversion Hs as [|? ? Hv Hvs]. subst.
    unfold insert_all. cbn [map for_each].
    unfold bind at 1. unfold bind at 1. cbn [percent_s ret].
    unfold bind at 1. unfold execute at 1. rewrite Hv, Hl.
    set (w1 := set_tables _ w).
    destruct (IH w1 (rows ++ [v])) as (ts & E & L1 & L2).
    { unfold w1. cbn [tables set_tables lookup_table].
      now rewrite !str_eqb_refl. }
    { exact Hvs. }
    exists ts. unfold insert_all in E.
    change (ret tt w1) with (@Ret unit tt, w1). cbv beta iota. rewrite E.
    split; [reflexivity|]. split; [now rewrite L1, <- app_assoc|].
    intros d n Hd. rewrite (L2 d n Hd). unfold w1.
    cbn [tables set_tables lookup_table].
    assert (Hd' : str_eqb (conn_database c) d && str_eqb t n = false)
      by exact Hd.
    rewrite Hd'. now apply lookup_table_remove_other.
Qed.

(** A pattern with one group gives a list of strings. *)
Lemma findall_strings (pattern doc : str) (r : Re.regex) :
  Re.compile pattern = Some (r, 1) ->
  exists vs, Re.findall pattern doc = Some (map Re.FStr vs).
Proof.
  intros C. unfold Re.findall. rewrite C.
  assert (H : forall l : list (nat * Re.fitem),
                (forall p, In p l -> exists i st0 st',
                   p = (i, Re.item_of 1 st0 st')) ->
                exists vs, map snd l = map Re.FStr vs).
  { induction l as [|p l IH]; intros Hl; [now exists []|].
    destruct IH as (vs & E); [intros q Hq; apply Hl; now right|].
    destruct (Hl p (or_introl eq_refl)) as (i & st0 & st' & ->).
    exists (Re.group_text 1 st' :: vs). cbn [map snd Re.item_of].
    now rewrite E. }
  destruct (H (Re.spans r 1 doc)) as (vs & E).
  - intros [i x] Hp. apply spans_sound in Hp.
    destruct Hp as (pre & rest & adv & st' & _ & _ & _ & ->).
    now exists i, (Re.MState (rev pre) rest []), st'.
  - exists vs. now rewrite E.
Qed.

Lemma map_FStr_inj (a b : list str) :
  map Re.FStr a = map Re.FStr b -> a = b.
Proof.
  revert b. induction a as [|x a IH]; intros [|y b] H; try discriminate;
    [reflexivity|].
  cbn [map] in H. injection H as -> H. f_equal. now apply IH.
Qed.

Lemma findall_is (pattern doc : str) (vs l : list str) :
  Re.findall pattern doc = Some (map Re.FStr vs) ->
  Re.findall pattern doc = Some (map Re.FStr l) -> vs = l.
Proof. intros H1 H2. rewrite H1 in H2. injection H2. apply map_FStr_inj. Qed.

Lemma tld_config_default (w : world) :
  lookup_file (lit "TLD.conf") (files w) = None ->
  tld_config w = (Ret default_tld_list, w).
Proof.
  intros H. unfold tld_config, bind, read_file, get. rewrite H. reflexivity.
Qed.

(** The address matches are values that the INSERT statement
    stores. *)
Lemma ipv4_values_storable (doc : str) (v4 : list str) :
  Re.findall IPV4 doc = Some (map Re.FStr v4) ->
  Forall (fun t => storable t = true) v4.
Proof.
  unfold Re.findall. rewrite compile_IPV4. intros [= F].
  apply Forall_forall. intros t Ht.
  assert (Hx : In (Re.FStr t) (map snd (Re.spans ipv4_regex 1 doc)))
    by (rewrite F; now apply in_map).
  apply in_map_iff in Hx. destruct Hx as ([i y] & E & Hx). cbn [snd] in E.
  subst y. apply spans_sound in Hx.
  destruct Hx as (pre & rest & adv & st' & _ & _ & T & E).
  apply ipv4_try_at_inv in T. destruct T as (t' & post & _ & Hd & _ & _ & ->).
  cbn in E. injection E as ->. now apply dotted_quad_storable.
Qed.

Lemma ipv6_values_storable (doc : str) (v6 : list str) :
  Re.findall IPV6 doc = Some (map Re.FStr v6) ->
  Forall (fun t => storable t = true) v6.
Proof.
  unfold Re.findall. rewrite compile_IPV6. intros [= F].
  apply Forall_forall. intros t Ht.
  assert (Hx : In (Re.FStr t) (map snd (Re.spans ipv6_regex 1 doc)))
    by (rewrite F; now apply in_map).
  apply in_map_iff in Hx. destruct Hx as ([i y] & E & Hx). cbn [snd] in E.
  subst y. apply spans_sound in Hx.
  destruct Hx as (pre & rest & adv & st' & _ & _ & T & E).
  apply ipv6_try_at_inv in T. destruct T as (t' & post & _ & Hd & _ & _ & E').
  rewrite E' in E. injection E as ->. now apply colon_groups_storable.
Qed.

(** [parse_mail] on a gateway that holds a connection, with both
    tables in place. *)
Lemma parse_mail_eval (content : str) (db_conn : nat) (w : world)
    (o : object) (c : connection) (ips_rows dom_rows : list str)
    (tld : str) (v4 v6 dm : list str) :
  nth_error (heap w) db_conn = Some o -> conn o = Some (Some c) ->
  lookup_table (conn_database c) (lit "ips") (tables w) = Some ips_rows ->
  lookup_table (conn_database c) (lit "domains") (tables w) = Some dom_rows ->
  tld_config w = (Ret tld, w) ->
  Re.findall IPV4 content = Some (map Re.FStr v4) ->
  Re.findall IPV6 content = Some (map Re.FStr v6) ->
  Re.findall (DOMAIN tld) content = Some (map Re.FStr dm) ->
  Forall (fun t => storable t = true) dm ->
  exists ts,
    parse_mail (Str content) db_conn w = (Ret tt, set_tables ts w) /\
    lookup_table (conn_database c) (lit "ips") ts
    = Some (ips_rows ++ v4 ++ v6) /\
    lookup_table (conn_database c) (lit "domains") ts
    = Some (dom_rows ++ dm) /\
    (forall d n,
       str_eqb (conn_database c) d && str_eqb (lit "ips") n = false ->
       str_eqb (conn_database c) d && str_eqb (lit "domains") n = false ->
       lookup_table d n ts = lookup_table d n (tables w)).
Proof.
  intros Ho Hc Hi Hd Ht F4 F6 Fd Sd.
  pose proof (ipv4_values_storable content v4 F4) as S4.
  pose proof (ipv6_values_storable content v6 F6) as S6.
  assert (Hid : str_eqb (conn_database c) (conn_database c)
                && str_eqb (lit "ips") (lit "domains") = false)
    by (rewrite str_eqb_refl; reflexivity).
  assert (Hdi : str_eqb (conn_database c) (conn_database c)
                && str_eqb (lit "domains") (lit "ips") = false)
    by (rewrite str_eqb_refl; reflexivity).
  destruct (insert_all_strings c (lit "ips") v4 w ips_rows Hi S4)
    as (ts1 & E1 & L1 & O1).
  destruct (insert_all_strings c (lit "ips") v6 (set_tables ts1 w)
              (ips_rows ++ v4) L1 S6) as (ts2 & E2 & L2 & O2).
  rewrite set_tables_twice in E2. cbn [tables set_tables] in O2.
  destruct (insert_all_strings c (lit "domains") dm (set_tables ts2 w)
              dom_rows) as (ts3 & E3 & L3 & O3).
  { cbn [tables set_tables]. now rewrite (O2 _ _ Hid), (O1 _ _ Hid). }
  { exact Sd. }
  rewrite set_tables_twice in E3. cbn [tables set_tables] in O3.
  exists ts3. split; [|split; [|split]].
  - unfold parse_mail, re_findall. rewrite F4, F6.
    unfold bind at 1. cbn [ret]. unfold bind at 1. cbn [ret].
    unfold bind at 1. rewrite Ht.
    unfold bind at 1. rewrite Fd. cbn [ret].
    unfold bind at 1. rewrite (cursor_ok _ _ _ _ Ho Hc).
    unfold bind at 1. rewrite E1.
    unfold bind at 1. rewrite E2.
    unfold bind at 1. rewrite E3.
    unfold bind at 1. rewrite (cursor_ok db_conn (set_tables ts3 w) o c Ho Hc).
    reflexivity.
  - rewrite (O3 _ _ Hdi), L2. now rewrite <- app_assoc.
  - exact L3.
  - intros d n H1 H2. now rewrite (O3 d n H2), (O2 d n H1), (O1 d n H1).
Qed.

(** X7. [parse_mail] on a gateway that holds a connection, with both
    tables in place, when the domain search returns strings each of
    which the INSERT statement stores as it is (at most 255
    characters for the [VARCHAR(255)] column, no double quote and no
    backslash between the quotes of the SQL literal): the two address
    searches return strings that the statement stores as well; the
    call returns, having appended the IPv4 matches and after them the
    IPv6 matches to the rows of [ips] and the domain matches to the
    rows of [domains], each list in document order with its
    repetitions; no other table and nothing else on the machine
    changes, and nothing is printed. *)
Theorem parse_mail_stores (content : str) (db_conn : nat) (w : world)
    (o : object) (c : connection) (ips_rows dom_rows : list str)
    (tld : str) (dm : list str) :
  nth_error (heap w) db_conn = Some o -> conn o = Some (Some c) ->
  lookup_table (conn_database c) (lit "ips") (tables w) = Some ips_rows ->
  lookup_table (conn_database c) (lit "domains") (tables w) = Some dom_rows ->
  tld_config w = (Ret tld, w) ->
  Re.findall (DOMAIN tld) content = Some (map Re.FStr dm) ->
  Forall (fun t => storable t = true) dm ->
  exists v4 v6 ts,
    Re.findall IPV4 content = Some (map Re.FStr v4) /\
    Re.findall IPV6 content = Some (map Re.FStr v6) /\
    Forall (fun t => storable t = true) (v4 ++ v6) /\
    parse_mail (Str content) db_conn w = (Ret tt, set_tables ts w) /\
    lookup_table (conn_database c) (lit "ips") ts
    = Some (ips_rows ++ v4 ++ v6) /\
    lookup_table (conn_database c) (lit "domains") ts
    = Some (dom_rows ++ dm) /\
    (forall d n,
       str_eqb (conn_database c) d && str_eqb (lit "ips") n = false ->
       str_eqb (conn_database c) d && str_eqb (lit "domains") n = false ->
       lookup_table d n ts = lookup_table d n (tables w)).
Proof.
  intros Ho Hc Hi Hd Ht Fd Sd.
  destruct (findall_strings IPV4 content _ compile_IPV4) as (v4 & F4).
  destruct (findall_strings IPV6 content _ compile_IPV6) as (v6 & F6).
  destruct (parse_mail_eval content db_conn w o c ips_rows dom_rows tld
              v4 v6 dm Ho Hc Hi Hd Ht F4 F6 Fd Sd) as (ts & E & L).
  exists v4, v6, ts.
  split; [exact F4|]. split; [exact F6|]. split; [|split; [exact E | exact L]].
  apply Forall_app. split;
    [now apply (ipv4_values_storable content)
    | now apply (ipv6_values_storable content)].
Qed.

(** X7 on a session with one address stored already and the sample
    mail: its three addresses and two domains are appended. *)
Lemma parse_mail_stores_witness :
  exists ts,
    parse_mail (Str Sample.mail) 0 (stored [lit "9.9.9.9"] [])
    = (Ret tt, set_tables ts (stored [lit "9.9.9.9"] [])) /\
    lookup_table (lit "mail") (lit "ips") ts
    = Some [lit "9.9.9.9"; lit "1.2.3.4"; lit "1.2.3.4"; lit "5.6.7.8"] /\
    lookup_table (lit "mail") (lit "domains") ts
    = Some [lit "b.com"; lit "d.com"].
Proof.
  assert (Fd : Re.findall (DOMAIN default_tld_list) Sample.mail
               = Some (map Re.FStr [lit "b.com"; lit "d.com"]))
    by (vm_compute; reflexivity).
  assert (Sd : Forall (fun t => storable t = true) [lit "b.com"; lit "d.com"])
    by (repeat constructor).
  destruct (parse_mail_stores Sample.mail 0 (stored [lit "9.9.9.9"] [])
              (Object (Some (lit "127.0.0.1")) (Some 3306%Z) (Some (lit "root"))
                 (Some (lit "secret")) (Some (lit "mail"))
                 (Some (Some (Connection 0 (lit "mail")))))
              (Connection 0 (lit "mail")) [lit "9.9.9.9"] []
              default_tld_list [lit "b.com"; lit "d.com"]
              eq_refl eq_refl eq_refl eq_refl eq_refl Fd Sd)
    as (v4 & v6 & ts & F4 & F6 & _ & E & Li & Ld & _).
  exists ts. split; [exact E|].
  assert (E4 : v4 = [lit "1.2.3.4"; lit "1.2.3.4"; lit "5.6.7.8"])
    by (apply (findall_is _ _ _ _ F4); vm_compute; reflexivity).
  assert (E6 : v6 = [])
    by (apply (findall_is _ _ _ _ F6); vm_compute; reflexivity).
  subst v4 v6. split; [exact Li | exact Ld].
Defined.



(** The head of the query result has the largest count. *)
Lemma select_grouped_head_max (rows : list str) (r0 : str * nat)
    (rest : list (str * nat)) (v : str) :
  select_grouped rows = r0 :: rest -> In v rows ->
  count_occ str_eq_dec rows v <= snd r0.
Proof.
  intros E Hv.
  assert (Hin : In (v, count_occ str_eq_dec rows v) (select_grouped rows))
    by (apply select_grouped_In; auto).
  pose proof (order_by_count_desc_sorted (group_by_value rows)) as S.
  fold (select_grouped rows) in S. rewrite E in S, Hin.
  destruct Hin as [-> | Hin]; [cbn; lia|].
  apply StronglySorted_inv in S. destruct S as [_ F].
  rewrite Forall_forall in F. apply (F _ Hin).
Qed.

(** [get_ips_and_domains] on a gateway that holds a connection, with
    both tables in place. *)
Lemma get_ips_and_domains_eval (db_conn : nat) (w : world) (o : object)
    (c : connection) (ips_rows dom_rows : list str) :
  nth_error (heap w) db_conn = Some o -> conn o = Some (Some c) ->
  lookup_table (conn_database c) (lit "ips") (tables w) = Some ips_rows ->
  lookup_table (conn_database c) (lit "domains") (tables w) = Some dom_rows ->
  get_ips_and_domains db_conn w
  = (match dom_rows with [] => Raise IndexError | _ :: _ => Ret tt end,
     set_stdout
       (stdout w ++ (Text (nl :: lit "IPs:")
                       :: ips_lines (select_grouped ips_rows))
                 ++ Text (nl :: lit "Domains:")
                      :: domains_lines (select_grouped dom_rows)) w).
Proof.
  intros Ho Hc Hi Hd.
  rewrite (get_ips_and_domains_steps _ _ _ _ _ _ Ho Hc Hi Hd).
  destruct (select_grouped dom_rows) as [|r0 rest] eqn:E.
  - apply select_grouped_nil in E. subst dom_rows. reflexivity.
  - destruct dom_rows as [|d dom_rows]; [discriminate|].
    unfold try_except, bind, first_row, ret, domains_lines.
    destruct (negb (snd r0 =? 1)).
    + rewrite (for_each_print line_with_count) by reflexivity.
      cbn [stdout set_stdout fst snd]. unfold set_stdout.
      cbn [files db_conf accounts tables connects heap _instance].
      rewrite <- !app_assoc. reflexivity.
    + reflexivity.
Qed.

(** X9. When some value is stored in [domains] more than once,
    [get_ips_and_domains] returns having printed, after the label of
    the domains section, every distinct domain with its count, in
    order of descending count, domains stored once included.  The IPs
    section does the same when some address is stored more than once.
    Nothing but the standard output changes. *)
Theorem get_ips_and_domains_counts (db_conn : nat) (w : world)
    (o : object) (c : connection) (ips_rows dom_rows : list str) (v : str) :
  nth_error (heap w) db_conn = Some o -> conn o = Some (Some c) ->
  lookup_table (conn_database c) (lit "ips") (tables w) = Some ips_rows ->
  lookup_table (conn_database c) (lit "domains") (tables w) = Some dom_rows ->
  2 <= count_occ str_eq_dec dom_rows v ->
  exists out,
    get_ips_and_domains db_conn w = (Ret tt, set_stdout out w) /\
    out = stdout w ++ (Text (nl :: lit "IPs:")
                         :: ips_lines (select_grouped ips_rows))
                   ++ Text (nl :: lit "Domains:")
                        :: map line_with_count (select_grouped dom_rows) /\
    (forall u, In u dom_rows ->
       In (line_with_count (u, count_occ str_eq_dec dom_rows u)) out) /\
    (forall u, 2 <= count_occ str_eq_dec ips_rows u ->
       ips_lines (select_grouped ips_rows)
       = map line_with_count (select_grouped ips_rows)).
Proof.
  intros Ho Hc Hi Hd Hv.
  assert (first_not_one : forall rows u,
    2 <= count_occ str_eq_dec rows u ->
    exists r0 rest, select_grouped rows = r0 :: rest /\
                    negb (snd r0 =? 1) = true).
  { intros rows u Hu.
    assert (Hin : In u rows) by (apply (count_occ_In str_eq_dec); lia).
    destruct (select_grouped rows) as [|r0 rest] eqn:E.
    - apply select_grouped_nil in E. subst rows. destruct Hin.
    - exists r0, rest. split; [reflexivity|].
      pose proof (select_grouped_head_max rows r0 rest u E Hin) as M.
      apply negb_true_iff, Nat.eqb_neq. lia. }
  rewrite (get_ips_and_domains_eval _ _ _ _ _ _ Ho Hc Hi Hd).
  destruct (first_not_one dom_rows v Hv) as (r0 & rest & E & N).
  destruct dom_rows as [|d dom_rows]; [cbn in Hv; lia|].
  unfold domains_lines. rewrite E, N, <- E.
  eexists. split; [reflexivity|]. split; [reflexivity|]. split.
  - intros u Hu. apply in_or_app. right. apply in_or_app. right. right.
    apply in_map. now apply select_grouped_In.
  - intros u Hu. destruct (first_not_one ips_rows u Hu) as (i0 & irest & Ei & Ni).
    unfold ips_lines. now rewrite Ei, Ni.
Qed.

(** X9 with one domain stored twice and another once. *)
Lemma get_ips_and_domains_counts_witness :
  get_ips_and_domains 0
    (stored [lit "1.2.3.4"] [lit "b.com"; lit "d.com"; lit "b.com"])
  = (Ret tt,
     set_stdout
       [Text (nl :: lit "IPs:"); Text (lit "1.2.3.4");
        Text (nl :: lit "Domains:");
        Text (lit "b.com " ++ tab :: lit " 2");
        Text (lit "d.com " ++ tab :: lit " 1")]
       (stored [lit "1.2.3.4"] [lit "b.com"; lit "d.com"; lit "b.com"])).
Proof.
  destruct (get_ips_and_domains_counts 0
              (stored [lit "1.2.3.4"] [lit "b.com"; lit "d.com"; lit "b.com"])
              (Object (Some (lit "127.0.0.1")) (Some 3306%Z) (Some (lit "root"))
                 (Some (lit "secret")) (Some (lit "mail"))
                 (Some (Some (Connection 0 (lit "mail")))))
              (Connection 0 (lit "mail"))
              [lit "1.2.3.4"] [lit "b.com"; lit "d.com"; lit "b.com"]
              (lit "b.com") eq_refl eq_refl eq_refl eq_refl)
    as (out & E & -> & _).
  - vm_compute. lia.
  - rewrite E. vm_compute. reflexivity.
Defined.

(* ----------------------------------------------------------------- *)
(** ** Further properties: the main block *)

Lemma start_db_connection_connected (w : world) (c : conn_args) :
  db_conf w = ConfDict c -> _instance w = None ->
  ca_password c <> [] -> ca_database c <> [] ->
  existsb (conn_args_eqb c) (accounts w) = true ->
  start_db_connection w = (Ret (length (heap w)), connected c w).
Proof.
  destruct c as [h d u pw pt]. intros Hc Hi Hpw Hdb Hacc. cbn in Hpw, Hdb.
  unfold start_db_connection. unfold bind at 1. unfold get. rewrite Hc.
  unfold bind at 1. cbn [ret ca_host ca_port ca_user ca_password ca_database].
  unfold bind at 1.
  rewrite (construct_first w h pt u pw d Hi Hpw Hdb), Hacc.
  unfold bind at 1. rewrite get_attr_World. reflexivity.
Qed.

Lemma start_db_connection_refused (w : world) (c : conn_args) :
  db_conf w = ConfDict c -> _instance w = None ->
  ca_password c <> [] -> ca_database c <> [] ->
  existsb (conn_args_eqb c) (accounts w) = false ->
  exists w', start_db_connection w = (Exit 2, w') /\
             tables w' = tables w /\ stdout w' = stdout w.
Proof.
  destruct c as [h d u pw pt]. intros Hc Hi Hpw Hdb Hacc. cbn in Hpw, Hdb.
  unfold start_db_connection. unfold bind at 1. unfold get. rewrite Hc.
  unfold bind at 1. cbn [ret ca_host ca_port ca_user ca_password ca_database].
  unfold bind at 1.
  rewrite (construct_first w h pt u pw d Hi Hpw Hdb), Hacc.
  unfold bind at 1. rewrite get_attr_World. cbn [conn].
  eexists. split; [reflexivity | split; reflexivity].
Qed.

Lemma open_mail_reads (path text : str) (w : world) :
  Py.find path (lit ".eml") <> (-1)%Z ->
  lookup_file path (files w) = Some text ->
  open_mail (Str path) w = (Ret text, w).
Proof.
  intros Hf Hl. unfold open_mail.
  destruct (Z.eqb_spec (Py.find path (lit ".eml")) (-1)); [contradiction|].
  unfold bind, read_file, get. now rewrite Hl.
Qed.

Lemma open_mail_exits (path : str) (w : world) :
  Py.find path (lit ".eml") = (-1)%Z \/ lookup_file path (files w) = None ->
  open_mail (Str path) w = (Exit 2, w).
Proof.
  intros H. unfold open_mail.
  destruct (Z.eqb_spec (Py.find path (lit ".eml")) (-1)); [reflexivity|].
  destruct H as [H | H]; [contradiction|].
  unfold bind, read_file, get. now rewrite H.
Qed.

Lemma tld_config_same_files (w w' : world) (tld : str) :
  files w' = files w -> tld_config w = (Ret tld, w) ->
  tld_config w' = (Ret tld, w').
Proof.
  intros Hf. unfold tld_config, bind, read_file, get, ret. rewrite Hf.
  intros [= <-]. reflexivity.
Qed.

(** The header search reads nothing of the machine and leaves it as
    it is. *)
Lemma search_mode_pure (a : args) (t : str) (w w' : world) :
  search_mode a t w' = (fst (search_mode a t w), w').
Proof.
  assert (H : forall s p, header_search (Str t) s p w'
                          = (fst (header_search (Str t) s p w), w')).
  { intros s p. unfold header_search, re_findall, bind, ret, sys_exit, raise.
    destruct (str_eqb p [] && negb (str_eqb s []));
      [|destruct (negb (str_eqb p []) && str_eqb s [])].
    - destruct (Re.findall (lit ".*" ++ s ++ lit ".*") (get_header t));
        [|destruct (Re.beyond _)]; reflexivity.
    - destruct (Re.findall p (get_header t)); [|destruct (Re.beyond _)];
        reflexivity.
    - reflexivity. }
  unfold search_mode. destruct (truthy (pattern a)).
  - unfold bind. rewrite H.
    destruct (header_search (Str t) [] (arg_value (pattern a)) w)
      as [[r | x | e] w1]; reflexivity.
  - destruct (truthy (substring a)); [|reflexivity].
    unfold bind. rewrite H.
    destruct (header_search (Str t) (arg_value (substring a)) [] w)
      as [[r | x | e] w1]; reflexivity.
Qed.

Lemma search_results_print (res : option (list Re.fitem)) (w : world) :
  match res with
  | Some (h :: t) =>
      bind (print (Text (nl :: lit "Search results:")))
           (fun _ => for_each (h :: t) print_item)
  | _ => ret tt
  end w
  = (Ret tt, set_stdout (stdout w ++ search_lines res) w).
Proof.
  assert (F : forall l w1, for_each l print_item w1
                           = (Ret tt, set_stdout (stdout w1 ++ map item_line l) w1)).
  { induction l as [|x l IH]; intros w1; cbn [for_each map].
    - now rewrite app_nil_r, set_stdout_same.
    - unfold bind.
      replace (print_item x) with (print (item_line x)) by (now destruct x).
      unfold print at 1, modify. rewrite IH.
      cbn [stdout set_stdout]. unfold set_stdout.
      cbn [files db_conf accounts tables connects heap _instance].
      now rewrite <- app_assoc. }
  destruct res as [[|h t]|]; cbn [search_lines];
    try (rewrite app_nil_r, set_stdout_same; reflexivity).
  unfold bind at 1. unfold print at 1, modify. rewrite F.
  cbn [stdout set_stdout]. unfold set_stdout.
  cbn [files db_conf accounts tables connects heap _instance].
  now rewrite <- app_assoc.
Qed.

Lemma connected_lookup (c : conn_args) (w : world) :
  nth_error (heap (connected c w)) (length (heap w))
  = Some (connected_object c (connects w)) /\
  lookup_table (ca_database c) (lit "ips") (tables (connected c w)) = Some [] /\
  lookup_table (ca_database c) (lit "domains") (tables (connected c w))
  = Some [].
Proof.
  split; [apply nth_error_last|].
  destruct (recreated_lookup (ca_database c) (tables w)) as (Hi & Hd & _).
  split; assumption.
Qed.

(** X10. A whole run, in a process that has no gateway yet, with a
    configuration the server accepts, a mail file whose path holds
    [.eml], a header search (if any) that returns, and a domain search
    that returns strings each of which the INSERT statement stores as
    it is (at most 255 characters, no double quote, no backslash): the
    tables [ips] and [domains] of the schema end up holding exactly
    the matches of this mail (IPv4 matches, then IPv6 matches; domain
    matches), whatever they held before; printed are the search
    results (when there are any), the IPs section over the grouped
    addresses and the domains section over the grouped domains.  The
    run ends normally when the mail has a domain, and in [IndexError]
    after the label of the domains section when it has none. *)
Theorem main_run (a : args) (w : world) (c : conn_args) (mail tld : str)
    (dm : list str) (res : option (list Re.fitem)) :
  db_conf w = ConfDict c -> _instance w = None ->
  ca_password c <> [] -> ca_database c <> [] ->
  existsb (conn_args_eqb c) (accounts w) = true ->
  Py.find (mail_path a) (lit ".eml") <> (-1)%Z ->
  lookup_file (mail_path a) (files w) = Some mail ->
  tld_config w = (Ret tld, w) ->
  Re.findall (DOMAIN tld) mail = Some (map Re.FStr dm) ->
  Forall (fun t => storable t = true) dm ->
  fst (search_mode a mail w) = Ret res ->
  exists v4 v6 ts,
    Re.findall IPV4 mail = Some (map Re.FStr v4) /\
    Re.findall IPV6 mail = Some (map Re.FStr v6) /\
    lookup_table (ca_database c) (lit "ips") ts = Some (v4 ++ v6) /\
    lookup_table (ca_database c) (lit "domains") ts = Some dm /\
    main a w
    = (match dm with [] => Raise IndexError | _ :: _ => Ret tt end,
       set_stdout
         (stdout w ++ search_lines res
            ++ (Text (nl :: lit "IPs:")
                  :: ips_lines (select_grouped (v4 ++ v6)))
            ++ Text (nl :: lit "Domains:")
                 :: domains_lines (select_grouped dm))
         (set_tables ts (connected c w))).
Proof.
  intros Hc Hi Hpw Hdb Hacc Hf Hl Ht Fd Sd Hs.
  destruct (connected_lookup c w) as (Ho & Li & Ld).
  set (w1 := connected c w) in *.
  set (cn := Connection (connects w) (ca_database c)).
  assert (Ht1 : tld_config w1 = (Ret tld, w1))
    by (apply (tld_config_same_files w); [reflexivity | exact Ht]).
  destruct (findall_strings IPV4 mail _ compile_IPV4) as (v4 & F4).
  destruct (findall_strings IPV6 mail _ compile_IPV6) as (v6 & F6).
  destruct (parse_mail_eval mail (length (heap w)) w1
              (connected_object c (connects w)) cn [] [] tld v4 v6 dm
              Ho eq_refl Li Ld Ht1 F4 F6 Fd Sd) as (ts & E & Pi & Pd & _).
  cbn [app conn_database cn] in Pi, Pd.
  exists v4, v6, ts.
  split; [exact F4|]. split; [exact F6|].
  split; [exact Pi|]. split; [exact Pd|].
  unfold main. unfold bind at 1.
  rewrite (start_db_connection_connected w c Hc Hi Hpw Hdb Hacc). fold w1.
  unfold bind at 1. rewrite (open_mail_reads _ mail w1 Hf Hl).
  unfold bind at 1. rewrite E.
  unfold bind at 1. rewrite (search_mode_pure a mail w), Hs.
  unfold bind at 1. rewrite search_results_print.
  rewrite (get_ips_and_domains_eval (length (heap w))
             (set_stdout (stdout (set_tables ts w1) ++ search_lines res)
                (set_tables ts w1))
             (connected_object c (connects w)) cn (v4 ++ v6) dm
             Ho eq_refl Pi Pd).
  cbn [stdout set_stdout set_tables]. unfold set_stdout, set_tables.
  cbn [files db_conf accounts tables connects heap _instance stdout].
  now rewrite <- !app_assoc.
Qed.

(** X10 on the sample machine with the pattern option: one header
    line found, two addresses (one of them twice), two domains (each
    once, so that nothing follows the label of the domains section). *)
Lemma main_run_witness :
  exists ts,
    main Sample.args_both Sample.world0
    = (Ret tt,
       set_stdout
         [Text (nl :: lit "Search results:"); Text (lit "From: a@b.com");
          Text (nl :: lit "IPs:");
          Text (lit "1.2.3.4 " ++ tab :: lit " 2");
          Text (lit "5.6.7.8 " ++ tab :: lit " 1");
          Text (nl :: lit "Domains:")]
         (set_tables ts (connected Sample.account Sample.world0))) /\
    lookup_table (lit "mail") (lit "ips") ts
    = Some [lit "1.2.3.4"; lit "1.2.3.4"; lit "5.6.7.8"] /\
    lookup_table (lit "mail") (lit "domains") ts
    = Some [lit "b.com"; lit "d.com"].
Proof.
  assert (Hf : Py.find (mail_path Sample.args_both) (lit ".eml") <> (-1)%Z)
    by (vm_compute; discriminate).
  assert (Hp : ca_password Sample.account <> []) by discriminate.
  assert (Hd : ca_database Sample.account <> []) by discriminate.
  assert (Hs : fst (search_mode Sample.args_both Sample.mail Sample.world0)
               = Ret (Some [Re.FStr (lit "From: a@b.com")]))
    by (vm_compute; reflexivity).
  assert (Fd : Re.findall (DOMAIN default_tld_list) Sample.mail
               = Some (map Re.FStr [lit "b.com"; lit "d.com"]))
    by (vm_compute; reflexivity).
  assert (Sd : Forall (fun t => storable t = true) [lit "b.com"; lit "d.com"])
    by (repeat constructor).
  destruct (main_run Sample.args_both Sample.world0 Sample.account
              Sample.mail default_tld_list [lit "b.com"; lit "d.com"]
              (Some [Re.FStr (lit "From: a@b.com")])
              eq_refl eq_refl Hp Hd eq_refl Hf eq_refl eq_refl Fd Sd Hs)
    as (v4 & v6 & ts & F4 & F6 & Li & Ld & E).
  assert (E4 : v4 = [lit "1.2.3.4"; lit "1.2.3.4"; lit "5.6.7.8"])
    by (apply (findall_is _ _ _ _ F4); vm_compute; reflexivity).
  assert (E6 : v6 = [])
    by (apply (findall_is _ _ _ _ F6); vm_compute; reflexivity).
  subst v4 v6.
  exists ts. split; [|split; [exact Li | exact Ld]].
  rewrite E. f_equal.
Defined.

(** X11. The exits of the main block before the mail is read.  With
    the configuration file missing the run ends in [sys.exit(2)] with
    the machine untouched.  With credentials the server refuses it
    ends in [sys.exit(2)] with the tables as they were.  With
    credentials the server accepts, a mail path without [.eml] or
    one that names no file ends the run in [sys.exit(2)] only after
    the connection was made: the tables [ips] and [domains] of the
    schema are empty then, whatever they held, and nothing was
    printed. *)
Theorem main_early_exits (a : args) (w : world) :
  (db_conf w = ConfMissing -> main a w = (Exit 2, w)) /\
  (forall c, db_conf w = ConfDict c -> _instance w = None ->
     ca_password c <> [] -> ca_database c <> [] ->
     existsb (conn_args_eqb c) (accounts w) = false ->
     exists w', main a w = (Exit 2, w') /\
                tables w' = tables w /\ stdout w' = stdout w) /\
  (forall c, db_conf w = ConfDict c -> _instance w = None ->
     ca_password c <> [] -> ca_database c <> [] ->
     existsb (conn_args_eqb c) (accounts w) = true ->
     Py.find (mail_path a) (lit ".eml") = (-1)%Z
     \/ lookup_file (mail_path a) (files w) = None ->
     exists w', main a w = (Exit 2, w') /\
                lookup_table (ca_database c) (lit "ips") (tables w')
                = Some [] /\
                lookup_table (ca_database c) (lit "domains") (tables w')
                = Some [] /\
                stdout w' = stdout w).
Proof.
  split; [|split].
  - intros H. unfold main. unfold bind at 1.
    unfold start_db_connection, bind, get. now rewrite H.
  - intros c Hc Hi Hpw Hdb Hacc.
    destruct (start_db_connection_refused w c Hc Hi Hpw Hdb Hacc)
      as (w' & E & T & O).
    exists w'. unfold main. unfold bind at 1. rewrite E. auto.
  - intros c Hc Hi Hpw Hdb Hacc Hm.
    exists (connected c w). unfold main. unfold bind at 1.
    rewrite (start_db_connection_connected w c Hc Hi Hpw Hdb Hacc).
    unfold bind at 1. rewrite open_mail_exits by exact Hm.
    destruct (connected_lookup c w) as (_ & Li & Ld). auto.
Qed.

(** X11 on the sample machine with rows left over from an earlier
    run and a mail path that names no file. *)
Lemma main_early_exits_witness :
  exists w',
    main (Args [] None None (lit "other.eml"))
      (World [(lit "m.eml", Sample.mail)] (ConfDict Sample.account)
         [Sample.account] [(lit "mail", lit "ips", [lit "9.9.9.9"])]
         0 [] [] None)
    = (Exit 2, w') /\
    lookup_table (lit "mail") (lit "ips") (tables w') = Some [].
Proof.
  destruct (proj2 (proj2 (main_early_exits
              (Args [] None None (lit "other.eml"))
              (World [(lit "m.eml", Sample.mail)] (ConfDict Sample.account)
                 [Sample.account] [(lit "mail", lit "ips", [lit "9.9.9.9"])]
                 0 [] [] None))) Sample.account)
    as (w' & E & Li & _); try reflexivity; try discriminate.
  - right. reflexivity.
  - exists w'. split; assumption.
Defined.

(* ----------------------------------------------------------------- *)
(** ** Further properties: literal text in a pattern *)

Lemma is_plain_spec (c : ascii) :
  is_plain c = true ->
  Ascii.eqb c "." = false /\ Ascii.eqb c "^" = false /\
  Ascii.eqb c "$" = false /\ Ascii.eqb c "*" = false /\
  Ascii.eqb c "+" = false /\ Ascii.eqb c "?" = false /\
  Ascii.eqb c "{" = false /\ Ascii.eqb c "[" = false /\
  Ascii.eqb c "\" = false /\ Ascii.eqb c "(" = false /\
  Ascii.eqb c "|" = false /\ Ascii.eqb c ")" = false.
Proof.
  unfold is_plain. intros H. apply negb_true_iff in H.
  cbn [lit String.list_ascii_of_string existsb] in H.
  repeat (apply orb_false_iff in H; destruct H as [? H]).
  repeat split; assumption.
Qed.

Lemma parse_atom_plain (f gc : nat) (c : ascii) (s : str) :
  is_plain c = true ->
  Re.parse_atom (S f) gc c s
  = Some (Re.Chars (Re.CSet false [Re.CChar c]), true, gc, s).
Proof.
  intros H. apply is_plain_spec in H.
  destruct H as (H1 & H2 & H3 & H4 & H5 & H6 & H7 & H8 & H9 & H10 & _ & _).
  cbn [Re.parse_atom].
  now rewrite H1, H2, H3, H4, H5, H6, H7, H8, H9, H10.
Qed.

Lemma no_quant_plain (c : ascii) (s : str) :
  is_plain c = true -> no_quant (c :: s).
Proof.
  intros H. apply is_plain_spec in H.
  destruct H as (_ & _ & _ & H4 & H5 & H6 & H7 & _).
  unfold no_quant. cbn [lit String.list_ascii_of_string existsb].
  now rewrite H4, H5, H6, H7.
Qed.

Lemma quantify_none (a : Re.regex) (rep : bool) (s : str) :
  no_quant s -> Re.quantify a rep s = Some (a, s).
Proof.
  destruct s as [|c s]; [reflexivity|]. unfold no_quant.
  cbn [lit String.list_ascii_of_string existsb]. intros H.
  repeat (apply orb_false_iff in H; destruct H as [? H]).
  unfold Re.quantify, Re.parse_quant.
  now repeat match goal with E : Ascii.eqb _ _ = false |- _ =>
                rewrite E; clear E end.
Qed.

Lemma parse_seq_0 (gc : nat) (s : str) : Re.parse_seq 0 gc s = None.
Proof. reflexivity. Qed.

(** A literal text at the head of a pattern is read as its
    characters. *)
Lemma parse_seq_text (s : str) (f gc : nat) (rest : str) :
  Forall (fun c => is_plain c = true) s -> no_quant rest ->
  Re.parse_seq (length s + f) gc (s ++ rest)
  = match Re.parse_seq f gc rest with
    | Some (r, g, s4) => Some (text_then s r, g, s4)
    | None => None
    end.
Proof.
  intros Hs Hr. induction Hs as [|c s Hc Hs IH].
  - cbn [length app Nat.add text_then fold_right].
    now destruct (Re.parse_seq f gc rest) as [[[r g] s4]|].
  - assert (Hq : no_quant (s ++ rest)).
    { destruct Hs as [|d s]; [exact Hr | now apply no_quant_plain]. }
    pose proof (is_plain_spec c Hc) as Hp.
    destruct Hp as (_ & _ & _ & _ & _ & _ & _ & _ & _ & _ & Hb & Hp).
    cbn [length app Nat.add]. cbn [Re.parse_seq]. rewrite Hb, Hp. cbn [orb].
    destruct (length s + f) as [|f'] eqn:Ef.
    + assert (s = []) by (destruct s; [reflexivity | discriminate]).
      assert (f = 0) by lia. subst s f. now rewrite parse_seq_0.
    + rewrite parse_atom_plain by exact Hc. rewrite quantify_none by exact Hq.
      rewrite IH.
      now destruct (Re.parse_seq f gc rest) as [[[r g] s4]|].
Qed.

Lemma text_then_Empty (s : str) : text_then s Re.Empty = r_text s.
Proof.
  induction s as [|c s IH]; [reflexivity|].
  cbn [text_then fold_right]. fold (text_then s Re.Empty). rewrite IH.
  destruct s as [|d s]; [reflexivity|].
  cbn [r_text]. now destruct s.
Qed.

Lemma r_text_not_Empty (s : str) : s <> [] -> r_text s <> Re.Empty.
Proof.
  destruct s as [|c [|d s]]; intros H; [now destruct H | discriminate..].
Qed.

Lemma r_any_of_not_Empty (l : list str) :
  l <> [] -> Forall (fun s => s <> []) l -> r_any_of l <> Re.Empty.
Proof.
  destruct l as [|s [|s' l]]; intros Hn H;
    [now destruct Hn | | discriminate].
  inversion H. now apply r_text_not_Empty.
Qed.

Lemma cat_Cat (a b : Re.regex) : b <> Re.Empty -> Re.cat a b = Re.Cat a b.
Proof. destruct b; try reflexivity. intros H. now destruct H. Qed.

(** The text ends the alternative being read: nothing is left, or a
    bar or a closing parenthesis comes next. *)
Lemma parse_seq_stop (f gc : nat) (s : str) :
  match s with
  | [] => True
  | c :: _ => c = bar \/ c = ")"%char
  end ->
  Re.parse_seq (S f) gc s = Some (Re.Empty, gc, s).
Proof.
  destruct s as [|c s]; [reflexivity|]. intros [-> | ->]; reflexivity.
Qed.

Lemma parse_seq_word (w : str) (f gc : nat) (rest : str) :
  Forall (fun c => is_plain c = true) w ->
  match rest with
  | [] => True
  | c :: _ => c = bar \/ c = ")"%char
  end ->
  length w + 1 <= f ->
  Re.parse_seq f gc (w ++ rest) = Some (r_text w, gc, rest).
Proof.
  intros Hw Hr Hf.
  replace f with (length w + S (f - length w - 1)) by lia.
  rewrite parse_seq_text; [|exact Hw|].
  - rewrite parse_seq_stop by exact Hr. now rewrite text_then_Empty.
  - destruct rest as [|c rest]; [exact I|].
    destruct Hr as [-> | ->]; reflexivity.
Qed.

(** An alternation of literal words, up to the parenthesis that closes
    it. *)
Lemma parse_alt_words (ws : list str) (f gc : nat) (rest : str) :
  ws <> [] -> Forall (Forall (fun c => is_plain c = true)) ws ->
  match rest with
  | [] => True
  | c :: _ => c = ")"%char
  end ->
  length (join bar ws) + 2 <= f ->
  Re.parse_alt f gc (join bar ws ++ rest) = Some (r_any_of ws, gc, rest).
Proof.
  intros Hne Hws Hr. revert f.
  induction Hws as [|w ws Hw Hws IH]; [now destruct Hne|]. intros f Hf.
  destruct f as [|f]; [lia|]. cbn [Re.parse_alt].
  destruct ws as [|w' ws].
  - cbn [join r_any_of] in *.
    rewrite (parse_seq_word w f gc rest Hw); [| |lia].
    + destruct rest as [|c rest]; [reflexivity|]. now subst c.
    + destruct rest as [|c rest]; [exact I | now right].
  - change (join bar (w :: w' :: ws)) with (w ++ bar :: join bar (w' :: ws))
      in *.
    rewrite length_app in Hf. cbn [length] in Hf.
    rewrite <- app_assoc. cbn [app].
    rewrite (parse_seq_word w f gc _ Hw); [|now left | lia].
    change (Ascii.eqb bar "|") with true. cbv iota.
    rewrite IH; [reflexivity | discriminate | lia].
Qed.

Lemma parse_seq_step (f gc : nat) (c : ascii) (s : str) (a : Re.regex)
    (rep : bool) (gc1 : nat) (s2 : str) (a' : Re.regex) (s3 : str)
    (r : Re.regex) (gc2 : nat) (s4 : str) :
  Ascii.eqb c "|" || Ascii.eqb c ")" = false ->
  Re.parse_atom f gc c s = Some (a, rep, gc1, s2) ->
  Re.quantify a rep s2 = Some (a', s3) ->
  Re.parse_seq f gc1 s3 = Some (r, gc2, s4) ->
  Re.parse_seq (S f) gc (c :: s) = Some (Re.cat a' r, gc2, s4).
Proof.
  intros Hc Ha Hq Hs. cbn [Re.parse_seq]. now rewrite Hc, Ha, Hq, Hs.
Qed.

Lemma parse_alt_single (f gc : nat) (s : str) (r : Re.regex) (gc1 : nat)
    (s1 : str) :
  Re.parse_seq f gc s = Some (r, gc1, s1) ->
  match s1 with
  | [] => True
  | c :: _ => Ascii.eqb c "|" = false
  end ->
  Re.parse_alt (S f) gc s = Some (r, gc1, s1).
Proof.
  intros Hs H1. cbn [Re.parse_alt]. rewrite Hs.
  destruct s1 as [|c s1]; [reflexivity | now rewrite H1].
Qed.

Lemma parse_atom_plain_group (f gc : nat) (s : str) (r : Re.regex)
    (gc1 : nat) (s3 : str) :
  Re.parse_alt f gc s = Some (r, gc1, ")"%char :: s3) ->
  Re.parse_atom (S f) gc "(" ("?"%char :: ":"%char :: s)
  = Some (r, true, gc1, s3).
Proof. intros H. cbn. now rewrite H. Qed.

Lemma parse_atom_capture (f gc : nat) (c : ascii) (s : str) (r : Re.regex)
    (gc1 : nat) (s3 : str) :
  Ascii.eqb c "?" = false ->
  Re.parse_alt f (S gc) (c :: s) = Some (r, gc1, ")"%char :: s3) ->
  Re.parse_atom (S f) gc "(" (c :: s) = Some (Re.Group (S gc) r, true, gc1, s3).
Proof.
  intros Hc H. cbn -[Re.parse_alt]. rewrite Hc. cbn -[Re.parse_alt].
  now rewrite H.
Qed.

(** The fixed items of the domain pattern. *)
Lemma parse_atom_not_behind (m gc : nat) (s : str) :
  Re.parse_atom (8 + m) gc "(" (lit "?<!\w|\.)" ++ s)
  = Some (r_not_behind, true, gc, s).
Proof. reflexivity. Qed.

Lemma parse_atom_not_ahead (m gc : nat) (s : str) :
  Re.parse_atom (8 + m) gc "(" (lit "?!\.?\w)" ++ s)
  = Some (r_not_ahead, true, gc, s).
Proof. reflexivity. Qed.

Lemma parse_atom_word_or_hyphen (m gc : nat) (s : str) :
  Re.parse_atom (8 + m) gc "[" (lit "\w\-]" ++ s)
  = Some (Re.Chars word_or_hyphen, true, gc, s).
Proof. reflexivity. Qed.

Lemma parse_atom_dot_word (m gc : nat) (s : str) :
  Re.parse_atom (8 + m) gc "(" (lit "?:\.\w+)" ++ s)
  = Some (Re.Cat r_dot (Re.Repeat r_word 1 None true), true, gc, s).
Proof. reflexivity. Qed.

Lemma parse_atom_dot (m gc : nat) (s : str) :
  Re.parse_atom (8 + m) gc "\" ("."%char :: s) = Some (r_dot, true, gc, s).
Proof. reflexivity. Qed.

(** The domain pattern built from a list of literal top-level
    domains. *)
Lemma compile_DOMAIN_words (ws : list str) :
  ws <> [] ->
  Forall (fun w => w <> [] /\ Forall (fun c => is_plain c = true) w) ws ->
  Re.compile (DOMAIN (join bar ws)) = Some (domain_regex ws, 1).
Proof.
  intros Hne Hws.
  assert (Hp : Forall (Forall (fun c => is_plain c = true)) ws)
    by (eapply Forall_impl; [|exact Hws]; now intros w [_ H]).
  assert (He : Forall (fun w => w <> []) ws)
    by (eapply Forall_impl; [|exact Hws]; now intros w [H _]).
  pose proof (r_any_of_not_Empty ws Hne He) as Hany.
  unfold Re.compile, DOMAIN.
  set (tld := join bar ws) in *.
  rewrite !length_app.
  set (n := length tld).
  replace (3 * (length (lit "(?<!\w|\.)([\w\-]+(?:\.\w+)*(?:\.(?:")
                + (n + length (lit ")))(?!\.?\w)"))) + 3)
    with (60 + (3 * n + 87)) by (cbn [length lit String.list_ascii_of_string]; lia).
  cbn [Nat.add lit String.list_ascii_of_string app].
  match goal with
  | |- match Re.parse_alt ?f 0 ?p with _ => _ end = _ =>
      assert (H : exists r, Re.parse_alt f 0 p = Some (r, 1, [])
                            /\ r = domain_regex ws)
  end.
  { eexists. split.
    - apply parse_alt_single; [|exact I].
      eapply parse_seq_step; [reflexivity | ..].
      1: apply parse_atom_not_behind. 1: reflexivity.
      eapply parse_seq_step; [reflexivity | ..].
      1: { apply parse_atom_capture; [reflexivity|].
           apply parse_alt_single; [|reflexivity].
           eapply parse_seq_step; [reflexivity | ..].
           1: apply parse_atom_word_or_hyphen. 1: reflexivity.
           eapply parse_seq_step; [reflexivity | ..].
           1: apply parse_atom_dot_word. 1: reflexivity.
           eapply parse_seq_step; [reflexivity | ..].
           1: { apply parse_atom_plain_group.
                apply parse_alt_single; [|reflexivity].
                eapply parse_seq_step; [reflexivity | ..].
                1: apply parse_atom_dot. 1: reflexivity.
                eapply parse_seq_step; [reflexivity | ..].
                1: { apply parse_atom_plain_group.
                     apply (parse_alt_words ws _ _ _ Hne Hp); [reflexivity|].
                     fold tld. fold n. lia. }
                1: reflexivity.
                apply parse_seq_stop. now right. }
           1: reflexivity.
           apply parse_seq_stop. now right. }
      1: reflexivity.
      eapply parse_seq_step; [reflexivity | ..].
      1: apply parse_atom_not_ahead. 1: reflexivity.
      apply parse_seq_stop. exact I.
    - rewrite (cat_Cat _ (r_any_of ws)) by exact Hany. reflexivity. }
  destruct H as (r & -> & ->). reflexivity.
Qed.

(* ----------------------------------------------------------------- *)
(** ** Further properties: the TLD file and the domain pattern *)

Lemma replace_char_app (old : ascii) (new a b : str) :
  Py.replace_char old new (a ++ b)
  = Py.replace_char old new a ++ Py.replace_char old new b.
Proof. unfold Py.replace_char. apply flat_map_app. Qed.

Lemma replace_char_none (old : ascii) (new s : str) :
  Forall (fun c => c <> old) s -> Py.replace_char old new s = s.
Proof.
  induction 1 as [|c s Hc Hs IH]; [reflexivity|].
  unfold Py.replace_char in *. cbn [flat_map].
  destruct (Ascii.eqb_spec c old); [contradiction|]. cbn [app].
  now rewrite IH.
Qed.

Lemma replace_char_join (ws : list str) :
  Forall (Forall (fun c => c <> nl)) ws ->
  Py.replace_char nl (lit "|") (join nl ws) = join bar ws.
Proof.
  induction 1 as [|w ws Hw Hws IH]; [reflexivity|].
  destruct ws as [|w' ws].
  - cbn [join]. now apply replace_char_none.
  - change (join nl (w :: w' :: ws)) with (w ++ nl :: join nl (w' :: ws)).
    change (join bar (w :: w' :: ws)) with (w ++ bar :: join bar (w' :: ws)).
    rewrite replace_char_app, (replace_char_none nl _ w Hw).
    change (nl :: join nl (w' :: ws)) with ([nl] ++ join nl (w' :: ws)).
    rewrite replace_char_app, IH. reflexivity.
Qed.

Lemma join_last (ws : list str) :
  ws <> [] -> Forall (fun w => w <> [] /\ Forall (fun c => c <> nl) w) ws ->
  exists body c, join nl ws = body ++ [c] /\ c <> nl.
Proof.
  intros Hne H. induction H as [|w ws [Hw Hc] Hws IH]; [now destruct Hne|].
  destruct ws as [|w' ws].
  - cbn [join]. destruct (@exists_last _ w Hw) as (body & c & ->).
    exists body, c. split; [reflexivity|].
    rewrite Forall_app in Hc. destruct Hc as [_ Hc]. now inversion Hc.
  - destruct IH as (body & c & E & Hn); [discriminate|].
    change (join nl (w :: w' :: ws)) with (w ++ nl :: join nl (w' :: ws)).
    rewrite E. exists (w ++ nl :: body), c.
    split; [now rewrite <- app_assoc | exact Hn].
Qed.

(** The TLD list [tld_config] returns for a file of top-level
    domains, one per line. *)
Lemma tld_config_lines (w : world) (tlds : list str) :
  tlds <> [] -> Forall tld_word tlds -> tld_source (files w) tlds ->
  tld_config w = (Ret (join bar tlds), w).
Proof.
  intros Hne Hw Hs.
  assert (Hn : Forall (fun t => t <> [] /\ Forall (fun c => c <> nl) t) tlds).
  { eapply Forall_impl; [|exact Hw]. intros t [H1 H2]. split; [exact H1|].
    eapply Forall_impl; [|exact H2]. now intros c [_ H]. }
  assert (Hn' : Forall (Forall (fun c => c <> nl)) tlds).
  { eapply Forall_impl; [|exact Hn]. now intros t [_ H]. }
  destruct Hs as [[Hf ->] | [Hf | Hf]].
  - now apply tld_config_default.
  - unfold tld_config, bind, read_file, get. rewrite Hf. cbv beta iota zeta.
    destruct (join_last tlds Hne Hn) as (body & c & E & Hc).
    destruct (Z.eqb_spec (Z.of_nat (length (join nl tlds))
                          - Py.rfind (join nl tlds) [nl]) 1) as [R|_].
    + exfalso. unfold Py.rfind in R.
      destruct (rfind_from_char nl (join nl tlds) 0%Z ltac:(lia))
        as [[E1 _] | (a & b & Ea & _ & E1)]; rewrite E1 in R.
      * rewrite E, length_app in R. cbn [length] in R. lia.
      * rewrite Ea, length_app in R. cbn [length] in R.
        assert (b = []) by (destruct b; [reflexivity | cbn [length] in R; lia]).
        subst b. rewrite E in Ea. apply app_inj_tail in Ea.
        destruct Ea as [_ ->]. now destruct Hc.
    + now rewrite replace_char_join.
  - unfold tld_config, bind, read_file, get. rewrite Hf. cbv beta iota zeta.
    rewrite rfind_last_char, length_app. cbn [length].
    replace (Z.of_nat (length (join nl tlds) + 1)
             - Z.of_nat (length (join nl tlds)) =? 1)%Z
      with true by (symmetry; apply Z.eqb_eq; lia).
    rewrite slice_to_prefix. now rewrite replace_char_join.
Qed.

Lemma tld_words_plain (tlds : list str) :
  Forall tld_word tlds ->
  Forall (fun w => w <> [] /\ Forall (fun c => is_plain c = true) w) tlds.
Proof.
  intros H. eapply Forall_impl; [|exact H]. intros t [H1 H2].
  split; [exact H1|]. eapply Forall_impl; [|exact H2]. now intros c [Hp _].
Qed.

Lemma domain_spans_words (tlds : list str) (doc : str) :
  tlds <> [] -> Forall tld_word tlds ->
  domain_spans (join bar tlds) doc = Re.spans (domain_regex tlds) 1 doc.
Proof.
  intros Hne Hw. unfold domain_spans.
  now rewrite (compile_DOMAIN_words tlds Hne (tld_words_plain tlds Hw)).
Qed.

Lemma default_tlds_words : Forall tld_word default_tlds.
Proof.
  repeat constructor; try discriminate.
Qed.

(** X12. The TLD list configures which domains are extracted.  For a
    list of top-level domains that is the built-in one (no TLD.conf),
    or that TLD.conf holds one per line (plain characters only): the
    domain search of [parse_mail] returns the texts of the matches of
    the domain pattern over exactly these top-level domains, in the
    order of their positions, which increase strictly; each is a first
    label of word characters and hyphens, any number of further labels
    of word characters, each after a dot, and a dot with one top-level
    domain of the list; it stands at its position in the document, not
    after a word character or a dot and not before a word character or
    a dot and a word character. *)
Theorem domain_extraction_shape (doc : str) (tlds : list str) :
  tlds <> [] -> Forall tld_word tlds ->
  (forall w, tld_source (files w) tlds ->
     bind tld_config (fun tld => re_findall (DOMAIN tld) doc) w
     = (Ret (map snd (domain_spans (join bar tlds) doc)), w)) /\
  StronglySorted lt (map fst (domain_spans (join bar tlds) doc)) /\
  (forall i x, In (i, x) (domain_spans (join bar tlds) doc) ->
     exists t, x = Re.FStr t /\ domain_occurrence tlds doc i t).
Proof.
  intros Hne Hw.
  pose proof (compile_DOMAIN_words tlds Hne (tld_words_plain tlds Hw)) as C.
  rewrite (domain_spans_words tlds doc Hne Hw).
  split; [|split].
  - intros w Hs. unfold bind. rewrite (tld_config_lines w tlds Hne Hw Hs).
    unfold re_findall, Re.findall. now rewrite C.
  - unfold Re.spans.
    apply (scan_sorted (domain_regex tlds) 1 (fun _ => True)
             (chars_in_True _) (domain_min_width _)).
  - intros i x H. apply spans_sound in H.
    destruct H as (pre & rest & adv & st' & -> & <- & T & ->).
    apply domain_try_at_inv in T; [|exact Hne].
    destruct T as (t & post & -> & Hs & Hb & Ha & ->).
    exists t. split; [reflexivity|].
    exists pre, post. split; [reflexivity|]. split; [reflexivity|].
    split; [exact Hs|]. split; [now apply clear_before_of_rev | exact Ha].
Qed.

(** X12 on a machine whose TLD.conf holds the lines [io] and [de]: of
    the two names in the text only the one under [io] is returned. *)
Lemma domain_extraction_shape_witness :
  let w := World [(lit "TLD.conf", lit "io" ++ nl :: lit "de" ++ [nl])]
             ConfMissing [] [] 0 [] [] None in
  bind tld_config
    (fun tld => re_findall (DOMAIN tld) (lit "see example.io, not example.com"))
    w
  = (Ret [Re.FStr (lit "example.io")], w) /\
  domain_occurrence [lit "io"; lit "de"]
    (lit "see example.io, not example.com") 4 (lit "example.io").
Proof.
  assert (Hw : Forall tld_word [lit "io"; lit "de"]).
  { repeat constructor; discriminate. }
  assert (Hne : [lit "io"; lit "de"] <> []) by discriminate.
  split.
  - rewrite (proj1 (domain_extraction_shape
                      (lit "see example.io, not example.com")
                      [lit "io"; lit "de"] Hne Hw)).
    + vm_compute. reflexivity.
    + right. right. reflexivity.
  - destruct (proj2 (proj2 (domain_extraction_shape
                              (lit "see example.io, not example.com")
                              [lit "io"; lit "de"] Hne Hw)) 4
                (Re.FStr (lit "example.io"))) as (t & [= <-] & H).
    + vm_compute. left. reflexivity.
    + exact H.
Defined.

Lemma tld_words_sql_plain (tlds : list str) :
  Forall tld_word tlds -> Forall (Forall (fun c => c <> quote)) tlds ->
  Forall (Forall sql_plain) tlds.
Proof.
  intros Hw. induction Hw as [|t tlds [_ Ht] Hw IH]; intros Hq;
    [constructor|].
  inversion Hq as [|? ? Hq1 Hq2]. subst.
  constructor; [|now apply IH].
  clear IH Hw Hq Hq2. induction Ht as [|c t [Hc _] Ht IH]; [constructor|].
  inversion Hq1 as [|? ? Hc1 Hc2]. subst.
  constructor; [|now apply IH].
  split; [exact Hc1|]. intros ->. discriminate.
Qed.

(** X13. The values [parse_mail] puts between the double quotes of
    its INSERT statements, for a TLD list of plain words without a
    double quote (the built-in list is one): every element of the
    three match lists is a string that holds neither a double quote
    nor a backslash, so that the statement built from it has the value
    as its literal. *)
Theorem inserted_values_plain (doc p : str) (tlds : list str)
    (l : list Re.fitem) :
  tlds <> [] -> Forall tld_word tlds ->
  Forall (Forall (fun c => c <> quote)) tlds ->
  In p [IPV4; IPV6; DOMAIN (join bar tlds)] ->
  Re.findall p doc = Some l ->
  Forall (fun x => exists t, x = Re.FStr t /\ Forall sql_plain t) l.
Proof.
  intros Hne Hw Hq Hp F. apply Forall_forall. intros x Hx.
  unfold Re.findall in F.
  destruct Hp as [<- | [<- | [<- | []]]].
  - rewrite compile_IPV4 in F. injection F as <-.
    apply in_map_iff in Hx. destruct Hx as ([i y] & <- & Hx).
    apply spans_sound in Hx.
    destruct Hx as (pre & rest & adv & st' & _ & _ & T & ->).
    apply ipv4_try_at_inv in T. destruct T as (t & post & _ & Hd & _ & _ & ->).
    exists t. split; [reflexivity | now apply dotted_quad_plain].
  - rewrite compile_IPV6 in F. injection F as <-.
    apply in_map_iff in Hx. destruct Hx as ([i y] & <- & Hx).
    apply spans_sound in Hx.
    destruct Hx as (pre & rest & adv & st' & _ & _ & T & ->).
    apply ipv6_try_at_inv in T. destruct T as (t & post & _ & Hd & _ & _ & E).
    exists t. split; [exact E | now apply colon_groups_plain].
  - rewrite (compile_DOMAIN_words tlds Hne (tld_words_plain tlds Hw)) in F.
    injection F as <-.
    apply in_map_iff in Hx. destruct Hx as ([i y] & <- & Hx).
    apply spans_sound in Hx.
    destruct Hx as (pre & rest & adv & st' & _ & _ & T & ->).
    apply domain_try_at_inv in T; [|exact Hne].
    destruct T as (t & post & _ & Hd & _ & _ & E).
    exists t. split; [exact E|].
    apply (domain_name_plain tlds); [|exact Hd].
    now apply tld_words_sql_plain.
Qed.

(** X13 with the built-in list, on a text that quotes a domain. *)
Lemma inserted_values_plain_witness :
  Forall (fun x => exists t, x = Re.FStr t /\ Forall sql_plain t)
         [Re.FStr (lit "example.org")].
Proof.
  apply (inserted_values_plain
           (lit "see " ++ quote :: lit "example.org" ++ quote :: backslash
              :: lit "n")
           (DOMAIN default_tld_list) default_tlds).
  - discriminate.
  - exact default_tlds_words.
  - repeat constructor; discriminate.
  - right. right. left. reflexivity.
  - vm_compute. reflexivity.
Defined.

(* ----------------------------------------------------------------- *)
(** ** Further properties: the substring search over the header lines *)

Lemma contains_iff (sub s : str) :
  contains sub s = true <-> exists a b, s = a ++ sub ++ b.
Proof.
  unfold contains. rewrite negb_true_iff, Z.eqb_neq. split.
  - intros H. unfold Py.find in H.
    destruct (find_from_spec sub s 0) as [[_ E] | (pre & [[post E] _] & _)];
      [contradiction | now exists pre, post].
  - intros (a & b & E) H. apply find_absent_iff in H.
    apply (H a). now exists b.
Qed.

Lemma contains_nil (sub : str) : sub <> [] -> contains sub [] = false.
Proof.
  intros H. apply not_true_is_false. intros C. apply contains_iff in C.
  destruct C as (a & b & E). destruct a; [|discriminate].
  destruct sub; [now destruct H | discriminate].
Qed.

Lemma contains_cons (sub : str) (c : ascii) (s : str) :
  contains sub (c :: s) = Py.startswith sub (c :: s) || contains sub s.
Proof.
  apply eq_true_iff_eq. rewrite orb_true_iff, !contains_iff, startswith_spec.
  split.
  - intros ([|x a] & b & E).
    + left. now exists b.
    + right. injection E as -> E. now exists a, b.
  - intros [[b E] | (a & b & E)].
    + now exists [], b.
    + exists (c :: a), b. now rewrite E.
Qed.

Lemma join_split_lines (doc : str) :
  join nl (split_lines doc) = doc /\
  Forall (Forall (fun c => c <> nl)) (split_lines doc) /\
  split_lines doc <> [].
Proof.
  induction doc as [|c doc (J & F & N)]; cbn [split_lines].
  - repeat split; [repeat constructor | discriminate].
  - destruct (Ascii.eqb_spec c nl) as [-> | D].
    + split; [|split; [now constructor | discriminate]].
      destruct (split_lines doc) as [|l ls]; [now destruct N|].
      change (join nl ([] :: l :: ls)) with (nl :: join nl (l :: ls)).
      now rewrite J.
    + destruct (split_lines doc) as [|l ls]; [now destruct N|].
      split; [|split; [|discriminate]].
      * rewrite <- J. now destruct ls.
      * inversion F. subst. constructor; [now constructor | assumption].
Qed.

Lemma rmatch_smart_cat (a b : Re.regex) (st : Re.mstate) (k : Re.kont) :
  Re.rmatch (Re.cat a b) st k = Re.rmatch a st (fun s => Re.rmatch b s k).
Proof. destruct b; reflexivity. Qed.

Lemma startswith_app (s a : str) :
  Py.startswith s (s ++ a) = true.
Proof. apply startswith_spec. now exists a. Qed.

(** A literal text in a pattern matches itself. *)
Lemma rmatch_text_then (s : str) (R : Re.regex) (bef aft : str)
    (caps : list (nat * str)) (k : Re.kont) :
  Re.rmatch (text_then s R) (Re.MState bef aft caps) k
  = if Py.startswith s aft
    then Re.rmatch R (Re.MState (rev s ++ bef) (skipn (length s) aft) caps) k
    else None.
Proof.
  revert bef aft. induction s as [|c s IH]; intros bef aft; [reflexivity|].
  cbn [text_then fold_right]. fold (text_then s R). rewrite rmatch_smart_cat.
  destruct aft as [|x aft]; [reflexivity|].
  rewrite rmatch_chars_cons, cset_mem_single. cbn [Re.citem_mem Py.startswith].
  rewrite (Ascii.eqb_sym c x).
  destruct (Ascii.eqb_spec x c) as [-> | D]; [|reflexivity].
  rewrite IH. cbn [andb length skipn rev]. now rewrite <- app_assoc.
Qed.

Lemma rep_opt_any (n : nat) (l bef rest : str) (caps : list (nat * str))
    (k : Re.kont) :
  Forall (fun c => c <> nl) l -> line_end rest -> length l <= n ->
  Re.rep_opt (Re.rmatch (Re.Chars Re.CAny)) true n
    (Re.MState bef (l ++ rest) caps) k
  = furthest_first k bef l rest caps.
Proof.
  intros Hl Hr. revert n bef. induction Hl as [|c l Hc Hl IH]; intros n bef Hn.
  - cbn [app furthest_first]. destruct n as [|n]; [reflexivity|].
    cbn [Re.rep_opt]. destruct rest as [|x rest]; [reflexivity|].
    cbn in Hr. subst x. reflexivity.
  - destruct n as [|n]; [cbn in Hn; lia|].
    cbn [app furthest_first Re.rep_opt]. rewrite rmatch_chars_cons.
    cbn [Re.cset_mem].
    destruct (Ascii.eqb_spec c "010"%char) as [E | _]; [now destruct Hc|].
    cbn [negb]. unfold Re.progressed. cbn [Re.after length].
    replace (length (l ++ rest) <? S (length (l ++ rest))) with true
      by (symmetry; apply Nat.ltb_lt; lia).
    rewrite IH by (cbn in Hn; lia). reflexivity.
Qed.

Lemma rmatch_any_star (l bef rest : str) (caps : list (nat * str))
    (k : Re.kont) :
  Forall (fun c => c <> nl) l -> line_end rest ->
  Re.rmatch r_any_star (Re.MState bef (l ++ rest) caps) k
  = furthest_first k bef l rest caps.
Proof.
  intros Hl Hr. unfold r_any_star. cbn [Re.rmatch Re.rep_min Re.after].
  apply rep_opt_any; [exact Hl | exact Hr |].
  rewrite length_app. lia.
Qed.

Lemma furthest_first_all (k : Re.kont) (l bef rest : str)
    (caps : list (nat * str)) :
  (forall st, k st = Some st) ->
  furthest_first k bef l rest caps = Some (Re.MState (rev l ++ bef) rest caps).
Proof.
  intros Hk. revert bef. induction l as [|c l IH]; intros bef;
    cbn [furthest_first]; [apply Hk|].
  rewrite IH. cbn [Re.orelse rev]. now rewrite <- app_assoc.
Qed.

(** A text without a newline starts a line and what follows it only
    if it starts the line. *)
Lemma startswith_line (s l rest : str) :
  s <> [] -> Forall (fun c => c <> nl) s -> line_end rest ->
  Py.startswith s (l ++ rest) = Py.startswith s l.
Proof.
  intros Hne Hs Hr. revert l. induction Hs as [|c s Hc Hs IH]; intros l;
    [now destruct Hne|].
  destruct l as [|x l].
  - cbn [app]. destruct rest as [|y rest]; [reflexivity|].
    cbn in Hr. subst y. cbn [Py.startswith].
    destruct (Ascii.eqb_spec c nl); [contradiction | reflexivity].
  - cbn [app Py.startswith]. destruct s as [|d s].
    + now destruct (l ++ rest), l.
    + rewrite IH by discriminate. reflexivity.
Qed.

(** One attempt of the substring pattern at a position of a line: it
    succeeds when the substring occurs in what is left of the line,
    and then it takes the line to its end. *)
Lemma substring_try_at (s bef l rest : str) :
  s <> [] -> Forall (fun c => c <> nl) s ->
  Forall (fun c => c <> nl) l -> line_end rest ->
  Re.try_at (substring_regex s) false bef (l ++ rest)
  = if contains s l then Some (Re.MState (rev l ++ bef) rest []) else None.
Proof.
  intros Hne Hs Hl Hr. unfold Re.try_at, substring_regex.
  rewrite rmatch_cat, (rmatch_any_star l bef rest [] _ Hl Hr).
  cbn [andb].
  set (kf := fun st' : Re.mstate => Some st').
  set (K := fun s0 => Re.rmatch (text_then s r_any_star) s0 kf).
  assert (HK : forall b m, Forall (fun c => c <> nl) m ->
            K (Re.MState b (m ++ rest) [])
            = if Py.startswith s m
              then Some (Re.MState (rev m ++ b) rest []) else None).
  { intros b m Hm. unfold K. rewrite rmatch_text_then.
    rewrite (startswith_line s m rest Hne Hs Hr).
    destruct (Py.startswith s m) eqn:E; [|reflexivity].
    apply startswith_spec in E. destruct E as [m' ->].
    rewrite <- app_assoc, skipn_app, skipn_all, Nat.sub_diag. cbn [skipn app].
    rewrite Forall_app in Hm. destruct Hm as [_ Hm'].
    rewrite (rmatch_any_star m' _ rest [] kf Hm' Hr).
    rewrite furthest_first_all by reflexivity.
    now rewrite rev_app_distr, <- app_assoc. }
  clearbody K. revert bef. induction Hl as [|c l Hc Hl IH]; intros bef.
  - cbn [furthest_first]. pose proof (HK bef [] (Forall_nil _)) as H0.
    cbn [app] in H0. rewrite H0, contains_nil by exact Hne.
    destruct s; [now destruct Hne | reflexivity].
  - cbn [furthest_first]. rewrite IH.
    change (c :: l ++ rest) with ((c :: l) ++ rest).
    rewrite (HK bef (c :: l)) by now constructor.
    rewrite contains_cons. cbn [rev]. rewrite <- app_assoc. cbn [app].
    destruct (contains s l), (Py.startswith s (c :: l)); reflexivity.
Qed.

Lemma scan_skip (r : Re.regex) (ng : nat) (l bef rest : str) (pos : nat) :
  Re.scan r ng bef (l ++ rest) (length l) pos
  = Re.scan r ng (rev l ++ bef) rest 0 (pos + length l).
Proof.
  revert bef pos. induction l as [|c l IH]; intros bef pos.
  - cbn [app length rev]. now rewrite Nat.add_0_r.
  - cbn [app length Re.scan]. rewrite IH. cbn [rev].
    rewrite <- app_assoc. cbn [app]. f_equal. lia.
Qed.

(** At the end of a line the substring pattern finds nothing, and the
    scan goes on to the next line. *)
Lemma scan_line_end (s bef rest : str) (pos : nat) :
  s <> [] -> Forall (fun c => c <> nl) s -> line_end rest ->
  Re.scan (substring_regex s) 0 bef rest 0 pos
  = scan_next (substring_regex s) 0 bef rest pos 0.
Proof.
  intros Hne Hs Hr. rewrite scan_0.
  pose proof (substring_try_at s bef [] rest Hne Hs (Forall_nil _) Hr) as T.
  cbn [app] in T. rewrite T, contains_nil by exact Hne. reflexivity.
Qed.

(** The scan over one line: the line is reported when it holds the
    substring, and the scan goes on to the next line. *)
Lemma scan_line (s l bef rest : str) (pos : nat) :
  s <> [] -> Forall (fun c => c <> nl) s ->
  Forall (fun c => c <> nl) l -> line_end rest ->
  Re.scan (substring_regex s) 0 bef (l ++ rest) 0 pos
  = (if contains s l then [(pos, Re.FStr l)] else [])
    ++ scan_next (substring_regex s) 0 (rev l ++ bef) rest (pos + length l) 0.
Proof.
  intros Hne Hs Hl Hr. revert bef pos.
  induction Hl as [|c l Hc Hl IH]; intros bef pos.
  - cbn [app rev length]. rewrite contains_nil by exact Hne.
    rewrite Nat.add_0_r. now apply scan_line_end.
  - rewrite scan_0.
    rewrite (substring_try_at s bef (c :: l) rest Hne Hs) by
      (try exact Hr; now constructor).
    destruct (contains s (c :: l)) eqn:C.
    + cbn [Re.item_of]. rewrite matched_text_over.
      unfold Re.consumed. cbn [Re.after].
      rewrite length_app, Nat.add_sub. cbn [length app].
      cbn [scan_next]. rewrite scan_skip.
      rewrite (scan_line_end s _ rest _ Hne Hs Hr).
      cbn [rev]. rewrite <- app_assoc. cbn [app].
      now rewrite Nat.add_succ_r.
    + cbn [app scan_next]. rewrite IH.
      rewrite contains_cons in C. apply orb_false_iff in C. destruct C as [_ C].
      rewrite C. cbn [app rev length]. rewrite <- app_assoc. cbn [app].
      now rewrite Nat.add_succ_r.
Qed.

Lemma scan_lines (s : str) (ls : list str) (bef : str) (pos : nat) :
  s <> [] -> Forall (fun c => c <> nl) s ->
  ls <> [] -> Forall (Forall (fun c => c <> nl)) ls ->
  map snd (Re.scan (substring_regex s) 0 bef (join nl ls) 0 pos)
  = map Re.FStr (filter (contains s) ls).
Proof.
  intros Hne Hs Hn Hls. revert bef pos.
  induction Hls as [|l ls Hl Hls IH]; [now destruct Hn|]. intros bef pos.
  destruct ls as [|l2 ls].
  - cbn [join filter]. rewrite <- (app_nil_r l) at 1.
    rewrite (scan_line s l bef [] pos Hne Hs Hl I). cbn [scan_next].
    rewrite app_nil_r. now destruct (contains s l).
  - change (join nl (l :: l2 :: ls)) with (l ++ nl :: join nl (l2 :: ls)).
    rewrite (scan_line s l bef (nl :: join nl (l2 :: ls)) pos Hne Hs Hl
               eq_refl).
    cbn [scan_next]. rewrite map_app, IH by discriminate.
    cbn [filter]. now destruct (contains s l).
Qed.

(** The pattern of the substring search for a literal substring. *)
Lemma compile_substring (s : str) :
  s <> [] -> Forall (fun c => is_plain c = true) s ->
  Re.compile (lit ".*" ++ s ++ lit ".*") = Some (substring_regex s, 0).
Proof.
  intros Hne Hs. unfold Re.compile. rewrite !length_app.
  replace (3 * (length (lit ".*") + (length s + length (lit ".*"))) + 3)
    with (S (S (length s + (13 + 2 * length s))))
    by (cbn [length lit String.list_ascii_of_string]; lia).
  assert (H : Re.parse_alt (S (S (length s + (13 + 2 * length s)))) 0
                (lit ".*" ++ s ++ lit ".*")
              = Some (substring_regex s, 0, [])).
  { change (lit ".*" ++ s ++ lit ".*")
      with ("."%char :: "*"%char :: s ++ lit ".*").
    apply parse_alt_single; [|exact I].
    assert (Hq : no_quant (s ++ lit ".*")).
    { destruct Hs as [|c s Hc Hs]; [now destruct Hne|].
      now apply no_quant_plain. }
    assert (Hh : exists c s', s = c :: s' /\ is_plain c = true).
    { destruct Hs as [|c s Hc Hs]; [now destruct Hne | now exists c, s]. }
    destruct Hh as (c & s' & E & Hc).
    assert (Hstar : Re.quantify (Re.Chars Re.CAny) true
                      ("*"%char :: s ++ lit ".*")
                    = Some (r_any_star, s ++ lit ".*")).
    { unfold Re.quantify. cbn [Re.parse_quant].
      change (Ascii.eqb "*" "*") with true. cbv iota.
      rewrite E. cbn [app].
      pose proof (is_plain_spec c Hc) as (_ & _ & _ & H4 & H5 & H6 & H7 & _).
      rewrite H6. unfold Re.parse_quant. now rewrite H4, H5, H6, H7. }
    replace (substring_regex s)
      with (Re.cat r_any_star (text_then s r_any_star)).
    2: { unfold substring_regex. apply cat_Cat. rewrite E.
         cbn [text_then fold_right]. fold (text_then s' r_any_star).
         destruct (text_then s' r_any_star); discriminate. }
    assert (Hany : Re.parse_atom (length s + (13 + 2 * length s)) 0 "."
                     ("*"%char :: s ++ lit ".*")
                   = Some (Re.Chars Re.CAny, true, 0,
                           "*"%char :: s ++ lit ".*")).
    { destruct (length s + (13 + 2 * length s)) eqn:F; [lia | reflexivity]. }
    eapply parse_seq_step; [reflexivity | exact Hany | exact Hstar |].
    rewrite (parse_seq_text s _ 0 (lit ".*") Hs); [reflexivity|].
    reflexivity. }
  now rewrite H.
Qed.

(** X14. The substring search with a literal substring: when the
    substring is not empty and holds no character with a meaning in a
    pattern and no newline, [header_search] returns the lines of the
    header region that contain the substring, each whole and once, in
    the order of the header. *)
Theorem substring_search_lines (content s : str) (w : world) :
  s <> [] -> Forall (fun c => is_plain c = true /\ c <> nl) s ->
  exists found,
    header_search (Str content) s [] w = (Ret (map Re.FStr found), w) /\
    found = filter (contains s) (split_lines (get_header content)) /\
    (forall l, In l found <->
               In l (split_lines (get_header content)) /\
               exists a b, l = a ++ s ++ b).
Proof.
  intros Hne Hs.
  assert (Hp : Forall (fun c => is_plain c = true) s)
    by (eapply Forall_impl; [|exact Hs]; now intros c [H _]).
  assert (Hn : Forall (fun c => c <> nl) s)
    by (eapply Forall_impl; [|exact Hs]; now intros c [_ H]).
  exists (filter (contains s) (split_lines (get_header content))).
  split; [|split; [reflexivity|]].
  - rewrite header_search_substring by exact Hne.
    unfold re_findall, Re.findall. rewrite (compile_substring s Hne Hp).
    unfold Re.spans.
    destruct (join_split_lines (get_header content)) as (J & F & N).
    rewrite <- J at 1. now rewrite (scan_lines s _ [] 0 Hne Hn N F).
  - intros l. rewrite filter_In, contains_iff. reflexivity.
Qed.

(** X14 on the sample mail: the one header line with [@d]. *)
Lemma substring_search_lines_witness :
  header_search (Str Sample.mail) (lit "@d") [] Sample.world0
  = (Ret [Re.FStr (lit "To: c@d.com")], Sample.world0).
Proof.
  destruct (substring_search_lines Sample.mail (lit "@d") Sample.world0)
    as (found & E & -> & _).
  - discriminate.
  - repeat constructor; discriminate.
  - rewrite E. vm_compute. reflexivity.
Defined.

(* ----------------------------------------------------------------- *)
(** ** Further properties: matches are pieces of the subject *)

Section Within.

Variable doc : str.
Variable body : Re.mstate -> Re.kont -> option Re.mstate.
Hypothesis body_ok : within doc body.

Lemma within_rep_min (lo : nat) : within doc (Re.rep_min body lo).
Proof.
  induction lo as [|lo IH]; intros st k x D C H; cbn [Re.rep_min] in H.
  - now exists st.
  - apply (body_ok _ _ _ D C) in H. destruct H as (st1 & D1 & C1 & H).
    now apply (IH _ _ _ D1 C1) in H.
Qed.

Lemma within_rep_opt (greedy : bool) (n : nat) :
  within doc (Re.rep_opt body greedy n).
Proof.
  induction n as [|n IH]; intros st k x D C H; cbn [Re.rep_opt] in H.
  - now exists st.
  - assert (Hagain :
      body st (fun st' => if Re.progressed st st'
                          then Re.rep_opt body greedy n st' k else k st')
      = Some x ->
      exists st', doc_of st' = doc /\ caps_within doc (Re.caps st') /\
                  k st' = Some x).
    { intros E. apply (body_ok _ _ _ D C) in E.
      destruct E as (st1 & D1 & C1 & E).
      destruct (Re.progressed st st1).
      - now apply (IH _ _ _ D1 C1) in E.
      - now exists st1. }
    destruct greedy; unfold Re.orelse in H.
    + destruct (body st _) eqn:E; [injection H as ->; auto|].
      now exists st.
    + destruct (k st) eqn:E; [injection H as ->; now exists st | auto].
Qed.

End Within.

Lemma piece_refl_nil (doc : str) : piece [] doc.
Proof. now exists [], doc. Qed.

Lemma matched_text_piece (st st' : Re.mstate) :
  piece (Re.matched_text st st') (doc_of st').
Proof.
  unfold Re.matched_text, doc_of.
  set (n := length (Re.before st') - length (Re.before st)).
  exists (rev (skipn n (Re.before st'))), (Re.after st').
  rewrite app_assoc, <- rev_app_distr. now rewrite firstn_skipn.
Qed.

Lemma back_doc (w : nat) (bef aft bef' aft' : str) :
  Re.back w bef aft = Some (bef', aft') -> rev bef' ++ aft' = rev bef ++ aft.
Proof.
  revert bef aft. induction w as [|w IH]; intros bef aft; cbn [Re.back].
  - now intros [= <- <-].
  - destruct bef as [|c bef]; [discriminate|]. intros H. apply IH in H.
    rewrite H. cbn [rev]. now rewrite <- app_assoc.
Qed.

(** Whatever way the matcher finds through a pattern, it stays in the
    subject, and what it captures are pieces of the subject. *)
Lemma rmatch_within (doc : str) (r : Re.regex) : within doc (Re.rmatch r).
Proof.
  induction r as [| cs | r1 IH1 r2 IH2 | r1 IH1 r2 IH2 | r1 IH1 lo hi greedy
                 | g r1 IH1 | ahead neg r1 IH1 | | ];
    intros st k x D C H; cbn [Re.rmatch] in H.
  - now exists st.
  - destruct (Re.after st) as [|c aft] eqn:A; [discriminate|].
    destruct (Re.cset_mem cs c); [|discriminate].
    exists (Re.step st c aft). split; [|split; [exact C | exact H]].
    unfold doc_of in *. cbn [Re.step Re.before Re.after rev].
    rewrite <- D, A, <- app_assoc. reflexivity.
  - apply (IH1 _ _ _ D C) in H. destruct H as (st1 & D1 & C1 & H).
    now apply (IH2 _ _ _ D1 C1) in H.
  - unfold Re.orelse in H. destruct (Re.rmatch r1 st k) eqn:E.
    + injection H as ->. now apply (IH1 _ _ _ D C) in E.
    + now apply (IH2 _ _ _ D C) in H.
  - apply (within_rep_min doc _ IH1 lo _ _ _ D C) in H.
    destruct H as (st1 & D1 & C1 & H).
    now apply (within_rep_opt doc _ IH1 greedy _ _ _ _ D1 C1) in H.
  - apply (IH1 _ _ _ D C) in H. destruct H as (st1 & D1 & C1 & H).
    eexists. split; [|split; [|exact H]].
    + exact D1.
    + cbn [Re.caps]. constructor; [|exact C1].
      cbn [snd]. rewrite <- D1. apply matched_text_piece.
  - assert (Hk : forall s1,
              caps_within doc (Re.caps s1) ->
              k (Re.MState (Re.before st) (Re.after st) (Re.caps s1)) = Some x ->
              exists st', doc_of st' = doc /\ caps_within doc (Re.caps st') /\
                          k st' = Some x).
    { intros s1 C1 E. eexists. split; [|split; [|exact E]]; assumption. }
    assert (Hst : k st = Some x ->
              exists st', doc_of st' = doc /\ caps_within doc (Re.caps st') /\
                          k st' = Some x) by (now exists st).
    destruct ahead.
    + destruct (Re.rmatch r1 st _) as [s1|] eqn:E1; destruct neg;
        try discriminate; auto.
      apply (IH1 _ _ _ D C) in E1. destruct E1 as (s & _ & Cs & [= ->]).
      now apply (Hk s1).
    + destruct (Re.width r1) as [wd|]; [|destruct neg; try discriminate; auto].
      destruct (Re.back wd _ _) as [[bef aft]|] eqn:B;
        [|destruct neg; try discriminate; auto].
      destruct (Re.rmatch r1 _ _) as [s1|] eqn:E1; destruct neg;
        try discriminate; auto.
      apply IH1 in E1.
      * destruct E1 as (s & _ & Cs & [= ->]). now apply (Hk s1).
      * unfold doc_of. cbn [Re.before Re.after].
        rewrite (back_doc _ _ _ _ _ B). exact D.
      * exact C.
  - destruct (Re.before st); [|discriminate]. now exists st.
  - destruct (Re.at_end (Re.after st)); [|discriminate]. now exists st.
Qed.

Lemma group_text_piece (doc : str) (n : nat) (st : Re.mstate) :
  caps_within doc (Re.caps st) -> piece (Re.group_text n st) doc.
Proof.
  unfold Re.group_text. intros C.
  induction C as [|[m t] cs Ht C IH]; cbn [Re.lookup_cap].
  - apply piece_refl_nil.
  - destruct (n =? m); [exact Ht | exact IH].
Qed.

(** Every element [findall] returns is made of pieces of the
    subject. *)
Lemma findall_within (pattern doc : str) (l : list Re.fitem) :
  Re.findall pattern doc = Some l -> Forall (item_within doc) l.
Proof.
  unfold Re.findall. destruct (Re.compile pattern) as [[r ng]|];
    [|discriminate].
  intros [= <-]. apply Forall_forall. intros x Hx.
  apply in_map_iff in Hx. destruct Hx as ([i y] & <- & Hx).
  apply spans_sound in Hx.
  destruct Hx as (pre & rest & adv & st' & -> & _ & T & ->).
  unfold Re.try_at in T.
  apply (rmatch_within (pre ++ rest)) in T.
  - destruct T as (s1 & D1 & C1 & T).
    destruct (adv && _); [discriminate|]. injection T as <-.
    cbn [snd]. unfold Re.item_of.
    destruct ng as [|[|ng]]; cbn [item_within].
    + rewrite <- D1. apply matched_text_piece.
    + now apply group_text_piece.
    + apply Forall_forall. intros t Ht. apply in_map_iff in Ht.
      destruct Ht as (n & <- & _). now apply group_text_piece.
  - unfold doc_of. cbn [Re.before Re.after]. now rewrite rev_involutive.
  - constructor.
Qed.


